(** * NFT metadata retrieval pipeline (src/services/nftService.ts) and the
      "ensure-encoded" transform of the grid component
      (src/components/nft/NFTGrid.tsx), as a shallow embedding.

    JavaScript strings are sequences of UTF-16 code units; a code unit is an
    integer in [0, 65536).  Exceptions are explicit: a computation returns a
    [completion], either [Normal v] or [Throw e].  The platform functions
    that the source calls ([atob], [encodeURIComponent],
    [decodeURIComponent], [JSON.parse], the string and array methods) follow
    their standards.  What a run does to the outside (contract reads, waits,
    calls of the progress callback) is returned as a trace next to the
    result; console output is left out. *)

From Stdlib Require Import String Ascii DecimalString DecimalN.
From Stdlib Require Import ZArith List Bool Lia Sorted.
Import ListNotations.
Open Scope Z_scope.

(** ** Completions: values and thrown errors *)

Inductive error : Type :=
| InvalidCharacterError            (* DOMException thrown by atob *)
| URIError                         (* thrown by encode/decodeURIComponent *)
| SyntaxError                      (* thrown by JSON.parse *)
| TypeError                        (* property read on null, call of a non-function *)
| CallError (code : Z)             (* a rejected contract read *)
| ErrorMsg (msg : string).         (* new Error(msg) *)

Inductive completion (A : Type) : Type :=
| Normal (a : A)
| Throw (e : error).
Arguments Normal {A} a.
Arguments Throw {A} e.

Definition bind {A B} (c : completion A) (k : A -> completion B) : completion B :=
  match c with
  | Normal a => k a
  | Throw e => Throw e
  end.

Definition try_catch {A} (c : completion A) (handler : error -> completion A) : completion A :=
  match c with
  | Normal a => Normal a
  | Throw e => handler e
  end.

Declare Scope js_scope.
Delimit Scope js_scope with js.
Notation "x <- c ;; k" := (bind c (fun x => k))
  (at level 61, c at next level, right associativity) : js_scope.
Notation "' p <- c ;; k" := (bind c (fun x => match x with p => k end))
  (at level 61, p pattern, c at next level, right associativity) : js_scope.
Open Scope js_scope.

(** ** Strings *)

Module JSString.

Definition code_unit := Z.
Definition jsstring := list code_unit.

(** A string literal of the source, as code units (ASCII literals only). *)
Definition lit (s : string) : jsstring :=
  map (fun a => Z.of_N (N_of_ascii a)) (list_ascii_of_string s).

(** The same, with every apostrophe of the literal read as a double quote
    (for JSON texts). *)
Definition qlit (s : string) : jsstring :=
  map (fun c => if c =? 39 then 34 else c) (lit s).

(** The invariant of the JavaScript string type. *)
Definition is_code_unit (c : code_unit) : bool := (0 <=? c) && (c <? 65536).
Definition is_js_string (s : jsstring) : bool := forallb is_code_unit s.

Definition between (lo hi c : Z) : bool := (lo <=? c) && (c <=? hi).

Definition comma : code_unit := 44.
Definition percent : code_unit := 37.
Definition equals_sign : code_unit := 61.

Fixpoint eqb (s t : jsstring) : bool :=
  match s, t with
  | [], [] => true
  | c :: s', d :: t' => (c =? d) && eqb s' t'
  | _, _ => false
  end.

(** [s.startsWith(p)] *)
Fixpoint startsWith (p s : jsstring) : bool :=
  match p, s with
  | [], _ => true
  | c :: p', d :: s' => (c =? d) && startsWith p' s'
  | _ :: _, [] => false
  end.

(** [s.includes(p)]: [p] occurs at some position of [s]. *)
Fixpoint includes (p s : jsstring) : bool :=
  startsWith p s ||
  match s with
  | [] => false
  | _ :: s' => includes p s'
  end.

(** [s.split(sep)] for a one-character separator: never empty, and the
    empty string splits into one empty part. *)
Fixpoint split (sep : code_unit) (s : jsstring) : list jsstring :=
  match s with
  | [] => [[]]
  | c :: s' =>
      if c =? sep then [] :: split sep s'
      else match split sep s' with
           | p :: ps => (c :: p) :: ps
           | [] => [[c]]
           end
  end.

(** [parts.join(sep)] *)
Fixpoint join (sep : code_unit) (parts : list jsstring) : jsstring :=
  match parts with
  | [] => []
  | [p] => p
  | p :: ps => p ++ sep :: join sep ps
  end.

(** [parts.slice(1)] *)
Definition slice1 {A} (parts : list A) : list A := tl parts.

Definition is_hex_digit (c : code_unit) : bool :=
  between 48 57 c || between 65 70 c || between 97 102 c.

(** [/%[0-9A-Fa-f]{2}/.test(s)] *)
Fixpoint test_percent_escape (s : jsstring) : bool :=
  match s with
  | [] => false
  | c :: s' =>
      ((c =? percent) &&
       match s' with
       | h1 :: h2 :: _ => is_hex_digit h1 && is_hex_digit h2
       | _ => false
       end)
      || test_percent_escape s'
  end.

(** [n.toString()] for an integer. *)
Definition digits (n : Z) : jsstring :=
  lit (NilZero.string_of_uint (N.to_uint (Z.to_N n))).

Definition toString (n : Z) : jsstring :=
  if n <? 0 then 45 :: digits (- n) else digits n.

(** The values of the loop variable of [for (i = lo; i < hi; i += step)]
    with a positive step (lemma [for_range_unfold] below). *)
Fixpoint for_values (n : nat) (lo step : Z) : list Z :=
  match n with
  | O => []
  | S k => lo :: for_values k (lo + step) step
  end.

Definition for_range (lo hi step : Z) : list Z :=
  for_values (Z.to_nat ((hi - lo + step - 1) / step)) lo step.

End JSString.
Import JSString.

(** ** atob: the forgiving-base64 decode of the HTML standard *)

Module Base64.

Definition is_ascii_whitespace (c : code_unit) : bool :=
  (c =? 9) || (c =? 10) || (c =? 12) || (c =? 13) || (c =? 32).

Definition sextet (c : code_unit) : option Z :=
  if between 65 90 c then Some (c - 65)
  else if between 97 122 c then Some (c - 97 + 26)
  else if between 48 57 c then Some (c - 48 + 52)
  else if c =? 43 then Some 62
  else if c =? 47 then Some 63
  else None.

Fixpoint sextets (s : jsstring) : option (list Z) :=
  match s with
  | [] => Some []
  | c :: s' =>
      match sextet c, sextets s' with
      | Some v, Some vs => Some (v :: vs)
      | _, _ => None
      end
  end.

(** Groups of four sextets give three bytes; a final group of three gives
    two bytes and one of two gives one byte, the spare bits discarded. *)
Fixpoint bytes_of_sextets (vs : list Z) : list Z :=
  match vs with
  | a :: b :: c :: d :: rest =>
      let n := ((a * 64 + b) * 64 + c) * 64 + d in
      (n / 65536) :: ((n / 256) mod 256) :: (n mod 256) :: bytes_of_sextets rest
  | [a; b; c] =>
      let n := ((a * 64 + b) * 64 + c) / 4 in
      [n / 256; n mod 256]
  | [a; b] => [(a * 64 + b) / 16]
  | _ => []
  end.

(** Remove one or two trailing [=] signs. *)
Definition strip_padding (s : jsstring) : jsstring :=
  match rev s with
  | e1 :: e2 :: r =>
      if e1 =? equals_sign then
        if e2 =? equals_sign then rev r else rev (e2 :: r)
      else s
  | _ => s
  end.

Definition atob (data : jsstring) : completion jsstring :=
  let data := filter (fun c => negb (is_ascii_whitespace c)) data in
  let data :=
    if Z.of_nat (length data) mod 4 =? 0 then strip_padding data else data in
  if Z.of_nat (length data) mod 4 =? 1 then Throw InvalidCharacterError
  else match sextets data with
       | None => Throw InvalidCharacterError
       | Some vs => Normal (bytes_of_sextets vs)
       end.

End Base64.
Import Base64.

(** ** encodeURIComponent and decodeURIComponent (ECMAScript Encode / Decode) *)

Module URI.

(** uriAlpha, DecimalDigit and uriMark: [- _ . ! ~ * ' ( )]. *)
Definition is_unescaped (c : code_unit) : bool :=
  between 65 90 c || between 97 122 c || between 48 57 c ||
  (c =? 45) || (c =? 95) || (c =? 46) || (c =? 33) || (c =? 126) ||
  (c =? 42) || (c =? 39) || (c =? 40) || (c =? 41).

Definition is_leading_surrogate (c : code_unit) : bool := between 55296 56319 c.
Definition is_trailing_surrogate (c : code_unit) : bool := between 56320 57343 c.

Definition UTF16SurrogatePairToCodePoint (lead trail : code_unit) : Z :=
  (lead - 55296) * 1024 + (trail - 56320) + 65536.

Definition UTF16EncodeCodePoint (cp : Z) : jsstring :=
  if cp <=? 65535 then [cp]
  else [(cp - 65536) / 1024 + 55296; (cp - 65536) mod 1024 + 56320].

Definition utf8_encode (cp : Z) : list Z :=
  if cp <? 128 then [cp]
  else if cp <? 2048 then [192 + cp / 64; 128 + cp mod 64]
  else if cp <? 65536 then
    [224 + cp / 4096; 128 + (cp / 64) mod 64; 128 + cp mod 64]
  else
    [240 + cp / 262144; 128 + (cp / 4096) mod 64;
     128 + (cp / 64) mod 64; 128 + cp mod 64].

Definition hex_char (d : Z) : code_unit := if d <? 10 then 48 + d else 55 + d.

Definition escape_octet (b : Z) : jsstring :=
  [percent; hex_char (b / 16); hex_char (b mod 16)].

Definition escape_octets (bs : list Z) : jsstring := flat_map escape_octet bs.

(** Encode(string, unescapedSet): a code unit of the set is copied; any
    other code point is written as the escapes of its UTF-8 octets; an
    unpaired surrogate throws. *)
Fixpoint Encode (s : jsstring) : completion jsstring :=
  match s with
  | [] => Normal []
  | c :: r =>
      if is_unescaped c then
        R <- Encode r ;; Normal (c :: R)
      else if is_trailing_surrogate c then Throw URIError
      else if is_leading_surrogate c then
        match r with
        | d :: r' =>
            if is_trailing_surrogate d then
              R <- Encode r' ;;
              Normal (escape_octets (utf8_encode (UTF16SurrogatePairToCodePoint c d)) ++ R)
            else Throw URIError
        | [] => Throw URIError
        end
      else
        R <- Encode r ;; Normal (escape_octets (utf8_encode c) ++ R)
  end.

Definition encodeURIComponent (s : jsstring) : completion jsstring := Encode s.

Definition hex_value (c : code_unit) : option Z :=
  if between 48 57 c then Some (c - 48)
  else if between 65 70 c then Some (c - 55)
  else if between 97 102 c then Some (c - 87)
  else None.

Definition ParseHexOctet (h1 h2 : code_unit) : option Z :=
  match hex_value h1, hex_value h2 with
  | Some a, Some b => Some (16 * a + b)
  | _, _ => None
  end.

(** The number of leading 1 bits of an octet (5 stands for "more than 4"). *)
Definition leading_ones (B : Z) : nat :=
  if B <? 128 then 0 else if B <? 192 then 1 else if B <? 224 then 2
  else if B <? 240 then 3 else if B <? 248 then 4 else 5.

Definition is_continuation (b : Z) : bool := between 128 191 b.

(** The code point of a valid UTF-8 sequence of two to four octets whose
    first octet has that many leading 1 bits: continuation octets are
    10xxxxxx, and overlong forms, surrogates and values above U+10FFFF are
    invalid. *)
Definition utf8_code_point (octets : list Z) : option Z :=
  match octets with
  | [b1; b2] =>
      let v := (b1 - 192) * 64 + (b2 - 128) in
      if is_continuation b2 && (128 <=? v) then Some v else None
  | [b1; b2; b3] =>
      let v := ((b1 - 224) * 64 + (b2 - 128)) * 64 + (b3 - 128) in
      if is_continuation b2 && is_continuation b3 && (2048 <=? v)
         && negb (between 55296 57343 v)
      then Some v else None
  | [b1; b2; b3; b4] =>
      let v := (((b1 - 240) * 64 + (b2 - 128)) * 64 + (b3 - 128)) * 64 + (b4 - 128) in
      if is_continuation b2 && is_continuation b3 && is_continuation b4
         && (65536 <=? v) && (v <=? 1114111)
      then Some v else None
  | _ => None
  end.

(** A continuation escape [%XX]. *)
Definition continuation_octet (p h1 h2 : code_unit) : option Z :=
  if p =? percent then ParseHexOctet h1 h2 else None.

Definition emit (octets : list (option Z)) (rest : completion jsstring)
  : completion jsstring :=
  match fold_right (fun o acc =>
                      match o, acc with
                      | Some b, Some bs => Some (b :: bs)
                      | _, _ => None
                      end) (Some []) octets with
  | None => Throw URIError
  | Some bs =>
      match utf8_code_point bs with
      | None => Throw URIError
      | Some V => R <- rest ;; Normal (UTF16EncodeCodePoint V ++ R)
      end
  end.

(** Decode(string, preserveEscapeSet) with an empty preserve set. *)
Fixpoint Decode (s : jsstring) : completion jsstring :=
  match s with
  | [] => Normal []
  | c :: r0 =>
      if negb (c =? percent) then R <- Decode r0 ;; Normal (c :: R)
      else
        match r0 with
        | h1 :: h2 :: r1 =>
            match ParseHexOctet h1 h2 with
            | None => Throw URIError
            | Some B =>
                match leading_ones B with
                | 0%nat => R <- Decode r1 ;; Normal (B :: R)
                | 2%nat =>
                    match r1 with
                    | p2 :: a2 :: b2 :: r2 =>
                        emit [Some B; continuation_octet p2 a2 b2] (Decode r2)
                    | _ => Throw URIError
                    end
                | 3%nat =>
                    match r1 with
                    | p2 :: a2 :: b2 :: p3 :: a3 :: b3 :: r3 =>
                        emit [Some B; continuation_octet p2 a2 b2;
                              continuation_octet p3 a3 b3] (Decode r3)
                    | _ => Throw URIError
                    end
                | 4%nat =>
                    match r1 with
                    | p2 :: a2 :: b2 :: p3 :: a3 :: b3 :: p4 :: a4 :: b4 :: r4 =>
                        emit [Some B; continuation_octet p2 a2 b2;
                              continuation_octet p3 a3 b3;
                              continuation_octet p4 a4 b4] (Decode r4)
                    | _ => Throw URIError
                    end
                | _ => Throw URIError
                end
            end
        | _ => Throw URIError
        end
  end.

Definition decodeURIComponent (s : jsstring) : completion jsstring := Decode s.

End URI.
Import URI.

(** ** JSON.parse

    A JSON number is kept as its lexeme: the pipeline only stores it.  The
    members of an object are kept in source order, duplicates included; a
    property read takes the last binding of the key, since JSON.parse
    overwrites an earlier member of the same name. *)

Module Json.

#[warnings="-register-all"]
Inductive json : Type :=
| JNull
| JBool (b : bool)
| JNumber (lexeme : jsstring)
| JString (s : jsstring)
| JArray (items : list json)
| JObject (members : list (jsstring * json)).

Fixpoint lookup (k : jsstring) (ms : list (jsstring * json)) : option json :=
  match ms with
  | [] => None
  | (k', v) :: r =>
      match lookup k r with
      | Some v' => Some v'
      | None => if eqb k k' then Some v else None
      end
  end.

Inductive presult (A : Type) : Type :=
| POk (a : A) (rest : jsstring)
| PError
| PFuel.
Arguments POk {A} a rest.
Arguments PError {A}.
Arguments PFuel {A}.

Definition is_json_ws (c : code_unit) : bool :=
  (c =? 9) || (c =? 10) || (c =? 13) || (c =? 32).

Fixpoint skip_ws (s : jsstring) : jsstring :=
  match s with
  | c :: r => if is_json_ws c then skip_ws r else s
  | [] => []
  end.

Definition is_digit (c : code_unit) : bool := between 48 57 c.

Fixpoint span_digits (s : jsstring) : jsstring * jsstring :=
  match s with
  | c :: r =>
      if is_digit c then let (ds, rest) := span_digits r in (c :: ds, rest)
      else ([], s)
  | [] => ([], [])
  end.

(** JSONNumber: an optional minus sign; an integer part that is 0 or a
    non-zero digit followed by digits; an optional fraction (a dot and at
    least one digit); an optional exponent (e or E, an optional sign and at
    least one digit). *)
Definition lex_int (s : jsstring) : option (jsstring * jsstring) :=
  match s with
  | d :: r =>
      if d =? 48 then Some ([d], r)
      else if between 49 57 d then
        let (ds, rest) := span_digits r in Some (d :: ds, rest)
      else None
  | [] => None
  end.

Definition lex_frac (s : jsstring) : option (jsstring * jsstring) :=
  match s with
  | c :: r =>
      if c =? 46 then
        match span_digits r with
        | ([], _) => None
        | (ds, rest) => Some (c :: ds, rest)
        end
      else Some ([], s)
  | [] => Some ([], [])
  end.

Definition lex_exp (s : jsstring) : option (jsstring * jsstring) :=
  match s with
  | c :: r =>
      if (c =? 101) || (c =? 69) then
        let (sign, r1) :=
          match r with
          | g :: r' => if (g =? 43) || (g =? 45) then ([g], r') else ([], r)
          | [] => ([], [])
          end in
        match span_digits r1 with
        | ([], _) => None
        | (ds, rest) => Some (c :: sign ++ ds, rest)
        end
      else Some ([], s)
  | [] => Some ([], [])
  end.

Definition lex_number (s : jsstring) : presult json :=
  let (sign, s1) :=
    match s with
    | c :: r => if c =? 45 then ([c], r) else ([], s)
    | [] => ([], [])
    end in
  match lex_int s1 with
  | None => PError
  | Some (int, s2) =>
      match lex_frac s2 with
      | None => PError
      | Some (frac, s3) =>
          match lex_exp s3 with
          | None => PError
          | Some (exp, s4) => POk (JNumber (sign ++ int ++ frac ++ exp)) s4
          end
      end
  end.

Definition hex4 (h1 h2 h3 h4 : code_unit) : option Z :=
  match hex_value h1, hex_value h2, hex_value h3, hex_value h4 with
  | Some a, Some b, Some c, Some d => Some (((a * 16 + b) * 16 + c) * 16 + d)
  | _, _, _, _ => None
  end.

(** The character of a one-letter escape: quote, backslash, slash, b f n r t. *)
Definition simple_escape (e : code_unit) : option code_unit :=
  if e =? 34 then Some 34 else if e =? 92 then Some 92
  else if e =? 47 then Some 47 else if e =? 98 then Some 8
  else if e =? 102 then Some 12 else if e =? 110 then Some 10
  else if e =? 114 then Some 13 else if e =? 116 then Some 9
  else None.

(** The characters of a string after its opening quote, up to and
    including the closing quote. *)
Fixpoint lex_string (s : jsstring) : presult jsstring :=
  match s with
  | [] => PError
  | c :: r =>
      if c =? 34 then POk [] r
      else if c =? 92 then
        match r with
        | e :: r1 =>
            if e =? 117 then
              match r1 with
              | h1 :: h2 :: h3 :: h4 :: r2 =>
                  match hex4 h1 h2 h3 h4, lex_string r2 with
                  | Some v, POk body rest => POk (v :: body) rest
                  | _, _ => PError
                  end
              | _ => PError
              end
            else
              match simple_escape e, lex_string r1 with
              | Some v, POk body rest => POk (v :: body) rest
              | _, _ => PError
              end
        | [] => PError
        end
      else if c <? 32 then PError
      else
        match lex_string r with
        | POk body rest => POk (c :: body) rest
        | _ => PError
        end
  end.

Definition lex_literal (word : jsstring) (v : json) (s : jsstring) : presult json :=
  if startsWith word s then POk v (skipn (length word) s) else PError.

Fixpoint parse_value (fuel : nat) (s : jsstring) {struct fuel} : presult json :=
  match fuel with
  | O => PFuel
  | S f =>
      match s with
      | [] => PError
      | c :: r =>
          if c =? 123 then
            match skip_ws r with
            | d :: r' =>
                if d =? 125 then POk (JObject []) r'
                else
                  match parse_members f (skip_ws r) with
                  | POk ms rest => POk (JObject ms) rest
                  | PError => PError
                  | PFuel => PFuel
                  end
            | [] => PError
            end
          else if c =? 91 then
            match skip_ws r with
            | d :: r' =>
                if d =? 93 then POk (JArray []) r'
                else
                  match parse_elements f (skip_ws r) with
                  | POk vs rest => POk (JArray vs) rest
                  | PError => PError
                  | PFuel => PFuel
                  end
            | [] => PError
            end
          else if c =? 34 then
            match lex_string r with
            | POk str rest => POk (JString str) rest
            | _ => PError
            end
          else if c =? 116 then lex_literal (lit "true") (JBool true) s
          else if c =? 102 then lex_literal (lit "false") (JBool false) s
          else if c =? 110 then lex_literal (lit "null") JNull s
          else lex_number s
      end
  end

with parse_elements (fuel : nat) (s : jsstring) {struct fuel}
  : presult (list json) :=
  match fuel with
  | O => PFuel
  | S f =>
      match parse_value f s with
      | POk v rest =>
          match skip_ws rest with
          | d :: r' =>
              if d =? 44 then
                match parse_elements f (skip_ws r') with
                | POk vs rest' => POk (v :: vs) rest'
                | PError => PError
                | PFuel => PFuel
                end
              else if d =? 93 then POk [v] r'
              else PError
          | [] => PError
          end
      | PError => PError
      | PFuel => PFuel
      end
  end

with parse_members (fuel : nat) (s : jsstring) {struct fuel}
  : presult (list (jsstring * json)) :=
  match fuel with
  | O => PFuel
  | S f =>
      match s with
      | q :: r =>
          if q =? 34 then
            match lex_string r with
            | POk k rest =>
                match skip_ws rest with
                | col :: r1 =>
                    if col =? 58 then
                      match parse_value f (skip_ws r1) with
                      | POk v rest2 =>
                          match skip_ws rest2 with
                          | d :: r3 =>
                              if d =? 44 then
                                match parse_members f (skip_ws r3) with
                                | POk ms rest' => POk ((k, v) :: ms) rest'
                                | PError => PError
                                | PFuel => PFuel
                                end
                              else if d =? 125 then POk [(k, v)] r3
                              else PError
                          | [] => PError
                          end
                      | PError => PError
                      | PFuel => PFuel
                      end
                    else PError
                | [] => PError
                end
            | _ => PError
            end
          else PError
      | [] => PError
      end
  end.

(** [JSON.parse(text)]: one value between optional white space.  The fuel
    is never exhausted (lemma [JSON_parse_fuel] below). *)
Definition JSON_parse (text : jsstring) : completion json :=
  match parse_value (S (2 * length text)) (skip_ws text) with
  | POk v rest =>
      match skip_ws rest with
      | [] => Normal v
      | _ :: _ => Throw SyntaxError
      end
  | PError => Throw SyntaxError
  | PFuel => Throw SyntaxError
  end.

End Json.
Import Json.

(** ** The URI decoder of nftService.ts and the ensure-encoded transform *)

Definition base64_marker : jsstring := lit ";base64,".

(** [parts[1]], and the conversion of [undefined] to a string when it is
    passed to [atob]. *)
Definition index1 (parts : list jsstring) : option jsstring := nth_error parts 1.

Definition string_of_arg (v : option jsstring) : jsstring :=
  match v with
  | Some s => s
  | None => lit "undefined"
  end.

Module NftService.

Definition decodeDataURI (dataURI : jsstring) : completion jsstring :=
  if includes base64_marker dataURI then
    let base64Data := index1 (split comma dataURI) in
    atob (string_of_arg base64Data)
  else
    let parts := split comma dataURI in
    if (length parts <? 2)%nat then Normal dataURI
    else
      let data := join comma (slice1 parts) in
      if test_percent_escape data then
        try_catch (decodeURIComponent data) (fun e => Normal data)
      else Normal data.

(** *** The chain

    A contract read is an external call: its outcome is given by the
    [Chain], per token and per call number (the first read of a token is
    call 1).  ethers accepts a number or a string as a token id.  When both
    reads of a [Promise.all] reject, the one that rejects first gives the
    error; which one that is, is again the chain's. *)

Inductive BigNumberish : Type :=
| BNumber (n : Z)
| BString (s : jsstring).

Record Chain : Type := {
  totalSupply : completion Z;
  tokenURI : BigNumberish -> Z -> completion jsstring;
  ownerOf : BigNumberish -> Z -> completion jsstring;
  ownerOf_rejects_first : BigNumberish -> Z -> bool
}.

Record NFT : Type := {
  tokenId : jsstring;
  contractAddress : jsstring;
  owner : jsstring;
  metadata : json
}.

(** What a run does besides returning: contract reads, [setTimeout] waits,
    calls of the progress callback, and the start of a batch member. *)
Inductive event : Type :=
| CallTokenURI (id : BigNumberish) (call : Z)
| CallOwnerOf (id : BigNumberish) (call : Z)
| Sleep (ms : Z)
| Fetch (index : Z)
| Progress (current total : Z).

Definition Promise_all2 {A B} (second_rejects_first : bool)
  (a : completion A) (b : completion B) : completion (A * B) :=
  match a, b with
  | Normal x, Normal y => Normal (x, y)
  | Throw e, Normal _ => Throw e
  | Normal _, Throw e => Throw e
  | Throw e1, Throw e2 => Throw (if second_rejects_first then e2 else e1)
  end.

(** [Promise.all([contract.tokenURI(id, ...), contract.ownerOf(id)])] *)
Definition read_token (ch : Chain) (id : BigNumberish) (call : Z)
  : completion (jsstring * jsstring) * list event :=
  (Promise_all2 (ownerOf_rejects_first ch id call)
     (tokenURI ch id call) (ownerOf ch id call),
   [CallTokenURI id call; CallOwnerOf id call]).

(** [metadata.image]: reading a property of [null] throws; an object gives
    its member; a string, number, boolean or array has no such property. *)
Definition get_image (metadata : json) : completion (option json) :=
  match metadata with
  | JNull => Throw TypeError
  | JObject ms => Normal (lookup (lit "image") ms)
  | _ => Normal None
  end.

(** [image?.substring(0, 200)]: skipped on [undefined] and [null]; a string
    has the method; on any other value [substring] is not a function. *)
Definition substring_opt (image : option json) : completion unit :=
  match image with
  | None => Normal tt
  | Some JNull => Normal tt
  | Some (JString _) => Normal tt
  | Some _ => Throw TypeError
  end.

Definition fetchNFTData (ch : Chain) (contractAddress : jsstring)
  (tokenId : Z) (call : Z) : completion (option NFT) * list event :=
  let (reads, log) := read_token ch (BNumber tokenId) call in
  (try_catch
     (let tokenIdString := toString tokenId in
      ' (tokenURI, owner) <- reads ;;
      decodedJson <- decodeDataURI tokenURI ;;
      metadata <- JSON_parse decodedJson ;;
      _ <- get_image metadata ;;
      image <- get_image metadata ;;
      _ <- substring_opt image ;;
      Normal (Some {| tokenId := tokenIdString;
                      contractAddress := contractAddress;
                      owner := owner;
                      metadata := metadata |}))
     (fun error => Normal None),
   log).

(** The body of the retry loop, over the attempts still to run. *)
Fixpoint retry_attempts (ch : Chain) (contractAddress : jsstring)
  (tokenId : Z) (maxRetries : Z) (attempts : list Z)
  : completion (option NFT) * list event :=
  match attempts with
  | [] => (Normal None, [])
  | attempt :: later =>
      let (fetched, log) := fetchNFTData ch contractAddress tokenId attempt in
      match (result <- fetched ;;
             match result with
             | Some nft => Normal nft
             | None => Throw (ErrorMsg "fetchNFTData returned null")
             end) with
      | Normal nft => (Normal (Some nft), log)
      | Throw error =>
          let wait :=
            if attempt <? maxRetries then [Sleep (1000 * attempt)] else [] in
          let (final, log') :=
            retry_attempts ch contractAddress tokenId maxRetries later in
          (final, log ++ wait ++ log')
      end
  end.

Definition fetchNFTDataWithRetry (ch : Chain) (contractAddress : jsstring)
  (tokenId : Z) (maxRetries : Z) : completion (option NFT) * list event :=
  retry_attempts ch contractAddress tokenId maxRetries
    (for_range 1 (maxRetries + 1) 1).

Definition maxNFTs : Z := 30.
Definition batchSize : Z := 5.

Record scan : Type := {
  nfts : list NFT;
  processedCount : Z;
  trace : list event
}.

(** [batchResults.forEach((result) => { ... })] *)
Fixpoint forEach_result (onProgress : bool) (totalTokens : Z)
  (batchResults : list (completion (option NFT))) (st : scan) : scan :=
  match batchResults with
  | [] => st
  | result :: rest =>
      let processedCount := processedCount st + 1 in
      let nfts :=
        match result with
        | Normal (Some value) => nfts st ++ [value]
        | _ => nfts st
        end in
      let trace :=
        if onProgress then trace st ++ [Progress processedCount totalTokens]
        else trace st in
      forEach_result onProgress totalTokens rest
        {| nfts := nfts; processedCount := processedCount; trace := trace |}
  end.

(** One iteration of the batch loop.  The members of a batch run
    concurrently, so their reads and waits interleave; the trace keeps the
    start of each member, in the order of the inner loop, and whatever
    follows [await Promise.allSettled(batch)] comes after all of them. *)
Definition run_batch (ch : Chain) (contractAddress : jsstring)
  (onProgress : bool) (totalTokens : Z) (st : scan) (i : Z) : scan :=
  let end_ := Z.min (i + batchSize) totalTokens in
  let indices := for_range i end_ 1 in
  let batch :=
    map (fun j => fetchNFTDataWithRetry ch contractAddress j 3) indices in
  let batchResults := map fst batch in
  forEach_result onProgress totalTokens batchResults
    {| nfts := nfts st;
       processedCount := processedCount st;
       trace := trace st ++ map Fetch indices |}.

(** [onProgress] tells whether the optional callback was passed; its calls
    are recorded in the trace.  The supply is a uint256; [Number] rounds a
    large one, which leaves [Math.min(Number(totalSupply), 30)] the same. *)
Definition getNFTsFromContract (ch : Chain) (contractAddress : jsstring)
  (onProgress : bool) : completion (list NFT) * list event :=
  match totalSupply ch with
  | Throw error => (Throw error, [])
  | Normal supply =>
      let totalTokens := Z.min supply maxNFTs in
      if totalTokens =? 0 then (Normal [], [])
      else
        let st :=
          fold_left (run_batch ch contractAddress onProgress totalTokens)
            (for_range 0 totalTokens batchSize)
            {| nfts := []; processedCount := 0; trace := [] |} in
        (Normal (nfts st), trace st)
  end.

Definition getNFTById (ch : Chain) (contractAddress : jsstring)
  (tokenId : jsstring) : completion NFT * list event :=
  let (reads, log) := read_token ch (BString tokenId) 1 in
  (try_catch
     (' (tokenURI, owner) <- reads ;;
      decodedJson <- decodeDataURI tokenURI ;;
      metadata <- JSON_parse decodedJson ;;
      Normal {| tokenId := tokenId;
                contractAddress := contractAddress;
                owner := owner;
                metadata := metadata |})
     (fun error => Throw error),
   log).

End NftService.

Module NFTGrid.

Definition ensureEncodedDataURI (dataURI : jsstring) : completion jsstring :=
  if includes base64_marker dataURI then Normal dataURI
  else
    let parts := split comma dataURI in
    if (length parts <? 2)%nat then Normal dataURI
    else
      let mimeType := hd [] parts in
      let svgContent := join comma (slice1 parts) in
      if test_percent_escape svgContent then Normal dataURI
      else
        encodedContent <- encodeURIComponent svgContent ;;
        Normal (mimeType ++ comma :: encodedContent).

End NFTGrid.

Import NftService NFTGrid.

(** ** Specification-side notions *)

(** The text past the first comma of a string, if it has a comma. *)
Fixpoint past_first_comma (s : jsstring) : option jsstring :=
  match s with
  | [] => None
  | c :: r => if c =? comma then Some r else past_first_comma r
  end.

(** A string that does not start with the [data:] scheme. *)
Definition not_data_uri (s : jsstring) : Prop :=
  startsWith (lit "data:") s = false.

(** What the decoder does with a string that is not base64-flagged: a
    string without a comma is returned as it is; otherwise the text past the
    first comma is returned, percent-decoded when it holds a [%XX] escape
    and the decoding succeeds. *)
Definition decode_plain (dataURI : jsstring) : completion jsstring :=
  match past_first_comma dataURI with
  | None => Normal dataURI
  | Some data =>
      if test_percent_escape data then
        match decodeURIComponent data with
        | Normal text => Normal text
        | Throw _ => Normal data
        end
      else Normal data
  end.

(** A Unicode scalar value: a code point that is not a surrogate. *)
Definition is_scalar (cp : Z) : Prop :=
  0 <= cp <= 1114111 /\ ~ (55296 <= cp <= 57343).

(** [s.isWellFormed()]: no unpaired surrogate. *)
Fixpoint isWellFormed (s : jsstring) : bool :=
  match s with
  | [] => true
  | c :: r =>
      if is_leading_surrogate c then
        match r with
        | d :: r' => is_trailing_surrogate d && isWellFormed r'
        | [] => false
        end
      else if is_trailing_surrogate c then false
      else isWellFormed r
  end.

(** Sample inputs. *)
Definition json_data_uri : jsstring := qlit "data:application/json,{'name':'Test'}".
Definition bad_base64_uri : jsstring := lit "data:application/json;base64,!!!".

Definition svg_with_image : jsstring :=
  lit "<svg><image href='data:image/png;base64,AAAA'/></svg>".
Definition svg_with_image_uri : jsstring :=
  lit "data:image/svg+xml," ++ svg_with_image.
Definition svg_text : jsstring :=
  lit "<svg width='50%' viewBox='0 0 10 10'><text>a, b</text></svg>"
  ++ [233; 8364; 55357; 56832].
Definition svg_uri : jsstring := lit "data:image/svg+xml," ++ svg_text.

(** Projections of a trace. *)
Definition fetched_indices (tr : list event) : list Z :=
  flat_map (fun e => match e with Fetch j => [j] | _ => [] end) tr.

Definition progress_calls (tr : list event) : list (Z * Z) :=
  flat_map (fun e => match e with Progress c t => [(c, t)] | _ => [] end) tr.

Definition sleeps (tr : list event) : list Z :=
  flat_map (fun e => match e with Sleep ms => [ms] | _ => [] end) tr.

(** What [result.status === "fulfilled" && result.value] lets through. *)
Definition settled_value (result : completion (option NFT)) : list NFT :=
  match result with
  | Normal (Some value) => [value]
  | _ => []
  end.

(** The record, if any, that the batch path gets for an index. *)
Definition fetched (ch : Chain) (contractAddress : jsstring) (j : Z) : list NFT :=
  settled_value (fst (fetchNFTDataWithRetry ch contractAddress j 3)).

(** The indices of one batch. *)
Definition batch_indices (totalTokens i : Z) : list Z :=
  for_range i (Z.min (i + batchSize) totalTokens) 1.

(** The progress calls made after a batch of [n] members, when [count]
    tokens were processed before it. *)
Definition batch_progress (onProgress : bool) (totalTokens count : Z) (n : nat)
  : list event :=
  if onProgress then
    map (fun k => Progress (count + Z.of_nat k) totalTokens) (seq 1 n)
  else [].

(** A sample chain: token 2 cannot be read, the metadata of token 3 has a
    name and no image, every other token has a name and an image; the
    string id 0 cannot be read. *)
Definition sample_chain (supply : Z) : Chain :=
  {| totalSupply := Normal supply;
     tokenURI := fun id call =>
       match id with
       | BNumber n =>
           if n =? 2 then Throw (CallError 3)
           else if n =? 3 then
             Normal (lit "data:application/json;base64,eyJuYW1lIjoiVGVzdCJ9")
           else
             Normal (qlit "data:application/json,{'name':'Token','image':'https://example.org/t.png'}")
       | BString s => Throw (CallError 3)
       end;
     ownerOf := fun id call => Normal (lit "0x90DF88f5c189cb3561E8da30182804Bc36F24361");
     ownerOf_rejects_first := fun id call => false |}.

Definition sample_address : jsstring :=
  lit "0x011b5b823663C76dc70411C2be32124372464575".

(** The records that the collection fetcher returns on the sample chain. *)
Definition sample_records (supply : Z) : list NFT :=
  match fst (getNFTsFromContract (sample_chain supply) sample_address true) with
  | Normal records => records
  | Throw _ => []
  end.

(** The log of a budget of attempts that all fail: the two reads of each
    attempt and, after every attempt but the last of the budget, a wait of
    1000 ms times the number of the attempt. *)
Definition exhausted_log (j maxRetries : Z) (attempts : list Z) : list event :=
  flat_map
    (fun k =>
       [CallTokenURI (BNumber j) k; CallOwnerOf (BNumber j) k] ++
       (if k <? maxRetries then [Sleep (1000 * k)] else []))
    attempts.

(** A step of the single definite lookup fails with error [e]: one of the
    two reads (or both, the first rejection giving the error), the URI
    decoding, or the JSON parsing. *)
Inductive step_fails (ch : Chain) (id : jsstring) : error -> Prop :=
| tokenURI_fails e own :
    tokenURI ch (BString id) 1 = Throw e ->
    ownerOf ch (BString id) 1 = Normal own ->
    step_fails ch id e
| ownerOf_fails uri e :
    tokenURI ch (BString id) 1 = Normal uri ->
    ownerOf ch (BString id) 1 = Throw e ->
    step_fails ch id e
| both_reads_fail e1 e2 :
    tokenURI ch (BString id) 1 = Throw e1 ->
    ownerOf ch (BString id) 1 = Throw e2 ->
    step_fails ch id (if ownerOf_rejects_first ch (BString id) 1 then e2 else e1)
| decoding_fails uri own e :
    tokenURI ch (BString id) 1 = Normal uri ->
    ownerOf ch (BString id) 1 = Normal own ->
    decodeDataURI uri = Throw e ->
    step_fails ch id e
| parsing_fails uri own text e :
    tokenURI ch (BString id) 1 = Normal uri ->
    ownerOf ch (BString id) 1 = Normal own ->
    decodeDataURI uri = Normal text ->
    JSON_parse text = Throw e ->
    step_fails ch id e.

(** ** Further code of the repository *)

(** *** extractSVGContent (components/nft/ContractsList.tsx and
    components/nft/NFTDetail.tsx, the same text in both) *)

Module ContractsList.

Definition svg_prefix : jsstring := lit "data:image/svg+xml".

Definition extractSVGContent (dataURI : jsstring) : completion (option jsstring) :=
  if negb (startsWith svg_prefix dataURI) then Normal None
  else
    try_catch
      (if includes base64_marker dataURI then
         let base64Data := index1 (split comma dataURI) in
         text <- atob (string_of_arg base64Data) ;; Normal (Some text)
       else
         let parts := split comma dataURI in
         if (length parts <? 2)%nat then Normal None
         else
           let encodedData := join comma (slice1 parts) in
           if test_percent_escape encodedData then
             text <- decodeURIComponent encodedData ;; Normal (Some text)
           else Normal (Some encodedData))
      (fun e => Normal None).

End ContractsList.
Import ContractsList.

(** The text before the first comma of a string (all of it without one). *)
Fixpoint before_first_comma (s : jsstring) : jsstring :=
  match s with
  | [] => []
  | c :: r => if c =? comma then [] else c :: before_first_comma r
  end.

(** The code units that [encodeURIComponent] can put out: the unescaped
    set and the percent sign. *)
Definition is_encoded_unit (c : code_unit) : bool :=
  is_unescaped c || (c =? percent).

(** *** getContractInfo (services/nftService.ts) *)

(** [Number(n)] for a BigInt [n]: the double nearest to [n], ties to the
    even significand, given as the integer that the double denotes; exact up
    to 53 bits (the magnitudes here are below 2^1024). *)
Definition Number_of_bigint (n : Z) : Z :=
  let a := Z.abs n in
  let bits := Z.log2 a + 1 in
  if bits <=? 53 then n
  else
    let k := bits - 53 in
    let q := a / 2 ^ k in
    let r := a mod 2 ^ k in
    let half := 2 ^ (k - 1) in
    let q' := if (half <? r) || ((r =? half) && Z.odd q) then q + 1 else q in
    Z.sgn n * (q' * 2 ^ k).

Module Info.

(** The three reads of [getContractInfo]; [settles_before i j] tells
    whether promise [i] of the array settles before promise [j]. *)
Record Reads : Type := {
  name_read : completion jsstring;
  symbol_read : completion jsstring;
  totalSupply_read : completion Z;
  settles_before : nat -> nat -> bool
}.

Record ContractInfo : Type := {
  name : jsstring;
  symbol : jsstring;
  totalSupply : Z
}.

(** [Promise.all] of three promises: the values if all are fulfilled,
    else the error of the promise that rejects first. *)
Definition Promise_all3 {A B C} (before : nat -> nat -> bool)
  (a : completion A) (b : completion B) (c : completion C)
  : completion (A * B * C) :=
  match a, b, c with
  | Normal x, Normal y, Normal z => Normal (x, y, z)
  | Throw e, Normal _, Normal _ => Throw e
  | Normal _, Throw e, Normal _ => Throw e
  | Normal _, Normal _, Throw e => Throw e
  | Throw e1, Throw e2, Normal _ => Throw (if before 0%nat 1%nat then e1 else e2)
  | Throw e1, Normal _, Throw e3 => Throw (if before 0%nat 2%nat then e1 else e3)
  | Normal _, Throw e2, Throw e3 => Throw (if before 1%nat 2%nat then e2 else e3)
  | Throw e1, Throw e2, Throw e3 =>
      Throw (if before 0%nat 1%nat && before 0%nat 2%nat then e1
             else if before 1%nat 2%nat then e2 else e3)
  end.

Definition getContractInfo (reads : Reads) : completion ContractInfo :=
  try_catch
    (' (name, symbol, totalSupply) <-
       Promise_all3 (settles_before reads) (name_read reads)
         (symbol_read reads) (totalSupply_read reads) ;;
     Normal {| name := name;
               symbol := symbol;
               totalSupply := Number_of_bigint totalSupply |})
    (fun error => Throw error).

End Info.

(** The image field of a record that the batch path can return: absent,
    null or a string. *)
Definition image_absent_or_string (md : json) : Prop :=
  get_image md = Normal None \/
  get_image md = Normal (Some JNull) \/
  exists s, get_image md = Normal (Some (JString s)).

(** The key of a card of the grid: [`${nft.contractAddress}-${nft.tokenId}`]. *)
Definition card_key (nft : NFT) : jsstring :=
  contractAddress nft ++ lit "-" ++ tokenId nft.

(** A chain whose token 1 can be read from the third attempt on. *)
Definition flaky_chain : Chain :=
  {| NftService.totalSupply := Normal 3;
     tokenURI := fun id call =>
       match id with
       | BNumber n =>
           if (n =? 1) && (call <? 3) then Throw (CallError 7)
           else Normal (qlit "data:application/json,{'name':'T','image':'ipfs://t'}")
       | BString s => Normal (lit "data:application/json,null")
       end;
     ownerOf := fun id call => Normal (lit "0x90DF88f5c189cb3561E8da30182804Bc36F24361");
     ownerOf_rejects_first := fun id call => false |}.

(** A chain whose every token has the metadata [null]. *)
Definition null_chain : Chain :=
  {| NftService.totalSupply := Normal 2;
     tokenURI := fun id call => Normal (lit "data:application/json,null");
     ownerOf := fun id call => Normal (lit "0x90DF88f5c189cb3561E8da30182804Bc36F24361");
     ownerOf_rejects_first := fun id call => false |}.

(** *** The filters of the grid (components/nft/NFTGrid.tsx)

    The grid reads [nft.metadata.attributes] as types/NFTTypes.ts declares
    it: an optional array of [{trait_type, value}] with a string or a number
    as value.  Numbers are an arbitrary type with the equality test that
    [Set] uses on them.  A [Set] is the list of its elements in insertion
    order; a [Map] and the own properties of an object are lists of
    key-value pairs.  The code below only counts the entries of
    [activeFilters], sums over them and tests all of them, so the order of
    its keys is of no account. *)

Module NFTGridFilters.

Section Filters.

Context {number : Type} (number_eqb : number -> number -> bool).

Inductive AttributeValue : Type :=
| VString (s : jsstring)
| VNumber (n : number).

(** The element comparison of [Set]. *)
Definition sameValueZero (a b : AttributeValue) : bool :=
  match a, b with
  | VString s, VString t => eqb s t
  | VNumber n, VNumber m => number_eqb n m
  | _, _ => false
  end.

Record NFTAttribute : Type := {
  trait_type : jsstring;
  value : AttributeValue
}.

(** A record of the grid with its typed view of [metadata.attributes]. *)
Record GridNFT : Type := {
  record : NFT;
  attributes : option (list NFTAttribute)
}.

Definition JSSet : Type := list AttributeValue.

Definition set_has (s : JSSet) (v : AttributeValue) : bool :=
  existsb (sameValueZero v) s.

Definition set_add (s : JSSet) (v : AttributeValue) : JSSet :=
  if set_has s v then s else s ++ [v].

Definition set_delete (s : JSSet) (v : AttributeValue) : JSSet :=
  filter (fun x => negb (sameValueZero v x)) s.

Definition entries : Type := list (jsstring * JSSet).

Fixpoint entry_get (m : entries) (k : jsstring) : option JSSet :=
  match m with
  | [] => None
  | (k', s) :: r => if eqb k k' then Some s else entry_get r k
  end.

(** Set the value of a key: in place if the key exists, else at the end. *)
Fixpoint entry_set (m : entries) (k : jsstring) (s : JSSet) : entries :=
  match m with
  | [] => [(k, s)]
  | (k', s') :: r =>
      if eqb k k' then (k', s) :: r else (k', s') :: entry_set r k s
  end.

Definition entry_delete (m : entries) (k : jsstring) : entries :=
  filter (fun e => negb (eqb k (fst e))) m.

(** [optionsMap]: one step of the inner [forEach] of [filterOptions]. *)
Definition add_option (optionsMap : completion entries) (attr : NFTAttribute)
  : completion entries :=
  optionsMap <- optionsMap ;;
  let optionsMap :=
    match entry_get optionsMap (trait_type attr) with
    | None => entry_set optionsMap (trait_type attr) []
    | Some _ => optionsMap
    end in
  match entry_get optionsMap (trait_type attr) with
  | Some values =>
      Normal (entry_set optionsMap (trait_type attr) (set_add values (value attr)))
  | None => Throw TypeError
  end.

Definition filterOptions (nfts : list GridNFT) : completion entries :=
  fold_left
    (fun optionsMap nft =>
       match attributes nft with
       | Some attrs => fold_left add_option attrs optionsMap
       | None => optionsMap
       end)
    nfts (Normal []).

(** The property names of [Object.prototype], which every plain object
    inherits. *)
Definition object_prototype_keys : list jsstring :=
  map lit
    ["constructor"; "__proto__"; "hasOwnProperty"; "isPrototypeOf";
     "propertyIsEnumerable"; "toLocaleString"; "toString"; "valueOf";
     "__defineGetter__"; "__defineSetter__"; "__lookupGetter__";
     "__lookupSetter__"]%string.

Definition is_object_prototype_key (k : jsstring) : bool :=
  existsb (eqb k) object_prototype_keys.

(** [activeFilters[k]]: an own [Set], a function or object inherited from
    [Object.prototype], or [undefined]. *)
Inductive property : Type :=
| Own (s : JSSet)
| Inherited
| Undefined.

Definition get_property (o : entries) (k : jsstring) : property :=
  match entry_get o k with
  | Some s => Own s
  | None => if is_object_prototype_key k then Inherited else Undefined
  end.

Definition matches (activeFilters : entries) (nft : GridNFT) : bool :=
  match attributes nft with
  | None => false
  | Some attrs =>
      forallb
        (fun entry =>
           let (trait_type', values) := entry : jsstring * JSSet in
           (Nat.eqb (length values) 0) ||
           match find (fun attr => eqb (trait_type attr) trait_type') attrs with
           | Some nftAttribute => set_has values (value nftAttribute)
           | None => false
           end)
        activeFilters
  end.

Definition filteredNFTs (nfts : list GridNFT) (activeFilters : entries)
  : list GridNFT :=
  if Nat.eqb (length activeFilters) 0 then nfts
  else filter (matches activeFilters) nfts.

(** The updater that [toggleFilter] passes to [setActiveFilters], applied
    to the previous state.  The [Set] of a key is shared with the previous
    state and updated in place; the result is the object that the updater
    returns. *)
Definition toggleFilter (trait_type : jsstring) (value : AttributeValue)
  (prev : entries) : completion entries :=
  let newFilters := prev in
  let newFilters :=
    match get_property newFilters trait_type with
    | Undefined => entry_set newFilters trait_type []
    | _ => newFilters
    end in
  match get_property newFilters trait_type with
  | Own values =>
      if set_has values value then
        let values := set_delete values value in
        let newFilters := entry_set newFilters trait_type values in
        if Nat.eqb (length values) 0 then
          Normal (entry_delete newFilters trait_type)
        else Normal newFilters
      else
        Normal (entry_set newFilters trait_type (set_add values value))
  | Inherited => Throw TypeError
  | Undefined => Throw TypeError
  end.

Definition clearFilters : entries := [].

Definition activeFilterCount (activeFilters : entries) : nat :=
  fold_left (fun count entry => (count + length (snd entry))%nat)
    activeFilters 0%nat.

(** [activeFilters[option.trait_type]?.has(value) ?? false] *)
Definition isChecked (activeFilters : entries) (trait_type : jsstring)
  (value : AttributeValue) : completion bool :=
  match get_property activeFilters trait_type with
  | Own values => Normal (set_has values value)
  | Undefined => Normal false
  | Inherited => Throw TypeError
  end.

(** The states of [activeFilters] that the component can reach from the
    empty object: no key twice, no key inherited from [Object.prototype],
    and for every key a set that is not empty and holds no value twice. *)
Definition reachable_filters (activeFilters : entries) : Prop :=
  NoDup (map fst activeFilters) /\
  Forall (fun entry =>
            is_object_prototype_key (fst entry) = false /\
            snd entry <> [] /\ NoDup (snd entry))
    activeFilters.

(** Whether a value of a trait is selected. *)
Definition selected (activeFilters : entries) (trait_type : jsstring)
  (value : AttributeValue) : bool :=
  match entry_get activeFilters trait_type with
  | Some values => set_has values value
  | None => false
  end.


End Filters.

End NFTGridFilters.

(** Records of the grid for the examples: every record has a colour and a
    size; the metadata is the JSON value that the typed view reads. *)
Definition attribute_json (trait : string) (v : json) : json :=
  JObject [(lit "trait_type", JString (lit trait)); (lit "value", v)].



(** A state of the filters: red or blue, of size 3. *)
Definition sample_filters : @NFTGridFilters.entries Z :=
  [(lit "Color", [NFTGridFilters.VString (lit "Red");
                  NFTGridFilters.VString (lit "Blue")]);
   (lit "Size", [NFTGridFilters.VNumber 3])].

(** A record with two attributes of one trait. *)
Definition two_colour_nft : @NFTGridFilters.GridNFT Z :=
  {| NFTGridFilters.record :=
       {| tokenId := toString 3;
          contractAddress := sample_address;
          owner := lit "0x90DF88f5c189cb3561E8da30182804Bc36F24361";
          metadata :=
            JObject
              [(lit "attributes",
                JArray [attribute_json "Color" (JString (lit "Red"));
                        attribute_json "Color" (JString (lit "Blue"))])] |};
     NFTGridFilters.attributes :=
       Some [ {| NFTGridFilters.trait_type := lit "Color";
                 NFTGridFilters.value := NFTGridFilters.VString (lit "Red") |};
              {| NFTGridFilters.trait_type := lit "Color";
                 NFTGridFilters.value := NFTGridFilters.VString (lit "Blue") |} ] |}.


(** *** The updater of [toggleFilter] over a store of [Set] objects

    [{ ...prev }] copies the references of the previous state, not the
    [Set] objects, and [add] and [delete] change a [Set] where it is.  Here
    the [Set] objects live in a store, at the position that is their
    reference, and an object holds a reference for every key. *)

Module FilterStore.

Section Store.

Context {number : Type} (number_eqb : number -> number -> bool).

Definition store : Type := list (@NFTGridFilters.JSSet number).

Definition object : Type := list (jsstring * nat).

Definition deref (h : store) (r : nat) : option NFTGridFilters.JSSet :=
  nth_error h r.

(** Change the [Set] at a reference. *)
Fixpoint assign (h : store) (r : nat) (s : NFTGridFilters.JSSet) : store :=
  match h, r with
  | [], _ => []
  | _ :: h', O => s :: h'
  | s' :: h', S r' => s' :: assign h' r' s
  end.

(** [new Set()] *)
Definition new_Set (h : store) : nat * store :=
  (length h, h ++ [[]]).

Fixpoint ref_get (o : object) (k : jsstring) : option nat :=
  match o with
  | [] => None
  | (k', r) :: o' => if eqb k k' then Some r else ref_get o' k
  end.

Fixpoint ref_set (o : object) (k : jsstring) (r : nat) : object :=
  match o with
  | [] => [(k, r)]
  | (k', r') :: o' =>
      if eqb k k' then (k', r) :: o' else (k', r') :: ref_set o' k r
  end.

Definition ref_delete (o : object) (k : jsstring) : object :=
  filter (fun e => negb (eqb k (fst e))) o.

Inductive reference : Type :=
| OwnRef (r : nat)
| InheritedRef
| UndefinedRef.

Definition get_reference (o : object) (k : jsstring) : reference :=
  match ref_get o k with
  | Some r => OwnRef r
  | None =>
      if NFTGridFilters.is_object_prototype_key k then InheritedRef
      else UndefinedRef
  end.

(** The updater, from the previous state and the store to the new state
    and the store after the call. *)
Definition toggleFilter (trait_type : jsstring)
  (value : @NFTGridFilters.AttributeValue number) (prev : object) (h : store)
  : completion (object * store) :=
  let newFilters := prev in
  let (newFilters, h) :=
    match get_reference newFilters trait_type with
    | UndefinedRef =>
        let (r, h) := new_Set h in (ref_set newFilters trait_type r, h)
    | _ => (newFilters, h)
    end in
  match get_reference newFilters trait_type with
  | OwnRef r =>
      match deref h r with
      | Some values =>
          if NFTGridFilters.set_has number_eqb values value then
            let h := assign h r (NFTGridFilters.set_delete number_eqb values value) in
            match deref h r with
            | Some values =>
                if Nat.eqb (length values) 0 then
                  Normal (ref_delete newFilters trait_type, h)
                else Normal (newFilters, h)
            | None => Throw TypeError
            end
          else
            Normal (newFilters,
                    assign h r (NFTGridFilters.set_add number_eqb values value))
      | None => Throw TypeError
      end
  | InheritedRef => Throw TypeError
  | UndefinedRef => Throw TypeError
  end.

(** What an object shows through a store: its keys with their sets. *)
Fixpoint view (h : store) (o : object) : option NFTGridFilters.entries :=
  match o with
  | [] => Some []
  | (k, r) :: o' =>
      match deref h r, view h o' with
      | Some s, Some e => Some ((k, s) :: e)
      | _, _ => None
      end
  end.

End Store.

End FilterStore.

(** The sample state of the filters as an object and a store. *)
Definition sample_object : FilterStore.object :=
  [(lit "Color", 0%nat); (lit "Size", 1%nat)].

Definition sample_store : @FilterStore.store Z :=
  [[NFTGridFilters.VString (lit "Red"); NFTGridFilters.VString (lit "Blue")];
   [NFTGridFilters.VNumber 3]].


(** *** The main page (components/MainPage.tsx) *)

Module MainPage.

(** **** The chain id of the connected network *)

Definition colon : code_unit := 58.

(** The code units that [parseInt] skips at the start of its argument:
    white space and line terminators. *)
Definition is_white_space (c : code_unit) : bool :=
  existsb (Z.eqb c)
    [9; 10; 11; 12; 13; 32; 160; 5760; 8232; 8233; 8239; 8287; 12288; 65279]
  || ((8192 <=? c) && (c <=? 8202)).

Fixpoint trim_start (s : jsstring) : jsstring :=
  match s with
  | [] => []
  | c :: r => if is_white_space c then trim_start r else s
  end.

(** The value of a code unit as a digit: 0 to 9, and a to z in either case
    for 10 to 35. *)
Definition digit_value (c : code_unit) : option Z :=
  if (48 <=? c) && (c <=? 57) then Some (c - 48)
  else if (97 <=? c) && (c <=? 122) then Some (c - 87)
  else if (65 <=? c) && (c <=? 90) then Some (c - 55)
  else None.

Definition radix_digit (R : Z) (c : code_unit) : option Z :=
  match digit_value c with
  | Some d => if d <? R then Some d else None
  | None => None
  end.

(** The digits at the start of a string, up to the first code unit that is
    not a digit of the radix. *)
Fixpoint leading_digits (R : Z) (s : jsstring) : list Z :=
  match s with
  | [] => []
  | c :: r =>
      match radix_digit R c with
      | Some d => d :: leading_digits R r
      | None => []
      end
  end.

Definition radix_value (R : Z) (ds : list Z) : Z :=
  fold_left (fun acc d => acc * R + d) ds 0.

(** The Number values that [parseInt] returns. *)
Inductive number : Type :=
| NaN
| Finite (n : Z)
| NegZero
| Infinity (negative : bool).

(** The Number value for an integer that is not 0: the nearest double, or
    an infinity from 2^1024 on. *)
Definition Number_of_integer (n : Z) : number :=
  let f := Number_of_bigint n in
  if 2 ^ 1024 <=? Z.abs f then Infinity (n <? 0) else Finite f.

(** [parseInt(string)], with no radix.  A decimal numeral of more than 20
    significant digits is read exactly, which the standard allows. *)
Definition parseInt (string : option jsstring) : number :=
  let inputString :=
    match string with
    | Some s => s
    | None => lit "undefined"
    end in
  let S := trim_start inputString in
  let sign := match S with c :: _ => if c =? 45 then -1 else 1 | [] => 1 end in
  let S :=
    match S with
    | c :: r => if (c =? 43) || (c =? 45) then r else S
    | [] => S
    end in
  let (R, S) :=
    match S with
    | c :: d :: r =>
        if (c =? 48) && ((d =? 120) || (d =? 88)) then (16, r) else (10, S)
    | _ => (10, S)
    end in
  let Z' := leading_digits R S in
  match Z' with
  | [] => NaN
  | _ =>
      let mathInt := radix_value R Z' in
      if mathInt =? 0 then (if sign =? -1 then NegZero else Finite 0)
      else Number_of_integer (sign * mathInt)
  end.

Definition isNaN (n : number) : bool :=
  match n with
  | NaN => true
  | _ => false
  end.

(** [caipNetwork.id]: a string, or a number that is an integer (below
    10^21, which [String] prints in decimal digits). *)
Inductive network_id : Type :=
| IdString (s : jsstring)
| IdNumber (n : Z).

(** [!id] *)
Definition falsy (id : network_id) : bool :=
  match id with
  | IdString s => eqb s []
  | IdNumber n => n =? 0
  end.

(** [String(id)] *)
Definition String_of (id : network_id) : jsstring :=
  match id with
  | IdString s => s
  | IdNumber n => toString n
  end.

(** [chainId], from [caipNetwork?.id]. *)
Definition chainId (id : option network_id) : number :=
  match id with
  | None => Finite 84532
  | Some id =>
      if falsy id then Finite 84532
      else
        let parts := split colon (String_of id) in
        let parsed := parseInt (nth_error parts 1) in
        if isNaN parsed then Finite 84532 else parsed
  end.

(** **** The contracts of a network (config/contracts.ts) *)

Record NFTContract : Type := {
  address : jsstring;
  name : jsstring;
  symbol : jsstring;
  description : option jsstring;
  image : option json
}.

Definition hardhat_contracts : list NFTContract :=
  [ {| address := lit "0x011b5b823663C76dc70411C2be32124372464575";
       name := lit "Hardhat NFT Collection";
       symbol := lit "HNFT";
       description := Some (lit "Local hardhat NFT collection");
       image := None |};
    {| address := lit "0x90DF88f5c189cb3561E8da30182804Bc36F24361";
       name := lit "Hardhat Test Art";
       symbol := lit "HART";
       description := Some (lit "Test art on hardhat network");
       image := None |} ].

Definition base_sepolia_contracts : list NFTContract :=
  [ {| address := lit "0x0B929dbF7875c85923F14F412d64b5ee4acaF0A9";
       name := lit "Base Sepolia NFT";
       symbol := lit "BSNFT";
       description := Some (lit "NFT collection on Base Sepolia testnet");
       image := None |} ].

Definition base_contracts : list NFTContract :=
  [ {| address := lit "0x0000000000000000000000000000000000000000";
       name := lit "Base NFT Collection";
       symbol := lit "BNFT";
       description := Some (lit "NFT collection on Base mainnet");
       image := None |} ].

(** [NFT_CONTRACTS_BY_NETWORK[chainId] || []]: the keys of the object are
    the decimal strings of 31337, 84532 and 8453. *)
Definition currentNetworkContracts (chainId : number) : list NFTContract :=
  match chainId with
  | Finite n =>
      if n =? 31337 then hardhat_contracts
      else if n =? 84532 then base_sepolia_contracts
      else if n =? 8453 then base_contracts
      else []
  | _ => []
  end.

(** **** The contracts with what the chain says of them *)

(** What the wallet's provider answers for a contract address: the reads
    of [getContractInfo], the reads of [getNFTById], and whether the second
    of the two calls rejects before the first. *)
Record Provider : Type := {
  info_reads : jsstring -> Info.Reads;
  token_reads : jsstring -> Chain;
  token_rejects_first : jsstring -> bool
}.

(** The callback of [currentNetworkContracts.map] in
    [fetchContractImages]; it catches every error. *)
Definition contractWithImage (p : Provider) (contract : NFTContract)
  : NFTContract :=
  match
    (' (contractInfo, token0) <-
       Promise_all2 (token_rejects_first p (address contract))
         (Info.getContractInfo (info_reads p (address contract)))
         (fst (getNFTById (token_reads p (address contract))
                 (address contract) (lit "0"))) ;;
     image <- get_image (metadata token0) ;;
     Normal {| address := address contract;
               name := Info.name contractInfo;
               symbol := Info.symbol contractInfo;
               description := description contract;
               image := image |})
  with
  | Normal updated => updated
  | Throw err => contract
  end.

(** The list that [fetchContractImages] passes to
    [setContractsWithImages]. *)
Definition updatedContracts (p : Provider) (contracts : list NFTContract)
  : list NFTContract :=
  map (contractWithImage p) contracts.

End MainPage.

(** A provider for the examples: the three reads of the contract succeed
    and the metadata of token 0 is [null]. *)
Definition null_provider : MainPage.Provider :=
  {| MainPage.info_reads := fun _ =>
       {| Info.name_read := Normal (lit "On-chain name");
          Info.symbol_read := Normal (lit "OCN");
          Info.totalSupply_read := Normal 2;
          Info.settles_before := fun _ _ => true |};
     MainPage.token_reads := fun _ => null_chain;
     MainPage.token_rejects_first := fun _ => false |}.

Definition sample_contract : MainPage.NFTContract :=
  {| MainPage.address := sample_address;
     MainPage.name := lit "Hardhat NFT Collection";
     MainPage.symbol := lit "HNFT";
     MainPage.description := Some (lit "Local hardhat NFT collection");
     MainPage.image := None |}.

(** A chain whose every token has an object as the image of its
    metadata, and a provider with that chain. *)
Definition object_image_chain : Chain :=
  {| NftService.totalSupply := Normal 1;
     tokenURI := fun id call =>
       Normal (qlit "data:application/json,{'name':'T','image':{'uri':'ipfs://t'}}");
     ownerOf := fun id call => Normal (lit "0x90DF88f5c189cb3561E8da30182804Bc36F24361");
     ownerOf_rejects_first := fun id call => false |}.

Definition object_image_provider : MainPage.Provider :=
  {| MainPage.info_reads := MainPage.info_reads null_provider;
     MainPage.token_reads := fun _ => object_image_chain;
     MainPage.token_rejects_first := fun _ => false |}.

(** *** The pictures of the cards *)

Module Cards.

(** The picture of a card of the grid (components/nft/NFTGrid.tsx): an
    [<object>] with the encoded data URI or an [<img>].  The expression
    [nft.metadata.image.startsWith(...)] throws on an image that is absent
    or [null] (no property can be read) and on one that is not a string
    (it has no such method). *)
Inductive picture : Type :=
| ObjectData (data : jsstring)
| ImgSrc (src : jsstring).

Definition card_picture (nft : NFT) : completion picture :=
  image <- get_image (metadata nft) ;;
  match image with
  | Some (JString image) =>
      if startsWith svg_prefix image then
        data <- NFTGrid.ensureEncodedDataURI image ;;
        Normal (ObjectData data)
      else Normal (ImgSrc image)
  | _ => Throw TypeError
  end.

(** The picture of a card of the contracts list
    (components/nft/ContractsList.tsx): none for an image that is not
    truthy, else the extracted SVG inline, a placeholder when nothing is
    extracted, or an [<img>]. *)
Inductive contract_picture : Type :=
| NoPicture
| InlineSVG (html : jsstring)
| Placeholder (src : jsstring)
| Img (src : jsstring).

Section ContractCard.

(** Whether the number that a lexeme denotes is a zero. *)
Variable is_zero : jsstring -> bool.

Definition truthy (v : json) : bool :=
  match v with
  | JNull => false
  | JBool b => b
  | JNumber lexeme => negb (is_zero lexeme)
  | JString s => negb (eqb s [])
  | JArray _ => true
  | JObject _ => true
  end.

Definition placeholder (contract : MainPage.NFTContract)
  : completion contract_picture :=
  text <- encodeURIComponent (MainPage.symbol contract) ;;
  Normal (Placeholder (lit "https://via.placeholder.com/400x400?text=" ++ text)).

Definition contract_card_picture (contract : MainPage.NFTContract)
  : completion contract_picture :=
  match MainPage.image contract with
  | None => Normal NoPicture
  | Some v =>
      if negb (truthy v) then Normal NoPicture
      else
        match v with
        | JString image =>
            if startsWith svg_prefix image then
              svgContent <- extractSVGContent image ;;
              match svgContent with
              | Some svg =>
                  if eqb svg [] then placeholder contract
                  else Normal (InlineSVG svg)
              | None => placeholder contract
              end
            else Normal (Img image)
        | _ => Throw TypeError
        end
  end.

End ContractCard.

End Cards.

(** Notions for the statements about the main page: a decimal digit, and
    the metadata that the single lookup decodes and parses from a token
    URI. *)
Definition is_decimal_digit (c : code_unit) : Prop := 48 <= c <= 57.

Definition parsed_metadata (uri : jsstring) : completion json :=
  decodedJson <- decodeDataURI uri ;; JSON_parse decodedJson.

(** * Properties *)

(** ** Loops *)

Lemma for_range_unfold lo hi step :
  0 < step ->
  for_range lo hi step =
  if lo <? hi then lo :: for_range (lo + step) hi step else [].
Proof.
  intros Hstep. unfold for_range.
  destruct (Z.ltb_spec lo hi) as [Hlt | Hge].
  - replace (hi - lo + step - 1) with ((hi - (lo + step) + step - 1) + 1 * step) by lia.
    rewrite Z.div_add by lia.
    assert (0 <= (hi - (lo + step) + step - 1) / step)
      by (apply Z.div_pos; lia).
    rewrite Z2Nat.inj_add by lia.
    rewrite Nat.add_comm. reflexivity.
  - assert ((hi - lo + step - 1) / step <= 0) as Hq.
    { assert ((hi - lo + step - 1) / step < 1); [| lia].
      apply Z.div_lt_upper_bound; lia. }
    destruct ((hi - lo + step - 1) / step); try lia; reflexivity.
Qed.

Lemma for_range_empty lo hi step : 0 < step -> hi <= lo -> for_range lo hi step = [].
Proof.
  intros Hs Hle. rewrite for_range_unfold by assumption.
  destruct (Z.ltb_spec lo hi); [lia | reflexivity].
Qed.

Lemma for_range_cons lo hi step :
  0 < step -> lo < hi -> for_range lo hi step = lo :: for_range (lo + step) hi step.
Proof.
  intros Hs Hlt. rewrite for_range_unfold by assumption.
  destruct (Z.ltb_spec lo hi); [reflexivity | lia].
Qed.

(** The unit-step range is the standard sequence. *)
Lemma for_range_seq lo hi :
  for_range lo hi 1 =
  map (fun k => lo + Z.of_nat k) (seq 0 (Z.to_nat (hi - lo))).
Proof.
  remember (Z.to_nat (hi - lo)) as n eqn:Hn.
  revert lo Hn. induction n as [| n IH]; intros lo Hn.
  - apply for_range_empty; lia.
  - rewrite for_range_cons by lia.
    rewrite (IH (lo + 1)) by lia.
    cbn [seq map]. f_equal; [lia |].
    rewrite <- seq_shift, map_map.
    apply map_ext. intros k. lia.
Qed.

Lemma for_range_app lo mid hi :
  lo <= mid <= hi ->
  for_range lo mid 1 ++ for_range mid hi 1 = for_range lo hi 1.
Proof.
  intros H.
  remember (Z.to_nat (mid - lo)) as n eqn:Hn.
  revert lo H Hn. induction n as [| n IH]; intros lo H Hn.
  - assert (lo = mid) by lia. subst. rewrite (for_range_empty mid mid) by lia.
    reflexivity.
  - rewrite (for_range_cons lo mid), (for_range_cons lo hi) by lia.
    cbn [app]. f_equal. apply IH; lia.
Qed.

(** ** split, join and the text past the first comma *)

Lemma split_not_nil sep s : split sep s <> [].
Proof.
  destruct s as [| c s']; cbn; [discriminate |].
  destruct (c =? sep); [discriminate |].
  destruct (split sep s'); discriminate.
Qed.

Lemma join_cons sep p ps :
  ps <> [] -> join sep (p :: ps) = p ++ sep :: join sep ps.
Proof. destruct ps; [congruence | reflexivity]. Qed.

Lemma join_split sep s : join sep (split sep s) = s.
Proof.
  induction s as [| c s' IH]; [reflexivity |].
  cbn [split]. destruct (Z.eqb_spec c sep) as [-> | Hne].
  - rewrite join_cons by apply split_not_nil. rewrite IH. reflexivity.
  - pose proof (split_not_nil sep s') as Hnil.
    destruct (split sep s') as [| p ps]; [congruence |].
    destruct ps as [| q qs].
    + cbn in *. congruence.
    + rewrite join_cons by discriminate.
      rewrite join_cons in IH by discriminate.
      cbn [app]. rewrite IH. reflexivity.
Qed.

Lemma split_no_comma s :
  past_first_comma s = None -> split comma s = [s].
Proof.
  induction s as [| c s' IH]; [reflexivity |].
  cbn. destruct (c =? comma); [discriminate |].
  intros H. rewrite (IH H). reflexivity.
Qed.

Lemma split_first_comma s data :
  past_first_comma s = Some data ->
  exists mime,
    s = mime ++ comma :: data /\ past_first_comma mime = None /\
    split comma s = mime :: split comma data.
Proof.
  revert data. induction s as [| c s' IH]; intros data; [discriminate |].
  cbn. destruct (Z.eqb_spec c comma) as [-> | Hne].
  - intros [= <-]. exists []. repeat split; reflexivity.
  - intros H. destruct (IH _ H) as (mime & -> & Hm & Hs).
    exists (c :: mime). rewrite Hs. repeat split.
    cbn. destruct (Z.eqb_spec c comma); [contradiction | exact Hm].
Qed.

Lemma past_first_comma_app mime data :
  past_first_comma mime = None ->
  past_first_comma (mime ++ comma :: data) = Some data.
Proof.
  induction mime as [| c m IH]; cbn; [reflexivity |].
  destruct (c =? comma); [discriminate | exact IH].
Qed.

(** ** The decoder on a string without the base64 marker *)

Lemma decodeDataURI_plain dataURI :
  includes base64_marker dataURI = false ->
  decodeDataURI dataURI = decode_plain dataURI.
Proof.
  intros Hm. unfold decodeDataURI, decode_plain. rewrite Hm.
  destruct (past_first_comma dataURI) as [data |] eqn:Hp.
  - destruct (split_first_comma _ _ Hp) as (mime & _ & _ & ->).
    pose proof (split_not_nil comma data) as Hnil.
    destruct (split comma data) as [| p ps] eqn:Hs; [congruence |].
    cbn [length Nat.ltb Nat.leb slice1 tl].
    rewrite <- Hs, join_split. reflexivity.
  - rewrite (split_no_comma _ Hp). reflexivity.
Qed.

Lemma decodeDataURI_plain_returns dataURI :
  includes base64_marker dataURI = false ->
  exists text, decodeDataURI dataURI = Normal text.
Proof.
  intros Hm. rewrite (decodeDataURI_plain _ Hm). unfold decode_plain.
  destruct (past_first_comma dataURI) as [data |]; [| eauto].
  destruct (test_percent_escape data); [| eauto].
  destruct (decodeURIComponent data); eauto.
Qed.

Lemma test_percent_escape_tail c s :
  test_percent_escape (c :: s) = false -> test_percent_escape s = false.
Proof. cbn [test_percent_escape]. intros H. apply orb_false_iff in H. tauto. Qed.

Lemma test_percent_escape_past_comma s data :
  test_percent_escape s = false ->
  past_first_comma s = Some data ->
  test_percent_escape data = false.
Proof.
  revert data. induction s as [| c s' IH]; intros data Ht; [discriminate |].
  pose proof (test_percent_escape_tail _ _ Ht) as Ht'.
  cbn [past_first_comma]. destruct (c =? comma).
  - intros [= <-]. exact Ht'.
  - apply IH. exact Ht'.
Qed.

(** ** The URI decoder: C3, C5, C6 *)

(** C3.  The decoder raises on a malformed base64 payload: for the token URI
    [data:application/json;base64,!!!] the call of [atob] throws an
    InvalidCharacterError, which [decodeDataURI] does not catch. *)
Theorem decodeDataURI_bad_base64_throws :
  includes base64_marker bad_base64_uri = true /\
  decodeDataURI bad_base64_uri = Throw InvalidCharacterError.
Proof. split; reflexivity. Qed.

(** C5, as stated, fails: a string with no percent escape and no base64
    marker that has a comma is not returned unchanged. *)
Lemma decodeDataURI_unchanged_fails :
  test_percent_escape json_data_uri = false /\
  includes base64_marker json_data_uri = false /\
  decodeDataURI json_data_uri = Normal (qlit "{'name':'Test'}") /\
  decodeDataURI json_data_uri <> Normal json_data_uri.
Proof. repeat split; try reflexivity. intros H. discriminate H. Qed.

(** C5, amended.  For every string with no percent escape and no base64
    marker, the decoder returns the string unchanged when it has no comma,
    and otherwise returns the text past its first comma, unchanged. *)
Theorem decodeDataURI_no_escape dataURI :
  test_percent_escape dataURI = false ->
  includes base64_marker dataURI = false ->
  decodeDataURI dataURI =
  Normal (match past_first_comma dataURI with
          | None => dataURI
          | Some data => data
          end).
Proof.
  intros Ht Hm. rewrite (decodeDataURI_plain _ Hm). unfold decode_plain.
  destruct (past_first_comma dataURI) as [data |] eqn:Hp; [| reflexivity].
  rewrite (test_percent_escape_past_comma _ _ Ht Hp). reflexivity.
Qed.

Lemma decodeDataURI_no_escape_witness :
  test_percent_escape json_data_uri = false /\
  includes base64_marker json_data_uri = false /\
  decodeDataURI json_data_uri = Normal (qlit "{'name':'Test'}").
Proof.
  split; [reflexivity |]. split; [reflexivity |].
  apply (decodeDataURI_no_escape json_data_uri); reflexivity.
Defined.

(** C6, as stated, fails: a string that is not a data URI and has no comma
    is returned as it is, not as the empty string. *)
Lemma decodeDataURI_no_comma_not_empty :
  not_data_uri (lit "hello") /\
  includes base64_marker (lit "hello") = false /\
  past_first_comma (lit "hello") = None /\
  decodeDataURI (lit "hello") = Normal (lit "hello") /\
  decodeDataURI (lit "hello") <> Normal [].
Proof. repeat split; try reflexivity. intros H. discriminate H. Qed.

(** C6, amended.  For every string that is not a data URI and is not
    base64-flagged, the decoder returns the string itself when it has no
    comma; when it has one, it returns the text past the first comma, as it
    is when that text holds no [%XX] escape or cannot be percent-decoded,
    and percent-decoded otherwise. *)
Theorem decodeDataURI_non_data_uri dataURI :
  not_data_uri dataURI ->
  includes base64_marker dataURI = false ->
  decodeDataURI dataURI = decode_plain dataURI.
Proof. intros _ Hm. apply decodeDataURI_plain. exact Hm. Qed.

Lemma decodeDataURI_non_data_uri_witness :
  not_data_uri (lit "token 7,%7B%22a%22%3A1%7D") /\
  includes base64_marker (lit "token 7,%7B%22a%22%3A1%7D") = false /\
  decodeDataURI (lit "token 7,%7B%22a%22%3A1%7D") = Normal (qlit "{'a':1}").
Proof.
  split; [reflexivity |]. split; [reflexivity |].
  apply (decodeDataURI_non_data_uri (lit "token 7,%7B%22a%22%3A1%7D"));
    reflexivity.
Defined.

(** The other cases of C6 on sample inputs: no comma; a comma and no
    escape; an escape that cannot be decoded. *)
Lemma decodeDataURI_non_data_uri_cases :
  decodeDataURI (lit "hello") = Normal (lit "hello") /\
  decodeDataURI (lit "a,b,c") = Normal (lit "b,c") /\
  decodeDataURI (lit "a,%41%") = Normal (lit "%41%").
Proof. split; [| split]; reflexivity. Qed.

(** ** Percent-encoding and UTF-8 *)

Ltac Zify.zify_post_hook ::= Z.to_euclidean_division_equations.

Ltac bool_to_prop :=
  repeat match goal with
    | H : _ |- _ =>
        progress rewrite ?andb_true_iff, ?orb_true_iff, ?andb_false_iff,
          ?orb_false_iff, ?negb_true_iff, ?negb_false_iff, ?Z.leb_le,
          ?Z.ltb_lt, ?Z.eqb_eq, ?Z.leb_gt, ?Z.ltb_ge, ?Z.eqb_neq in H
    end;
  rewrite ?andb_true_iff, ?orb_true_iff, ?andb_false_iff,
    ?orb_false_iff, ?negb_true_iff, ?negb_false_iff, ?Z.leb_le,
    ?Z.ltb_lt, ?Z.eqb_eq, ?Z.leb_gt, ?Z.ltb_ge, ?Z.eqb_neq.

Lemma hex_value_hex_char d : 0 <= d < 16 -> hex_value (hex_char d) = Some d.
Proof.
  intros Hd. unfold hex_char, hex_value, between.
  destruct (Z.ltb_spec d 10).
  - replace ((48 <=? 48 + d) && (48 + d <=? 57)) with true
      by (symmetry; bool_to_prop; lia).
    f_equal. lia.
  - replace ((48 <=? 55 + d) && (55 + d <=? 57)) with false
      by (symmetry; bool_to_prop; lia).
    replace ((65 <=? 55 + d) && (55 + d <=? 70)) with true
      by (symmetry; bool_to_prop; lia).
    f_equal. lia.
Qed.

Lemma is_hex_digit_hex_char d : 0 <= d < 16 -> is_hex_digit (hex_char d) = true.
Proof.
  intros Hd. unfold hex_char, is_hex_digit, between.
  destruct (Z.ltb_spec d 10); bool_to_prop; lia.
Qed.

Lemma hex_char_not_comma d : 0 <= d < 16 -> (hex_char d =? comma) = false.
Proof.
  intros Hd. unfold hex_char, comma.
  destruct (Z.ltb_spec d 10); bool_to_prop; lia.
Qed.

Lemma ParseHexOctet_escape b :
  0 <= b < 256 ->
  ParseHexOctet (hex_char (b / 16)) (hex_char (b mod 16)) = Some b.
Proof.
  intros Hb. unfold ParseHexOctet.
  rewrite !hex_value_hex_char.
  - f_equal. pose proof (Z.div_mod b 16). lia.
  - apply Z.mod_pos_bound. lia.
  - split; [apply Z.div_pos; lia | apply Z.div_lt_upper_bound; lia].
Qed.

Lemma utf8_encode_octets cp :
  0 <= cp <= 1114111 -> Forall (fun b => 0 <= b < 256) (utf8_encode cp).
Proof.
  intros Hcp. unfold utf8_encode.
  destruct (Z.ltb_spec cp 128); [| destruct (Z.ltb_spec cp 2048);
    [| destruct (Z.ltb_spec cp 65536)]];
    repeat apply Forall_cons; try apply Forall_nil; lia.
Qed.

Lemma Decode_literal c rest :
  (c =? percent) = false ->
  Decode (c :: rest) = (R <- Decode rest ;; Normal (c :: R)).
Proof. intros H. cbn [Decode]. rewrite H. reflexivity. Qed.

(** Decoding the escapes of a scalar value gives back its code units. *)
Lemma Decode_escape_octets cp rest :
  is_scalar cp ->
  Decode (escape_octets (utf8_encode cp) ++ rest) =
  (R <- Decode rest ;; Normal (UTF16EncodeCodePoint cp ++ R)).
Proof.
  intros [Hcp Hsur].
  pose proof (utf8_encode_octets cp Hcp) as Hoct.
  unfold utf8_encode in *.
  destruct (Z.ltb_spec cp 128) as [H1 | H1];
    [| destruct (Z.ltb_spec cp 2048) as [H2 | H2];
       [| destruct (Z.ltb_spec cp 65536) as [H3 | H3]]].
  - cbn [escape_octets flat_map escape_octet app Decode].
    rewrite Z.eqb_refl. cbn [negb].
    rewrite ParseHexOctet_escape by lia.
    unfold leading_ones. destruct (Z.ltb_spec cp 128); [| lia].
    unfold UTF16EncodeCodePoint. destruct (Z.leb_spec cp 65535); [| lia].
    reflexivity.
  - inversion Hoct as [| b1 l1 Hb1 Hoct1]; subst.
    inversion Hoct1 as [| b2 l2 Hb2 _]; subst.
    cbn [escape_octets flat_map escape_octet app Decode].
    rewrite Z.eqb_refl. cbn [negb].
    rewrite ParseHexOctet_escape by assumption.
    replace (leading_ones (192 + cp / 64)) with 2%nat.
    2:{ unfold leading_ones.
        repeat match goal with
               | |- context [?a <? ?b] => destruct (Z.ltb_spec a b); try lia
               end; reflexivity. }
    unfold emit, continuation_octet. rewrite Z.eqb_refl.
    rewrite ParseHexOctet_escape by assumption.
    cbn [fold_right utf8_code_point].
    replace ((192 + cp / 64 - 192) * 64 + (128 + cp mod 64 - 128)) with cp
      by (pose proof (Z.div_mod cp 64); lia).
    replace (is_continuation (128 + cp mod 64) && (128 <=? cp)) with true.
    2:{ symmetry. unfold is_continuation, between. bool_to_prop. lia. }
    reflexivity.
  - inversion Hoct as [| b1 l1 Hb1 Hoct1]; subst.
    inversion Hoct1 as [| b2 l2 Hb2 Hoct2]; subst.
    inversion Hoct2 as [| b3 l3 Hb3 _]; subst.
    cbn [escape_octets flat_map escape_octet app Decode].
    rewrite Z.eqb_refl. cbn [negb].
    rewrite ParseHexOctet_escape by assumption.
    replace (leading_ones (224 + cp / 4096)) with 3%nat.
    2:{ unfold leading_ones.
        repeat match goal with
               | |- context [?a <? ?b] => destruct (Z.ltb_spec a b); try lia
               end; reflexivity. }
    unfold emit, continuation_octet. rewrite !Z.eqb_refl.
    rewrite !ParseHexOctet_escape by assumption.
    cbn [fold_right utf8_code_point].
    replace (((224 + cp / 4096 - 224) * 64 + (128 + (cp / 64) mod 64 - 128)) * 64
             + (128 + cp mod 64 - 128)) with cp by lia.
    replace (is_continuation (128 + (cp / 64) mod 64)
             && is_continuation (128 + cp mod 64) && (2048 <=? cp)
             && negb (between 55296 57343 cp)) with true.
    2:{ symmetry. unfold is_continuation, between. bool_to_prop. lia. }
    reflexivity.
  - inversion Hoct as [| b1 l1 Hb1 Hoct1]; subst.
    inversion Hoct1 as [| b2 l2 Hb2 Hoct2]; subst.
    inversion Hoct2 as [| b3 l3 Hb3 Hoct3]; subst.
    inversion Hoct3 as [| b4 l4 Hb4 _]; subst.
    cbn [escape_octets flat_map escape_octet app Decode].
    rewrite Z.eqb_refl. cbn [negb].
    rewrite ParseHexOctet_escape by assumption.
    replace (leading_ones (240 + cp / 262144)) with 4%nat.
    2:{ unfold leading_ones.
        repeat match goal with
               | |- context [?a <? ?b] => destruct (Z.ltb_spec a b); try lia
               end; reflexivity. }
    unfold emit, continuation_octet. rewrite !Z.eqb_refl.
    rewrite !ParseHexOctet_escape by assumption.
    cbn [fold_right utf8_code_point].
    replace ((((240 + cp / 262144 - 240) * 64 + (128 + (cp / 4096) mod 64 - 128)) * 64
              + (128 + (cp / 64) mod 64 - 128)) * 64
             + (128 + cp mod 64 - 128)) with cp by lia.
    replace (is_continuation (128 + (cp / 4096) mod 64)
             && is_continuation (128 + (cp / 64) mod 64)
             && is_continuation (128 + cp mod 64) && (65536 <=? cp)
             && (cp <=? 1114111)) with true.
    2:{ symmetry. unfold is_continuation, between. bool_to_prop. lia. }
    reflexivity.
Qed.

Lemma is_unescaped_plain c :
  is_unescaped c = true ->
  (c =? percent) = false /\ (c =? comma) = false /\
  is_leading_surrogate c = false /\ is_trailing_surrogate c = false.
Proof.
  unfold is_unescaped, is_leading_surrogate, is_trailing_surrogate, between,
    percent, comma.
  intros H. bool_to_prop. lia.
Qed.

Lemma escape_octets_past_comma bs e :
  Forall (fun b => 0 <= b < 256) bs ->
  past_first_comma (escape_octets bs ++ e) = past_first_comma e.
Proof.
  induction 1 as [| b bs Hb _ IH]; [reflexivity |].
  cbn [escape_octets flat_map escape_octet app past_first_comma].
  change (percent =? comma) with false. cbn iota.
  rewrite !hex_char_not_comma.
  - exact IH.
  - apply Z.mod_pos_bound. lia.
  - split; [apply Z.div_pos; lia | apply Z.div_lt_upper_bound; lia].
Qed.

Lemma escape_octets_test bs e :
  bs <> [] ->
  Forall (fun b => 0 <= b < 256) bs ->
  test_percent_escape (escape_octets bs ++ e) = true.
Proof.
  intros Hne Hall. destruct Hall as [| b bs' Hb _]; [congruence |].
  cbn [escape_octets flat_map escape_octet app test_percent_escape].
  rewrite Z.eqb_refl, !is_hex_digit_hex_char; [reflexivity | |].
  - apply Z.mod_pos_bound. lia.
  - split; [apply Z.div_pos; lia | apply Z.div_lt_upper_bound; lia].
Qed.

Lemma utf8_encode_not_nil cp : utf8_encode cp <> [].
Proof.
  unfold utf8_encode.
  destruct (cp <? 128); [| destruct (cp <? 2048); [| destruct (cp <? 65536)]];
    discriminate.
Qed.

Lemma UTF16_pair lead trail :
  is_leading_surrogate lead = true ->
  is_trailing_surrogate trail = true ->
  is_scalar (UTF16SurrogatePairToCodePoint lead trail) /\
  UTF16EncodeCodePoint (UTF16SurrogatePairToCodePoint lead trail) = [lead; trail].
Proof.
  unfold is_leading_surrogate, is_trailing_surrogate, between, is_scalar,
    UTF16SurrogatePairToCodePoint, UTF16EncodeCodePoint.
  intros Hl Ht. bool_to_prop.
  split; [lia |].
  destruct (Z.leb_spec ((lead - 55296) * 1024 + (trail - 56320) + 65536) 65535);
    [lia |].
  f_equal; [lia | f_equal; lia].
Qed.

Lemma UTF16_single c :
  is_code_unit c = true ->
  is_leading_surrogate c = false ->
  is_trailing_surrogate c = false ->
  is_scalar c /\ UTF16EncodeCodePoint c = [c].
Proof.
  unfold is_code_unit, is_leading_surrogate, is_trailing_surrogate, between,
    is_scalar, UTF16EncodeCodePoint.
  intros Hc Hl Ht. bool_to_prop.
  split; [lia |].
  destruct (Z.leb_spec c 65535); [reflexivity | lia].
Qed.

(** What encoding a well-formed string gives: text that decodes to the
    string, holds no comma, and is the string itself unless it holds an
    escape. *)
Lemma Encode_well_formed n :
  forall p,
    (length p <= n)%nat ->
    is_js_string p = true ->
    isWellFormed p = true ->
    exists e,
      Encode p = Normal e /\ Decode e = Normal p /\
      past_first_comma e = None /\
      (test_percent_escape e = false -> e = p).
Proof.
  induction n as [| n IH]; intros p Hlen Hjs Hwf.
  - destruct p; [| cbn in Hlen; lia].
    exists []. repeat split; reflexivity.
  - destruct p as [| c r]; [exists []; repeat split; reflexivity |].
    cbn [length] in Hlen.
    cbn [is_js_string forallb] in Hjs. apply andb_true_iff in Hjs as [Hc Hjs].
    cbn [Encode isWellFormed] in *.
    destruct (is_unescaped c) eqn:Hu.
    + destruct (is_unescaped_plain c Hu) as (Hpc & Hcm & Hl & Ht).
      rewrite Hl, Ht in Hwf.
      destruct (IH r ltac:(lia) Hjs Hwf) as (e & He & Hd & Hnc & Hid).
      exists (c :: e). rewrite He. cbn [bind].
      rewrite Decode_literal by assumption. rewrite Hd.
      repeat split.
      * cbn [past_first_comma]. rewrite Hcm. exact Hnc.
      * intros Htest. apply test_percent_escape_tail in Htest.
        rewrite (Hid Htest). reflexivity.
    + destruct (is_trailing_surrogate c) eqn:Ht.
      { exfalso. destruct (is_leading_surrogate c) eqn:Hl; [| discriminate].
        revert Hl Ht. clear.
        unfold is_leading_surrogate, is_trailing_surrogate, between.
        intros Hl Ht. bool_to_prop. lia. }
      destruct (is_leading_surrogate c) eqn:Hl.
      * destruct r as [| d r']; [discriminate |].
        apply andb_true_iff in Hwf as [Hd Hwf]. rewrite Hd.
        cbn [length] in Hlen.
        cbn [forallb] in Hjs. apply andb_true_iff in Hjs as [_ Hjs].
        destruct (IH r' ltac:(lia) Hjs Hwf) as (e & He & Hdec & Hnc & _).
        destruct (UTF16_pair c d Hl Hd) as [Hsc Hu16].
        pose proof (utf8_encode_octets _ (proj1 Hsc)) as Hoct.
        eexists. rewrite He. cbn [bind]. split; [reflexivity |].
        rewrite Decode_escape_octets by assumption.
        rewrite Hdec, Hu16. cbn [bind app].
        repeat split.
        -- rewrite escape_octets_past_comma by assumption. exact Hnc.
        -- rewrite escape_octets_test by
             (try assumption; apply utf8_encode_not_nil).
           discriminate.
      * destruct (IH r ltac:(lia) Hjs Hwf) as (e & He & Hdec & Hnc & _).
        destruct (UTF16_single c Hc Hl Ht) as [Hsc Hu16].
        pose proof (utf8_encode_octets _ (proj1 Hsc)) as Hoct.
        eexists. rewrite He. cbn [bind]. split; [reflexivity |].
        rewrite Decode_escape_octets by assumption.
        rewrite Hdec, Hu16. cbn [bind app].
        repeat split.
        -- rewrite escape_octets_past_comma by assumption. exact Hnc.
        -- rewrite escape_octets_test by
             (try assumption; apply utf8_encode_not_nil).
           discriminate.
Qed.

(** ** The base64 marker *)

Lemma startsWith_app p b : startsWith p (p ++ b) = true.
Proof.
  induction p as [| c p IH]; [reflexivity |].
  cbn. rewrite Z.eqb_refl. exact IH.
Qed.

Lemma startsWith_inv p s :
  startsWith p s = true -> exists b, s = p ++ b.
Proof.
  revert s. induction p as [| c p IH]; intros s H.
  - exists s. reflexivity.
  - destruct s as [| d s]; [discriminate |].
    cbn in H. apply andb_true_iff in H as [Hc Hp].
    apply Z.eqb_eq in Hc. subst d.
    destruct (IH _ Hp) as [b ->]. exists b. reflexivity.
Qed.

Lemma includes_app a p b : includes p (a ++ p ++ b) = true.
Proof.
  induction a as [| c a IH].
  - cbn [app]. destruct (p ++ b) eqn:E; cbn [includes];
      rewrite <- E, startsWith_app; reflexivity.
  - cbn [app includes]. rewrite IH. apply orb_true_r.
Qed.

Lemma includes_inv p s :
  includes p s = true -> exists a b, s = a ++ p ++ b.
Proof.
  induction s as [| c s IH]; cbn [includes]; intros H.
  - rewrite orb_false_r in H. apply startsWith_inv in H as [b ->].
    exists [], b. reflexivity.
  - apply orb_true_iff in H as [H | H].
    + apply startsWith_inv in H as [b ->]. exists [], b. reflexivity.
    + destruct (IH H) as (a & b & ->). exists (c :: a), b. reflexivity.
Qed.

Lemma past_first_comma_app_some a a' x :
  past_first_comma a = Some a' -> past_first_comma (a ++ x) = Some (a' ++ x).
Proof.
  induction a as [| c a IH]; [discriminate |].
  cbn. destruct (c =? comma); [intros [= <-]; reflexivity | exact IH].
Qed.

Lemma past_first_comma_app_none a x :
  past_first_comma a = None -> past_first_comma (a ++ x) = past_first_comma x.
Proof.
  induction a as [| c a IH]; [reflexivity |].
  cbn. destruct (c =? comma); [discriminate | exact IH].
Qed.

Lemma past_first_comma_mid x y : past_first_comma (x ++ comma :: y) <> None.
Proof.
  induction x as [| c x IH]; cbn; [discriminate |].
  destruct (c =? comma); [discriminate | exact IH].
Qed.

(** With a comma-free header and a comma-free payload, the marker can only
    sit at the end of the header, whatever the payload. *)
Lemma base64_marker_in_header mime e p :
  past_first_comma mime = None ->
  past_first_comma e = None ->
  includes base64_marker (mime ++ comma :: e) = true ->
  includes base64_marker (mime ++ comma :: p) = true.
Proof.
  intros Hm He Hinc.
  apply includes_inv in Hinc as (a & b & Heq).
  change base64_marker with (lit ";base64" ++ [comma]) in *.
  assert (past_first_comma (mime ++ comma :: e) = Some e) as Hl
    by (apply past_first_comma_app; exact Hm).
  rewrite Heq in Hl.
  destruct (past_first_comma a) as [a' |] eqn:Ha.
  - rewrite (past_first_comma_app_some _ _ _ Ha) in Hl.
    injection Hl as Hl. exfalso.
    apply (past_first_comma_mid (a' ++ lit ";base64") b).
    rewrite <- He, <- Hl, <- !app_assoc. reflexivity.
  - rewrite (past_first_comma_app_none _ _ Ha) in Hl.
    cbn in Hl. injection Hl as Hl. subst b.
    assert (mime = a ++ lit ";base64") as ->.
    { apply (app_inv_tail (comma :: e)).
      rewrite Heq, <- !app_assoc. reflexivity. }
    rewrite <- !app_assoc.
    change (lit ";base64" ++ comma :: p) with ((lit ";base64" ++ [comma]) ++ p).
    apply includes_app.
Qed.

(** ** Round trip of the ensure-encoded transform and the decoder: C4 *)

(** C4, as stated, fails: an SVG that embeds a base64 image carries the
    marker in its text; the transform passes it through and the decoder
    then hands a piece of the SVG to [atob], which throws. *)
Lemma roundtrip_fails_on_embedded_image :
  past_first_comma svg_with_image_uri = Some svg_with_image /\
  ensureEncodedDataURI svg_with_image_uri = Normal svg_with_image_uri /\
  (encoded <- ensureEncodedDataURI svg_with_image_uri ;;
   decodeDataURI encoded) = Throw InvalidCharacterError /\
  (encoded <- ensureEncodedDataURI svg_with_image_uri ;;
   decodeDataURI encoded) <> Normal svg_with_image.
Proof.
  split; [reflexivity |]. split; [reflexivity |]. split; [reflexivity |].
  intros H. discriminate H.
Qed.

(** An SVG text that holds a [%XX] sequence is taken for encoded text: it
    is passed through and then percent-decoded. *)
Lemma roundtrip_fails_on_escape_text :
  (encoded <- ensureEncodedDataURI (lit "data:image/svg+xml,<svg><a href='x%20y'/></svg>") ;;
   decodeDataURI encoded) = Normal (lit "<svg><a href='x y'/></svg>").
Proof. reflexivity. Qed.

(** [encodeURIComponent] throws on an unpaired surrogate. *)
Lemma roundtrip_fails_on_unpaired_surrogate :
  ensureEncodedDataURI (lit "data:image/svg+xml," ++ [60; 55357; 62]) =
  Throw URIError.
Proof. reflexivity. Qed.

(** C4, amended.  For every data URI that does not contain the base64
    marker and whose payload (the text past the first comma, a JavaScript
    string) holds no [%XX] escape and no unpaired surrogate, the
    ensure-encoded transform followed by the decoder gives back the payload
    exactly. *)
Theorem ensureEncoded_decode_roundtrip dataURI svg :
  past_first_comma dataURI = Some svg ->
  includes base64_marker dataURI = false ->
  test_percent_escape svg = false ->
  is_js_string svg = true ->
  isWellFormed svg = true ->
  (encoded <- ensureEncodedDataURI dataURI ;; decodeDataURI encoded) =
  Normal svg.
Proof.
  intros Hp Hm Ht Hjs Hwf.
  destruct (split_first_comma _ _ Hp) as (mime & -> & Hmime & Hsplit).
  destruct (Encode_well_formed _ svg (le_n _) Hjs Hwf)
    as (e & He & Hd & Hnc & Hid).
  assert (ensureEncodedDataURI (mime ++ comma :: svg) =
          Normal (mime ++ comma :: e)) as ->.
  { unfold ensureEncodedDataURI. rewrite Hm, Hsplit.
    pose proof (split_not_nil comma svg) as Hnil.
    destruct (split comma svg) as [| q qs] eqn:Hs; [congruence |].
    cbn [length Nat.ltb Nat.leb slice1 tl hd].
    rewrite <- Hs, join_split, Ht.
    unfold encodeURIComponent. rewrite He. reflexivity. }
  cbn [bind].
  assert (includes base64_marker (mime ++ comma :: e) = false) as Hm'.
  { destruct (includes base64_marker (mime ++ comma :: e)) eqn:E;
      [| reflexivity].
    rewrite (base64_marker_in_header mime e svg Hmime Hnc E) in Hm.
    discriminate. }
  rewrite (decodeDataURI_plain _ Hm'). unfold decode_plain.
  rewrite (past_first_comma_app _ _ Hmime).
  destruct (test_percent_escape e) eqn:Hte.
  - unfold decodeURIComponent. rewrite Hd. reflexivity.
  - rewrite (Hid eq_refl). reflexivity.
Qed.

Lemma ensureEncoded_decode_roundtrip_witness :
  past_first_comma svg_uri = Some svg_text /\
  includes base64_marker svg_uri = false /\
  test_percent_escape svg_text = false /\
  is_js_string svg_text = true /\
  isWellFormed svg_text = true /\
  (encoded <- ensureEncodedDataURI svg_uri ;; decodeDataURI encoded) =
  Normal svg_text.
Proof.
  split; [reflexivity |]. split; [reflexivity |]. split; [reflexivity |].
  split; [reflexivity |]. split; [reflexivity |].
  apply (ensureEncoded_decode_roundtrip svg_uri svg_text); reflexivity.
Defined.

(** ** The batch loop *)

Section BatchLoop.

Variables (ch : Chain) (addr : jsstring) (onProgress : bool) (totalTokens : Z).

Lemma forEach_result_spec results :
  forall st,
    let st' := forEach_result onProgress totalTokens results st in
    nfts st' = nfts st ++ flat_map settled_value results /\
    processedCount st' = processedCount st + Z.of_nat (length results) /\
    trace st' =
    trace st ++ batch_progress onProgress totalTokens (processedCount st)
                  (length results).
Proof.
  induction results as [| result rest IH]; intros st.
  - cbn. rewrite app_nil_r, Z.add_0_r. unfold batch_progress.
    destruct onProgress; cbn; rewrite app_nil_r; auto.
  - cbn [forEach_result]. cbv zeta.
    match goal with
    | |- context [forEach_result _ _ _ ?s] => specialize (IH s)
    end.
    cbv zeta in IH. destruct IH as (Hn & Hc & Ht).
    rewrite Hn, Hc, Ht. cbn [nfts processedCount trace].
    repeat split.
    + cbn [flat_map].
      destruct result as [[value |] | e]; cbn [settled_value];
        rewrite <- ?app_assoc; reflexivity.
    + cbn [length]. lia.
    + unfold batch_progress. destruct onProgress.
      * cbn [length seq map]. rewrite <- app_assoc. cbn [app].
        do 2 f_equal.
        rewrite <- (seq_shift (length rest) 1), map_map. apply map_ext. intros k.
        f_equal. lia.
      * reflexivity.
Qed.

Lemma run_batch_spec st i :
  let st' := run_batch ch addr onProgress totalTokens st i in
  let indices := batch_indices totalTokens i in
  nfts st' = nfts st ++ flat_map (fetched ch addr) indices /\
  processedCount st' = processedCount st + Z.of_nat (length indices) /\
  trace st' =
  trace st ++ map Fetch indices ++
    batch_progress onProgress totalTokens (processedCount st) (length indices).
Proof.
  cbv zeta. unfold run_batch.
  match goal with
  | |- context [forEach_result ?a ?b ?c ?s] =>
      pose proof (forEach_result_spec c s) as H
  end.
  cbv zeta in H. destruct H as (Hn & Hc & Ht).
  rewrite Hn, Hc, Ht. cbn [nfts processedCount trace].
  rewrite !length_map. fold (batch_indices totalTokens i).
  repeat split.
  - f_equal. rewrite map_map.
    induction (batch_indices totalTokens i) as [| j js IH]; [reflexivity |].
    cbn [map flat_map]. rewrite IH. reflexivity.
  - rewrite <- app_assoc. reflexivity.
Qed.

Lemma batches_cover :
  flat_map (batch_indices totalTokens) (for_range 0 totalTokens batchSize) =
  for_range 0 totalTokens 1.
Proof.
  assert (forall n lo,
             (Z.to_nat (totalTokens - lo) <= n)%nat ->
             flat_map (batch_indices totalTokens)
               (for_range lo totalTokens batchSize) =
             for_range lo totalTokens 1) as H.
  { unfold batch_indices, batchSize.
    induction n as [| n IH]; intros lo Hn.
    - rewrite (for_range_empty lo totalTokens 5),
        (for_range_empty lo totalTokens 1) by lia.
      reflexivity.
    - destruct (Z.le_gt_cases totalTokens lo) as [Hle | Hgt].
      + rewrite (for_range_empty lo totalTokens 5),
          (for_range_empty lo totalTokens 1) by lia.
        reflexivity.
      + rewrite (for_range_cons lo totalTokens 5) by lia.
        cbn [flat_map]. rewrite IH by lia.
        destruct (Z.le_gt_cases (lo + 5) totalTokens).
        * rewrite Z.min_l by lia. apply for_range_app. lia.
        * rewrite Z.min_r by lia.
          rewrite (for_range_empty (lo + 5)) by lia. apply app_nil_r. }
  apply (H (Z.to_nat totalTokens)). lia.
Qed.

Lemma fetched_indices_app a b :
  fetched_indices (a ++ b) = fetched_indices a ++ fetched_indices b.
Proof. apply flat_map_app. Qed.

Lemma fetched_indices_Fetch js : fetched_indices (map Fetch js) = js.
Proof.
  unfold fetched_indices.
  induction js as [| j js IH]; cbn [map flat_map app]; [| rewrite IH];
    reflexivity.
Qed.

Lemma fetched_indices_progress count n :
  fetched_indices (batch_progress onProgress totalTokens count n) = [].
Proof.
  unfold batch_progress. destruct onProgress; [| reflexivity].
  induction (seq 1 n) as [| k ks IH]; [reflexivity | exact IH].
Qed.

Lemma fold_run_batch starts :
  forall st,
    let st' :=
      fold_left (run_batch ch addr onProgress totalTokens) starts st in
    nfts st' =
    nfts st ++
      flat_map (fetched ch addr) (flat_map (batch_indices totalTokens) starts) /\
    fetched_indices (trace st') =
    fetched_indices (trace st) ++ flat_map (batch_indices totalTokens) starts.
Proof.
  induction starts as [| i starts IH]; intros st; cbv zeta.
  - cbn. rewrite !app_nil_r. auto.
  - cbn [fold_left flat_map]. specialize (IH (run_batch ch addr onProgress totalTokens st i)).
    cbv zeta in IH. destruct IH as (Hn & Ht). rewrite Hn, Ht.
    destruct (run_batch_spec st i) as (Hn1 & _ & Ht1).
    rewrite Hn1, Ht1.
    rewrite !fetched_indices_app, fetched_indices_Fetch,
      fetched_indices_progress, app_nil_r.
    rewrite flat_map_app, <- !app_assoc. auto.
Qed.

End BatchLoop.

(** The collection fetcher, once the supply is read: the records of the
    indices below the cap, in index order, and one fetch per index. *)
Lemma getNFTsFromContract_scan ch addr onProgress supply :
  totalSupply ch = Normal supply ->
  fst (getNFTsFromContract ch addr onProgress) =
  Normal (flat_map (fetched ch addr) (for_range 0 (Z.min supply maxNFTs) 1)) /\
  fetched_indices (snd (getNFTsFromContract ch addr onProgress)) =
  for_range 0 (Z.min supply maxNFTs) 1.
Proof.
  intros Hs. unfold getNFTsFromContract. rewrite Hs.
  destruct (Z.eqb_spec (Z.min supply maxNFTs) 0) as [H0 | H0].
  - rewrite H0. split; reflexivity.
  - cbn [fst snd].
    match goal with
    | |- context [fold_left ?f ?l ?s] =>
        pose proof (fold_run_batch ch addr onProgress
                      (Z.min supply maxNFTs) l s) as H
    end.
    cbv zeta in H. destruct H as (Hn & Ht).
    rewrite Hn, Ht, batches_cover. split; reflexivity.
Qed.

(** ** Decimal strings *)

Lemma lit_inj s t : lit s = lit t -> s = t.
Proof.
  unfold lit. intros H.
  rewrite <- (string_of_list_ascii_of_string s),
    <- (string_of_list_ascii_of_string t).
  f_equal. revert H.
  generalize (list_ascii_of_string s) (list_ascii_of_string t).
  induction l as [| a l IH]; intros [| b l']; cbn; try discriminate;
    [reflexivity |].
  intros [= Hab Hl]. f_equal; [| apply IH; exact Hl].
  rewrite <- (ascii_N_embedding a), <- (ascii_N_embedding b).
  f_equal. lia.
Qed.

Lemma digits_inj n m : 0 <= n -> 0 <= m -> digits n = digits m -> n = m.
Proof.
  unfold digits. intros Hn Hm H. apply lit_inj in H.
  assert (forall k, N.to_uint k <> Decimal.Nil) as Hnn.
  { intros [| p]; [discriminate | apply DecimalPos.Unsigned.to_uint_nonnil]. }
  assert (N.to_uint (Z.to_N n) = N.to_uint (Z.to_N m)) as E.
  { pose proof (NilZero.usu _ (Hnn (Z.to_N n))) as H1.
    pose proof (NilZero.usu _ (Hnn (Z.to_N m))) as H2.
    rewrite H in H1. congruence. }
  apply DecimalN.Unsigned.to_uint_inj in E. lia.
Qed.

Lemma toString_inj n m : 0 <= n -> 0 <= m -> toString n = toString m -> n = m.
Proof.
  unfold toString. intros Hn Hm.
  destruct (Z.ltb_spec n 0); [lia |]. destruct (Z.ltb_spec m 0); [lia |].
  apply digits_inj; assumption.
Qed.

(** ** The single-token fetcher *)

Lemma fetchNFTData_log ch addr j call :
  snd (fetchNFTData ch addr j call) =
  [CallTokenURI (BNumber j) call; CallOwnerOf (BNumber j) call].
Proof. reflexivity. Qed.

Lemma fetchNFTData_never_throws ch addr j call :
  exists result, fst (fetchNFTData ch addr j call) = Normal result.
Proof.
  unfold fetchNFTData, read_token. cbn [fst].
  match goal with
  | |- exists r, try_catch ?c _ = _ => destruct c as [r | e]
  end; cbn [try_catch]; eauto.
Qed.

Lemma fetchNFTData_tokenId ch addr j call nft :
  fst (fetchNFTData ch addr j call) = Normal (Some nft) ->
  tokenId nft = toString j.
Proof.
  unfold fetchNFTData, read_token. cbn [fst].
  destruct (Promise_all2 _ _ _) as [[uri own] | e]; cbn [bind try_catch];
    [| discriminate].
  destruct (decodeDataURI uri) as [txt | e]; cbn [bind try_catch];
    [| discriminate].
  destruct (JSON_parse txt) as [md | e]; cbn [bind try_catch];
    [| discriminate].
  destruct (get_image md) as [img | e]; cbn [bind try_catch];
    [| discriminate].
  destruct (substring_opt img) as [u | e]; cbn [bind try_catch];
    [| discriminate].
  intros [= <-]. reflexivity.
Qed.

Lemma retry_attempts_never_throws ch addr j maxRetries attempts :
  exists result,
    fst (retry_attempts ch addr j maxRetries attempts) = Normal result.
Proof.
  induction attempts as [| k later IH]; cbn [retry_attempts];
    [exists None; reflexivity |].
  destruct (fetchNFTData ch addr j k) as [outcome log].
  destruct outcome as [[nft |] | e]; cbn [bind];
    [exists (Some nft); reflexivity | |];
    destruct (retry_attempts ch addr j maxRetries later) as [final log'];
    exact IH.
Qed.

Lemma fetchNFTDataWithRetry_never_throws ch addr j maxRetries :
  exists result,
    fst (fetchNFTDataWithRetry ch addr j maxRetries) = Normal result.
Proof. apply retry_attempts_never_throws. Qed.

Lemma retry_attempts_tokenId ch addr j maxRetries attempts nft :
  fst (retry_attempts ch addr j maxRetries attempts) = Normal (Some nft) ->
  tokenId nft = toString j.
Proof.
  induction attempts as [| k later IH]; cbn [retry_attempts]; [discriminate |].
  pose proof (fetchNFTData_tokenId ch addr j k) as Hk.
  destruct (fetchNFTData ch addr j k) as [outcome log]. cbn [fst] in Hk.
  destruct outcome as [[nft' |] | e]; cbn [bind].
  - intros [= <-]. apply Hk. reflexivity.
  - destruct (retry_attempts ch addr j maxRetries later) as [final log'].
    exact IH.
  - destruct (retry_attempts ch addr j maxRetries later) as [final log'].
    exact IH.
Qed.

Lemma fetched_tokenId ch addr j :
  fetched ch addr j = [] \/
  exists nft, fetched ch addr j = [nft] /\ tokenId nft = toString j.
Proof.
  unfold fetched, fetchNFTDataWithRetry.
  pose proof (retry_attempts_tokenId ch addr j 3 (for_range 1 (3 + 1) 1)) as H.
  destruct (fst (retry_attempts ch addr j 3 (for_range 1 (3 + 1) 1)))
    as [[nft |] | e]; cbn [settled_value]; eauto.
Qed.

(** ** The collection fetcher: C1, C7, C8 *)




Lemma for_range_length lo hi : length (for_range lo hi 1) = Z.to_nat (hi - lo).
Proof. rewrite for_range_seq, length_map, length_seq. reflexivity. Qed.

Lemma flat_map_fetched_length ch addr js :
  (length (flat_map (fetched ch addr) js) <= length js)%nat.
Proof.
  induction js as [| j js IH]; cbn [flat_map length]; [lia |].
  rewrite length_app.
  destruct (fetched_tokenId ch addr j) as [-> | (nft & -> & _)];
    cbn [length]; lia.
Qed.

(** C7.  Once the supply is read, the collection fetcher fetches exactly
    the indices 0 .. min(totalSupply, 30) - 1, each once and in order, and
    returns at most that many records; a supply of 0 gives an empty result
    and no progress call; a supply of 45 has the indices 0 to 29 fetched and
    at most 30 records returned. *)
Theorem getNFTsFromContract_scan_cap ch addr onProgress supply :
  totalSupply ch = Normal supply ->
  let run := getNFTsFromContract ch addr onProgress in
  fetched_indices (snd run) =
    map Z.of_nat (seq 0 (Z.to_nat (Z.min supply 30))) /\
  (exists records,
      fst run = Normal records /\
      (length records <= Z.to_nat (Z.min supply 30))%nat) /\
  (supply = 0 -> run = (Normal [], [])) /\
  (supply = 45 ->
   fetched_indices (snd run) = map Z.of_nat (seq 0 30) /\
   exists records, fst run = Normal records /\ (length records <= 30)%nat).
Proof.
  intros Hs run.
  destruct (getNFTsFromContract_scan ch addr onProgress supply Hs) as (Hr & Hf).
  fold run in Hr, Hf. change maxNFTs with 30 in *.
  assert (fetched_indices (snd run) =
          map Z.of_nat (seq 0 (Z.to_nat (Z.min supply 30)))) as Hidx.
  { rewrite Hf, for_range_seq, Z.sub_0_r. apply map_ext. intros k. lia. }
  assert (exists records,
             fst run = Normal records /\
             (length records <= Z.to_nat (Z.min supply 30))%nat) as Hlen.
  { eexists. split; [exact Hr |].
    etransitivity; [apply flat_map_fetched_length |].
    rewrite for_range_length. lia. }
  repeat split.
  - exact Hidx.
  - exact Hlen.
  - intros ->. subst run. unfold getNFTsFromContract. rewrite Hs. reflexivity.
  - subst supply. exact Hidx.
  - subst supply. exact Hlen.
Qed.

Lemma getNFTsFromContract_scan_cap_witness :
  totalSupply (sample_chain 45) = Normal 45 /\
  fetched_indices
    (snd (getNFTsFromContract (sample_chain 45) sample_address true)) =
  map Z.of_nat (seq 0 30).
Proof.
  split; [reflexivity |].
  exact (proj1 (getNFTsFromContract_scan_cap (sample_chain 45) sample_address
                  true 45 eq_refl)).
Defined.

Lemma for_range_sorted lo hi : StronglySorted Z.lt (for_range lo hi 1).
Proof.
  remember (Z.to_nat (hi - lo)) as n eqn:Hn.
  revert lo Hn. induction n as [| n IH]; intros lo Hn.
  - rewrite for_range_empty by lia. constructor.
  - rewrite for_range_cons by lia. constructor; [apply IH; lia |].
    rewrite for_range_seq. apply Forall_forall. intros x Hx.
    apply in_map_iff in Hx as (k & <- & _). lia.
Qed.

Lemma for_range_bounds lo hi x : In x (for_range lo hi 1) -> lo <= x < hi.
Proof.
  rewrite for_range_seq. intros Hx.
  apply in_map_iff in Hx as (k & <- & Hk). apply in_seq in Hk. lia.
Qed.

(** The records of a list of indices carry the decimal strings of a
    sublist of the indices, in the same order. *)
Lemma flat_map_fetched_ids ch addr indices :
  StronglySorted Z.lt indices ->
  exists js,
    map tokenId (flat_map (fetched ch addr) indices) = map toString js /\
    StronglySorted Z.lt js /\
    incl js indices.
Proof.
  induction 1 as [| j rest Hsorted IH Hlt].
  - exists []. repeat split; [constructor | apply incl_refl].
  - destruct IH as (js & Hmap & Hjs & Hincl). cbn [flat_map].
    rewrite map_app, Hmap.
    destruct (fetched_tokenId ch addr j) as [-> | (nft & -> & Hid)].
    + exists js. repeat split; [exact Hjs | apply incl_tl; exact Hincl].
    + exists (j :: js). cbn [map app]. rewrite Hid. repeat split.
      * constructor; [exact Hjs |].
        apply Forall_forall. intros x Hx.
        apply (proj1 (Forall_forall _ _) Hlt). apply Hincl. exact Hx.
      * apply incl_cons; [left; reflexivity | apply incl_tl; exact Hincl].
Qed.

Lemma StronglySorted_lt_NoDup js : StronglySorted Z.lt js -> NoDup js.
Proof.
  induction 1 as [| j js _ IH Hlt]; constructor; [| exact IH].
  intros Hin. apply (proj1 (Forall_forall _ _) Hlt) in Hin. lia.
Qed.

Lemma NoDup_map_toString js :
  Forall (fun t => 0 <= t) js -> NoDup js -> NoDup (map toString js).
Proof.
  intros Hpos Hnd. induction Hnd as [| j js Hnin _ IH]; [constructor |].
  inversion Hpos as [| ? ? Hj Hjs]; subst.
  cbn [map]. constructor; [| apply IH; exact Hjs].
  intros Hin. apply in_map_iff in Hin as (k & Hk & Hkin).
  apply Hnin. apply toString_inj in Hk.
  - subst k. exact Hkin.
  - apply (proj1 (Forall_forall _ _) Hjs). exact Hkin.
  - exact Hj.
Qed.

(** C8.  The records returned by a successful run carry the decimal
    strings of token indices taken from the scanned range
    [0, min(totalSupply, 30)) in increasing order: no token id occurs
    twice, none comes from outside the range, and the order of the records
    is the order of their indices. *)
Theorem getNFTsFromContract_unique_ordered ch addr onProgress supply records :
  totalSupply ch = Normal supply ->
  fst (getNFTsFromContract ch addr onProgress) = Normal records ->
  exists js,
    map tokenId records = map toString js /\
    StronglySorted Z.lt js /\
    Forall (fun t => 0 <= t < Z.min supply 30) js /\
    NoDup (map tokenId records).
Proof.
  intros Hs Hr.
  destruct (getNFTsFromContract_scan ch addr onProgress supply Hs) as (Hr' & _).
  rewrite Hr in Hr'. injection Hr' as ->. change maxNFTs with 30.
  destruct (flat_map_fetched_ids ch addr (for_range 0 (Z.min supply 30) 1)
              (for_range_sorted _ _)) as (js & Hmap & Hsorted & Hincl).
  assert (Forall (fun t => 0 <= t < Z.min supply 30) js) as Hrange.
  { apply Forall_forall. intros x Hx. apply for_range_bounds, Hincl, Hx. }
  exists js. repeat split; try assumption.
  rewrite Hmap. apply NoDup_map_toString.
  - apply Forall_forall. intros x Hx.
    apply (proj1 (Forall_forall _ _) Hrange) in Hx. lia.
  - apply StronglySorted_lt_NoDup. exact Hsorted.
Qed.

Lemma getNFTsFromContract_unique_ordered_witness :
  totalSupply (sample_chain 7) = Normal 7 /\
  map tokenId (sample_records 7) =
  map toString [0; 1; 3; 4; 5; 6] /\
  exists js,
    map tokenId (sample_records 7) = map toString js /\
    StronglySorted Z.lt js /\
    Forall (fun t => 0 <= t < Z.min 7 30) js /\
    NoDup (map tokenId (sample_records 7)).
Proof.
  split; [reflexivity |]. split; [vm_compute; reflexivity |].
  apply (getNFTsFromContract_unique_ordered (sample_chain 7) sample_address
           true 7 (sample_records 7)); vm_compute; reflexivity.
Defined.

(** ** Retry: C9 *)

Lemma retry_attempts_all_fail ch addr j maxRetries attempts :
  (forall k, In k attempts -> fst (fetchNFTData ch addr j k) = Normal None) ->
  retry_attempts ch addr j maxRetries attempts =
  (Normal None, exhausted_log j maxRetries attempts).
Proof.
  induction attempts as [| k later IH]; intros Hfail; [reflexivity |].
  cbn [retry_attempts].
  pose proof (Hfail k (or_introl eq_refl)) as Hk.
  pose proof (fetchNFTData_log ch addr j k) as Hlog.
  destruct (fetchNFTData ch addr j k) as [outcome log].
  cbn [fst snd] in Hk, Hlog. subst outcome log. cbn [bind].
  rewrite IH by (intros k' Hin; apply Hfail; right; exact Hin).
  unfold exhausted_log. cbn [flat_map]. rewrite <- !app_assoc. reflexivity.
Qed.

Lemma sleeps_exhausted_log j maxRetries attempts :
  sleeps (exhausted_log j maxRetries attempts) =
  map (fun k => 1000 * k) (filter (fun k => k <? maxRetries) attempts).
Proof.
  unfold sleeps, exhausted_log.
  induction attempts as [| k later IH]; [reflexivity |].
  cbn [flat_map filter]. rewrite flat_map_app, IH.
  destruct (k <? maxRetries); reflexivity.
Qed.

Lemma attempts_before_last maxRetries :
  filter (fun k => k <? maxRetries) (for_range 1 (maxRetries + 1) 1) =
  map (fun k => Z.of_nat k) (seq 1 (Z.to_nat (maxRetries - 1))).
Proof.
  destruct (Z.le_gt_cases maxRetries 0) as [Hle | Hgt].
  - rewrite for_range_empty by lia.
    replace (Z.to_nat (maxRetries - 1)) with 0%nat by lia. reflexivity.
  - rewrite <- (for_range_app 1 maxRetries (maxRetries + 1)) by lia.
    rewrite filter_app.
    rewrite (for_range_cons maxRetries), (for_range_empty (maxRetries + 1))
      by lia.
    cbn [filter]. rewrite Z.ltb_irrefl, app_nil_r.
    rewrite forallb_filter_id.
    + rewrite for_range_seq, <- seq_shift, map_map.
      apply map_ext. intros k. lia.
    + apply forallb_forall. intros x Hx.
      apply for_range_bounds in Hx. apply Z.ltb_lt. lia.
Qed.

(** C9.  When every attempt of the budget fails, the retrying fetcher
    returns null and does not throw; its log is the reads of attempts
    1 .. maxRetries with, after each attempt k but the last, one wait of
    k * 1000 ms; with the default budget of 3 these are the waits 1000 and
    2000.  In a collection run the token is then left out and nothing else
    changes: the run returns the records of all the other scanned
    indices. *)
Theorem fetchNFTDataWithRetry_exhausted ch addr j maxRetries :
  (forall k, 1 <= k <= maxRetries ->
             fst (fetchNFTData ch addr j k) = Normal None) ->
  let run := fetchNFTDataWithRetry ch addr j maxRetries in
  fst run = Normal None /\
  snd run =
    exhausted_log j maxRetries
      (map Z.of_nat (seq 1 (Z.to_nat maxRetries))) /\
  sleeps (snd run) =
    map (fun k => 1000 * Z.of_nat k) (seq 1 (Z.to_nat (maxRetries - 1))) /\
  (maxRetries = 3 ->
   snd run =
   [CallTokenURI (BNumber j) 1; CallOwnerOf (BNumber j) 1; Sleep 1000;
    CallTokenURI (BNumber j) 2; CallOwnerOf (BNumber j) 2; Sleep 2000;
    CallTokenURI (BNumber j) 3; CallOwnerOf (BNumber j) 3] /\
   forall onProgress supply,
     totalSupply ch = Normal supply ->
     fst (getNFTsFromContract ch addr onProgress) =
     Normal (flat_map (fetched ch addr)
               (filter (fun i => negb (i =? j))
                  (map Z.of_nat (seq 0 (Z.to_nat (Z.min supply 30))))))).
Proof.
  intros Hfail run. subst run. unfold fetchNFTDataWithRetry.
  pose proof (retry_attempts_all_fail ch addr j maxRetries
                (for_range 1 (maxRetries + 1) 1)) as Hrun.
  rewrite Hrun.
  2:{ intros k Hk. apply Hfail. apply for_range_bounds in Hk. lia. }
  cbn [fst snd]. split; [reflexivity |]. split; [| split].
  - f_equal. rewrite for_range_seq, <- seq_shift, map_map.
    replace (Z.to_nat (maxRetries + 1 - 1)) with (Z.to_nat maxRetries) by lia.
    apply map_ext. intros k. lia.
  - rewrite sleeps_exhausted_log, attempts_before_last, map_map. reflexivity.
  - intros ->. split; [reflexivity |].
    intros onProgress supply Hs.
    destruct (getNFTsFromContract_scan ch addr onProgress supply Hs) as (-> & _).
    f_equal. change maxNFTs with 30.
    rewrite for_range_seq, Z.sub_0_r.
    assert (fetched ch addr j = []) as Hj.
    { unfold fetched, fetchNFTDataWithRetry. rewrite Hrun; [reflexivity |].
      intros k Hk. apply Hfail. apply for_range_bounds in Hk. lia. }
    rewrite (map_ext (fun k => 0 + Z.of_nat k) Z.of_nat) by (intros; lia).
    induction (seq 0 (Z.to_nat (Z.min supply 30))) as [| k ks IH];
      [reflexivity |].
    cbn [map filter flat_map]. rewrite IH.
    destruct (Z.eqb_spec (Z.of_nat k) j) as [E | E]; cbn [negb flat_map].
    + rewrite E, Hj. reflexivity.
    + reflexivity.
Qed.

Lemma fetchNFTDataWithRetry_exhausted_witness :
  (forall k, 1 <= k <= 3 ->
             fst (fetchNFTData (sample_chain 7) sample_address 2 k) = Normal None) /\
  fst (fetchNFTDataWithRetry (sample_chain 7) sample_address 2 3) = Normal None /\
  sleeps (snd (fetchNFTDataWithRetry (sample_chain 7) sample_address 2 3)) =
  [1000; 2000].
Proof.
  assert (forall k, 1 <= k <= 3 ->
                    fst (fetchNFTData (sample_chain 7) sample_address 2 k) =
                    Normal None) as Hfail
    by (intros k _; reflexivity).
  split; [exact Hfail |].
  destruct (fetchNFTDataWithRetry_exhausted (sample_chain 7) sample_address 2 3
              Hfail) as (Hnull & _ & Hsleeps & _).
  split; [exact Hnull | exact Hsleeps].
Defined.

(** ** The single definite lookup: C10 *)

(** C10.  [getNFTById] makes one attempt: whichever step fails (a read, the
    URI decoding or the JSON parsing), it throws the error of that step
    after exactly one read of [tokenURI] and one of [ownerOf], with no wait
    and no second attempt. *)
Theorem getNFTById_no_retry ch addr id e :
  step_fails ch id e ->
  getNFTById ch addr id =
    (Throw e, [CallTokenURI (BString id) 1; CallOwnerOf (BString id) 1]) /\
  sleeps (snd (getNFTById ch addr id)) = [].
Proof.
  intros Hstep. split; [| reflexivity].
  unfold getNFTById, read_token.
  destruct Hstep as [e own Hu Ho | uri e Hu Ho | e1 e2 Hu Ho
                    | uri own e Hu Ho Hd | uri own text e Hu Ho Hd Hp];
    rewrite Hu, Ho; cbn [Promise_all2 bind try_catch];
    rewrite ?Hd; cbn [bind try_catch]; rewrite ?Hp; reflexivity.
Qed.

(** When no step fails, the lookup returns the record, again after one
    read of each kind. *)
Lemma getNFTById_success ch addr id uri own text md :
  tokenURI ch (BString id) 1 = Normal uri ->
  ownerOf ch (BString id) 1 = Normal own ->
  decodeDataURI uri = Normal text ->
  JSON_parse text = Normal md ->
  getNFTById ch addr id =
  (Normal {| tokenId := id; contractAddress := addr; owner := own;
             metadata := md |},
   [CallTokenURI (BString id) 1; CallOwnerOf (BString id) 1]).
Proof.
  intros Hu Ho Hd Hp. unfold getNFTById, read_token. rewrite Hu, Ho.
  cbn [Promise_all2 bind try_catch]. rewrite Hd. cbn [bind].
  rewrite Hp. reflexivity.
Qed.

Lemma getNFTById_no_retry_witness :
  step_fails (sample_chain 7) (lit "0") (CallError 3) /\
  getNFTById (sample_chain 7) sample_address (lit "0") =
    (Throw (CallError 3),
     [CallTokenURI (BString (lit "0")) 1; CallOwnerOf (BString (lit "0")) 1]).
Proof.
  assert (step_fails (sample_chain 7) (lit "0") (CallError 3)) as Hstep
    by (eapply tokenURI_fails; reflexivity).
  split; [exact Hstep |].
  exact (proj1 (getNFTById_no_retry (sample_chain 7) sample_address (lit "0")
                  (CallError 3) Hstep)).
Defined.

(** ** Metadata without an image: C2 *)

(** C2, at the failing input: the metadata of token 3 of the sample chain
    parses to an object without [image], and the code does not treat the
    attempt as a failure: the record is returned by the single-token
    fetcher and by the collection fetcher. *)
Lemma missing_image_is_not_a_failure :
  (text <- decodeDataURI (lit "data:application/json;base64,eyJuYW1lIjoiVGVzdCJ9") ;;
   JSON_parse text) = Normal (JObject [(lit "name", JString (lit "Test"))]) /\
  lookup (lit "image") [(lit "name", JString (lit "Test"))] = None /\
  fetchNFTDataWithRetry (sample_chain 7) sample_address 3 3 =
    (Normal (Some {| tokenId := lit "3";
                     contractAddress := sample_address;
                     owner := lit "0x90DF88f5c189cb3561E8da30182804Bc36F24361";
                     metadata := JObject [(lit "name", JString (lit "Test"))] |}),
     [CallTokenURI (BNumber 3) 1; CallOwnerOf (BNumber 3) 1]) /\
  fst (fetchNFTData (sample_chain 7) sample_address 3 1) <> Normal None /\
  map (fun nft => get_image (metadata nft)) (sample_records 7) =
    [Normal (Some (JString (lit "https://example.org/t.png")));
     Normal (Some (JString (lit "https://example.org/t.png")));
     Normal None;
     Normal (Some (JString (lit "https://example.org/t.png")));
     Normal (Some (JString (lit "https://example.org/t.png")));
     Normal (Some (JString (lit "https://example.org/t.png")))].
Proof.
  split; [vm_compute; reflexivity |]. split; [reflexivity |].
  split; [vm_compute; reflexivity |]. split; [| vm_compute; reflexivity].
  vm_compute. intros H. discriminate H.
Qed.

(** C2.  The code diverges from the claim.  When both reads of an attempt
    succeed and the decoded token URI parses as a JSON object without an
    [image] member, the code does not treat the attempt as a failure: the
    single-token fetcher returns a record with that metadata, whose [image]
    types/NFTTypes.ts declares as required, and when this is the first
    attempt the retrying fetcher returns it without a retry or a wait. *)
Theorem fetchNFTData_accepts_missing_image
  ch addr j call uri own text members :
  tokenURI ch (BNumber j) call = Normal uri ->
  ownerOf ch (BNumber j) call = Normal own ->
  decodeDataURI uri = Normal text ->
  JSON_parse text = Normal (JObject members) ->
  lookup (lit "image") members = None ->
  let record := {| tokenId := toString j;
                   contractAddress := addr;
                   owner := own;
                   metadata := JObject members |} in
  fst (fetchNFTData ch addr j call) = Normal (Some record) /\
  (call = 1 ->
   fetchNFTDataWithRetry ch addr j 3 =
   (Normal (Some record),
    [CallTokenURI (BNumber j) 1; CallOwnerOf (BNumber j) 1])).
Proof.
  intros Hu Ho Hd Hp Himg record.
  assert (fetchNFTData ch addr j call =
          (Normal (Some record),
           [CallTokenURI (BNumber j) call; CallOwnerOf (BNumber j) call])) as Hf.
  { unfold fetchNFTData, read_token. rewrite Hu, Ho.
    cbn [Promise_all2 bind]. rewrite Hd. cbn [bind]. rewrite Hp.
    cbn [bind get_image]. rewrite Himg. reflexivity. }
  split; [rewrite Hf; reflexivity |].
  intros ->. unfold fetchNFTDataWithRetry.
  change (for_range 1 (3 + 1) 1) with [1; 2; 3].
  cbn [retry_attempts]. rewrite Hf. reflexivity.
Qed.

Lemma fetchNFTData_accepts_missing_image_witness :
  tokenURI (sample_chain 7) (BNumber 3) 1 =
    Normal (lit "data:application/json;base64,eyJuYW1lIjoiVGVzdCJ9") /\
  fst (fetchNFTData (sample_chain 7) sample_address 3 1) =
  Normal (Some {| tokenId := toString 3;
                  contractAddress := sample_address;
                  owner := lit "0x90DF88f5c189cb3561E8da30182804Bc36F24361";
                  metadata := JObject [(lit "name", JString (lit "Test"))] |}).
Proof.
  split; [reflexivity |].
  exact (proj1 (fetchNFTData_accepts_missing_image (sample_chain 7)
                  sample_address 3 1
                  (lit "data:application/json;base64,eyJuYW1lIjoiVGVzdCJ9")
                  (lit "0x90DF88f5c189cb3561E8da30182804Bc36F24361")
                  (qlit "{'name':'Test'}")
                  [(lit "name", JString (lit "Test"))]
                  eq_refl eq_refl eq_refl eq_refl eq_refl)).
Defined.

(** ** The JSON parser never runs out of fuel *)

Lemma skip_ws_length s : (length (skip_ws s) <= length s)%nat.
Proof.
  induction s as [| c r IH]; cbn [skip_ws length]; [lia |].
  destruct (is_json_ws c); cbn [length]; lia.
Qed.

Lemma span_digits_length s :
  (length (snd (span_digits s)) <= length s)%nat.
Proof.
  induction s as [| c r IH]; cbn [span_digits length snd]; [lia |].
  destruct (is_digit c); [| cbn [snd length]; lia].
  destruct (span_digits r) as [ds rest]. cbn [snd] in *. lia.
Qed.

Lemma lex_string_length n :
  forall s body rest,
    (length s <= n)%nat ->
    lex_string s = POk body rest -> (length rest < length s)%nat.
Proof.
  induction n as [| n IH]; intros s body rest Hn.
  - destruct s; [discriminate | cbn in Hn; lia].
  - destruct s as [| c r]; [discriminate |]. cbn [length] in *.
    cbn [lex_string].
    destruct (c =? 34); [intros [= _ <-]; lia |].
    destruct (c =? 92).
    + destruct r as [| e r1]; [discriminate |]. cbn [length] in *.
      destruct (e =? 117).
      * destruct r1 as [| h1 [| h2 [| h3 [| h4 r2]]]]; try discriminate.
        cbn [length] in *.
        destruct (hex4 h1 h2 h3 h4); [| discriminate].
        destruct (lex_string r2) as [b rest' | |] eqn:E; try discriminate.
        intros [= _ <-]. apply IH in E; lia.
      * destruct (simple_escape e); [| discriminate].
        destruct (lex_string r1) as [b rest' | |] eqn:E; try discriminate.
        intros [= _ <-]. apply IH in E; lia.
    + destruct (c <? 32); [discriminate |].
      destruct (lex_string r) as [b rest' | |] eqn:E; try discriminate.
      intros [= _ <-]. apply IH in E; lia.
Qed.

Lemma lex_string_not_fuel s : lex_string s <> PFuel.
Proof.
  assert (forall n s, (length s <= n)%nat -> lex_string s <> PFuel) as H.
  { induction n as [| n IH]; intros t Hn.
    - destruct t; [discriminate | cbn in Hn; lia].
    - destruct t as [| c r]; [discriminate |]. cbn [length] in *.
      cbn [lex_string].
      destruct (c =? 34); [discriminate |].
      destruct (c =? 92).
      + destruct r as [| e r1]; [discriminate |].
        destruct (e =? 117).
        * destruct r1 as [| h1 [| h2 [| h3 [| h4 r2]]]]; try discriminate.
          destruct (hex4 h1 h2 h3 h4); [| discriminate].
          destruct (lex_string r2); discriminate.
        * destruct (simple_escape e); [| discriminate].
          destruct (lex_string r1); discriminate.
      + destruct (c <? 32); [discriminate |].
        destruct (lex_string r); discriminate. }
  apply (H (length s)). lia.
Qed.

Lemma lex_number_length s v rest :
  lex_number s = POk v rest -> (length rest < length s)%nat.
Proof.
  unfold lex_number.
  assert (forall t int t2, lex_int t = Some (int, t2) ->
                           (length t2 < length t)%nat) as Hint.
  { intros [| d r] int t2; cbn [lex_int]; [discriminate |].
    destruct (d =? 48); [intros [= _ <-]; cbn; lia |].
    destruct (between 49 57 d); [| discriminate].
    pose proof (span_digits_length r).
    destruct (span_digits r) as [ds rest']. intros [= _ <-].
    cbn [snd length] in *. lia. }
  assert (forall t frac t2, lex_frac t = Some (frac, t2) ->
                            (length t2 <= length t)%nat) as Hfrac.
  { intros [| c r] frac t2; cbn [lex_frac]; [intros [= _ <-]; lia |].
    destruct (c =? 46); [| intros [= _ <-]; lia].
    pose proof (span_digits_length r).
    destruct (span_digits r) as [[| d0 ds] rest']; [discriminate |].
    intros [= _ <-]. cbn [snd length] in *. lia. }
  assert (forall t exp t2, lex_exp t = Some (exp, t2) ->
                           (length t2 <= length t)%nat) as Hexp.
  { intros [| c r] exp t2; cbn [lex_exp]; [intros [= _ <-]; lia |].
    destruct ((c =? 101) || (c =? 69)); [| intros [= _ <-]; lia].
    destruct r as [| g r'].
    - cbn. discriminate.
    - destruct ((g =? 43) || (g =? 45)).
      + pose proof (span_digits_length r').
        destruct (span_digits r') as [[| d0 ds] rest']; [discriminate |].
        intros [= _ <-]. cbn [snd length] in *. lia.
      + pose proof (span_digits_length (g :: r')).
        destruct (span_digits (g :: r')) as [[| d0 ds] rest']; [discriminate |].
        intros [= _ <-]. cbn [snd length] in *. lia. }
  destruct s as [| c r].
  - cbn. discriminate.
  - destruct (c =? 45).
    + destruct (lex_int r) as [[int s2] |] eqn:E1; [| discriminate].
      destruct (lex_frac s2) as [[frac s3] |] eqn:E2; [| discriminate].
      destruct (lex_exp s3) as [[exp s4] |] eqn:E3; [| discriminate].
      intros [= _ <-]. apply Hint in E1. apply Hfrac in E2. apply Hexp in E3.
      cbn [length]. lia.
    + destruct (lex_int (c :: r)) as [[int s2] |] eqn:E1; [| discriminate].
      destruct (lex_frac s2) as [[frac s3] |] eqn:E2; [| discriminate].
      destruct (lex_exp s3) as [[exp s4] |] eqn:E3; [| discriminate].
      intros [= _ <-]. apply Hint in E1. apply Hfrac in E2. apply Hexp in E3.
      lia.
Qed.

Lemma lex_number_not_fuel s : lex_number s <> PFuel.
Proof.
  unfold lex_number.
  destruct (match s with
            | [] => ([], [])
            | c :: r => if c =? 45 then ([c], r) else ([], s)
            end) as [sign s1].
  destruct (lex_int s1) as [[int s2] |]; [| discriminate].
  destruct (lex_frac s2) as [[frac s3] |]; [| discriminate].
  destruct (lex_exp s3) as [[exp s4] |]; discriminate.
Qed.

Lemma lex_literal_length word v s v' rest :
  word <> [] ->
  lex_literal word v s = POk v' rest -> (length rest < length s)%nat.
Proof.
  unfold lex_literal. intros Hw.
  destruct (startsWith word s) eqn:E; [| discriminate].
  intros [= _ <-]. apply startsWith_inv in E as [b ->].
  rewrite length_skipn, length_app.
  destruct word; [congruence | cbn [length]; lia].
Qed.

Lemma lex_literal_not_fuel word v s : lex_literal word v s <> PFuel.
Proof. unfold lex_literal. destruct (startsWith word s); discriminate. Qed.

Lemma parse_fuel fuel :
  (forall s, (2 * length s < fuel)%nat ->
     parse_value fuel s <> PFuel /\
     forall v rest, parse_value fuel s = POk v rest ->
                    (length rest < length s)%nat) /\
  (forall s, (2 * length s + 1 < fuel)%nat ->
     parse_elements fuel s <> PFuel /\
     forall vs rest, parse_elements fuel s = POk vs rest ->
                     (length rest < length s)%nat) /\
  (forall s, (2 * length s + 1 < fuel)%nat ->
     parse_members fuel s <> PFuel /\
     forall ms rest, parse_members fuel s = POk ms rest ->
                     (length rest < length s)%nat).
Proof.
  induction fuel as [| f (IHv & IHe & IHm)].
  - repeat split; intros; lia.
  - split; [| split]; intros s Hf.
    + destruct s as [| c r]; cbn [parse_value length] in *.
      { split; [discriminate | intros v rest H; discriminate H]. }
      pose proof (skip_ws_length r) as Hws.
      destruct (c =? 123).
      { destruct (skip_ws r) as [| d r'] eqn:E; cbn [length] in Hws.
        - split; [discriminate | intros v rest H; discriminate H].
        - destruct (d =? 125).
          + split; [discriminate |]. intros v rest [= _ <-]. lia.
          + specialize (IHm (d :: r')). cbn [length] in IHm.
            destruct (IHm ltac:(lia)) as [Hnf Hlen].
            destruct (parse_members f (d :: r')) as [ms rest' | |].
            * split; [discriminate |]. intros v rest [= _ <-].
              specialize (Hlen _ _ eq_refl). lia.
            * split; [discriminate | intros v rest H; discriminate H].
            * congruence. }
      destruct (c =? 91).
      { destruct (skip_ws r) as [| d r'] eqn:E; cbn [length] in Hws.
        - split; [discriminate | intros v rest H; discriminate H].
        - destruct (d =? 93).
          + split; [discriminate |]. intros v rest [= _ <-]. lia.
          + specialize (IHe (d :: r')). cbn [length] in IHe.
            destruct (IHe ltac:(lia)) as [Hnf Hlen].
            destruct (parse_elements f (d :: r')) as [ms rest' | |].
            * split; [discriminate |]. intros v rest [= _ <-].
              specialize (Hlen _ _ eq_refl). lia.
            * split; [discriminate | intros v rest H; discriminate H].
            * congruence. }
      destruct (c =? 34).
      { destruct (lex_string r) as [str rest' | |] eqn:E.
        - split; [discriminate |]. intros v rest [= _ <-].
          apply (lex_string_length _ _ _ _ (le_n _)) in E. lia.
        - split; [discriminate | intros v rest H; discriminate H].
        - split; [discriminate | intros v rest H; discriminate H]. }
      destruct (c =? 116).
      { split; [apply lex_literal_not_fuel |]. intros v rest H.
        apply lex_literal_length in H; [exact H | discriminate]. }
      destruct (c =? 102).
      { split; [apply lex_literal_not_fuel |]. intros v rest H.
        apply lex_literal_length in H; [exact H | discriminate]. }
      destruct (c =? 110).
      { split; [apply lex_literal_not_fuel |]. intros v rest H.
        apply lex_literal_length in H; [exact H | discriminate]. }
      split; [apply lex_number_not_fuel |]. intros v rest H.
      apply lex_number_length in H. exact H.
    + cbn [parse_elements].
      destruct (IHv s ltac:(lia)) as [Hnf Hlen].
      destruct (parse_value f s) as [v rest1 | |];
        [| split; [discriminate | intros vs rest H; discriminate H]
         | congruence].
      specialize (Hlen _ _ eq_refl).
      pose proof (skip_ws_length rest1) as Hws.
      destruct (skip_ws rest1) as [| d r'] eqn:E; cbn [length] in Hws.
      { split; [discriminate | intros vs rest H; discriminate H]. }
      destruct (d =? 44).
      * pose proof (skip_ws_length r') as Hws'.
        destruct (IHe (skip_ws r') ltac:(lia)) as [Hnf' Hlen'].
        destruct (parse_elements f (skip_ws r')) as [vs' rest' | |].
        -- split; [discriminate |]. intros vs rest [= _ <-].
           specialize (Hlen' _ _ eq_refl). lia.
        -- split; [discriminate | intros vs rest H; discriminate H].
        -- congruence.
      * destruct (d =? 93).
        -- split; [discriminate |]. intros vs rest [= _ <-]. lia.
        -- split; [discriminate | intros vs rest H; discriminate H].
    + cbn [parse_members].
      destruct s as [| q r];
        [split; [discriminate | intros ms rest H; discriminate H] |].
      cbn [length] in Hf.
      destruct (q =? 34);
        [| split; [discriminate | intros ms rest H; discriminate H]].
      destruct (lex_string r) as [k rest0 | |] eqn:Ek;
        [| split; [discriminate | intros ms rest H; discriminate H]
         | split; [discriminate | intros ms rest H; discriminate H]].
      apply (lex_string_length _ _ _ _ (le_n _)) in Ek.
      pose proof (skip_ws_length rest0) as Hws0.
      destruct (skip_ws rest0) as [| col r1] eqn:E0; cbn [length] in Hws0;
        [split; [discriminate | intros ms rest H; discriminate H] |].
      destruct (col =? 58);
        [| split; [discriminate | intros ms rest H; discriminate H]].
      pose proof (skip_ws_length r1) as Hws1.
      destruct (IHv (skip_ws r1) ltac:(lia)) as [Hnf Hlen].
      destruct (parse_value f (skip_ws r1)) as [v rest2 | |];
        [| split; [discriminate | intros ms rest H; discriminate H]
         | congruence].
      specialize (Hlen _ _ eq_refl).
      pose proof (skip_ws_length rest2) as Hws2.
      destruct (skip_ws rest2) as [| d r3] eqn:E2; cbn [length] in Hws2;
        [split; [discriminate | intros ms rest H; discriminate H] |].
      destruct (d =? 44).
      * pose proof (skip_ws_length r3) as Hws3.
        destruct (IHm (skip_ws r3) ltac:(lia)) as [Hnf' Hlen'].
        destruct (parse_members f (skip_ws r3)) as [ms' rest' | |].
        -- split; [discriminate |]. intros ms rest [= _ <-].
           specialize (Hlen' _ _ eq_refl). cbn [length]. lia.
        -- split; [discriminate | intros ms rest H; discriminate H].
        -- congruence.
      * destruct (d =? 125).
        -- split; [discriminate |]. intros ms rest [= _ <-]. cbn [length]. lia.
        -- split; [discriminate | intros ms rest H; discriminate H].
Qed.

(** The fuel that [JSON_parse] gives is enough. *)
Lemma JSON_parse_fuel text :
  parse_value (S (2 * length text)) (skip_ws text) <> PFuel.
Proof.
  destruct (parse_fuel (S (2 * length text))) as (Hv & _ & _).
  apply Hv. pose proof (skip_ws_length text). lia.
Qed.

(** * Further properties *)

(** ** extractSVGContent and the ensure-encoded transform *)

Lemma before_past_first_comma s data :
  past_first_comma s = Some data ->
  s = before_first_comma s ++ comma :: data /\
  past_first_comma (before_first_comma s) = None.
Proof.
  revert data. induction s as [| c r IH]; intros data; [discriminate |].
  cbn [past_first_comma before_first_comma].
  destruct (Z.eqb_spec c comma) as [-> | Hne].
  - intros [= <-]. split; reflexivity.
  - intros H. destruct (IH _ H) as [Heq Hnone]. split.
    + cbn [app]. rewrite <- Heq. reflexivity.
    + cbn [past_first_comma]. destruct (Z.eqb_spec c comma); [contradiction |].
      exact Hnone.
Qed.

Lemma split_header s data :
  past_first_comma s = Some data ->
  split comma s = before_first_comma s :: split comma data.
Proof.
  intros H. destruct (split_first_comma _ _ H) as (mime & Heq & Hm & Hs).
  rewrite Hs. f_equal.
  destruct (before_past_first_comma _ _ H) as [Heq' Hb].
  rewrite Heq in Heq' at 1.
  clear - Heq' Hm Hb. revert Heq' Hb.
  generalize (before_first_comma s) as b. revert Hm.
  induction mime as [| c m IH]; intros Hm [| d b] Heq Hb.
  - reflexivity.
  - cbn in Heq. injection Heq as <- _. cbn in Hb. discriminate Hb.
  - cbn in Heq. injection Heq as -> _. cbn in Hm. discriminate Hm.
  - cbn in Heq. injection Heq as <- Heq. f_equal.
    cbn in Hm, Hb. destruct (c =? comma); [discriminate |].
    apply IH; assumption.
Qed.

(** What the transform does, by cases. *)
Lemma ensureEncodedDataURI_cases dataURI :
  ensureEncodedDataURI dataURI =
  if includes base64_marker dataURI then Normal dataURI
  else
    match past_first_comma dataURI with
    | None => Normal dataURI
    | Some svgContent =>
        if test_percent_escape svgContent then Normal dataURI
        else
          encodedContent <- encodeURIComponent svgContent ;;
          Normal (before_first_comma dataURI ++ comma :: encodedContent)
    end.
Proof.
  unfold ensureEncodedDataURI.
  destruct (includes base64_marker dataURI); [reflexivity |].
  destruct (past_first_comma dataURI) as [data |] eqn:Hp.
  - rewrite (split_header _ _ Hp).
    pose proof (split_not_nil comma data) as Hnil.
    destruct (split comma data) as [| p ps] eqn:Hs; [congruence |].
    cbn [length Nat.ltb Nat.leb slice1 tl hd].
    rewrite <- Hs, join_split. reflexivity.
  - rewrite (split_no_comma _ Hp). reflexivity.
Qed.

Lemma Encode_normal_well_formed n :
  forall p e,
    (length p <= n)%nat -> Encode p = Normal e -> isWellFormed p = true.
Proof.
  induction n as [| n IH]; intros p e Hlen.
  - destruct p; [reflexivity | cbn in Hlen; lia].
  - destruct p as [| c r]; [reflexivity |].
    cbn [length] in Hlen. cbn [Encode isWellFormed].
    destruct (is_unescaped c) eqn:Hu.
    + destruct (is_unescaped_plain c Hu) as (_ & _ & -> & ->).
      destruct (Encode r) as [e' |] eqn:E; [| discriminate].
      intros _. apply (IH r e'); [lia | exact E].
    + destruct (is_trailing_surrogate c); [discriminate |].
      destruct (is_leading_surrogate c).
      * destruct r as [| d r']; [discriminate |].
        destruct (is_trailing_surrogate d); [| discriminate].
        destruct (Encode r') as [e' |] eqn:E; [| discriminate].
        intros _. cbn [length] in Hlen. cbn [andb].
        apply (IH r' e'); [lia | exact E].
      * destruct (Encode r) as [e' |] eqn:E; [| discriminate].
        intros _. apply (IH r e'); [lia | exact E].
Qed.

Lemma is_js_string_app a b :
  is_js_string (a ++ b) = is_js_string a && is_js_string b.
Proof. apply forallb_app. Qed.

(** The output of the encoder holds only unescaped code units and percent
    signs. *)
Lemma Encode_units n :
  forall p e,
    (length p <= n)%nat ->
    is_js_string p = true ->
    Encode p = Normal e -> forallb is_encoded_unit e = true.
Proof.
  assert (forall bs, Forall (fun b => 0 <= b < 256) bs ->
                     forallb is_encoded_unit (escape_octets bs) = true) as Hesc.
  { induction 1 as [| b bs Hb _ IHb]; [reflexivity |].
    cbn [escape_octets flat_map escape_octet app forallb].
    fold (escape_octets bs). rewrite IHb.
    assert (forall d, 0 <= d < 16 -> is_encoded_unit (hex_char d) = true) as Hh.
    { intros d Hd. unfold is_encoded_unit, is_unescaped, hex_char, between.
      destruct (Z.ltb_spec d 10); bool_to_prop; lia. }
    rewrite !Hh; [reflexivity | |].
    - apply Z.mod_pos_bound. lia.
    - split; [apply Z.div_pos; lia | apply Z.div_lt_upper_bound; lia]. }
  induction n as [| n IH]; intros p e Hlen Hjs.
  - destruct p; [intros [= <-]; reflexivity | cbn in Hlen; lia].
  - destruct p as [| c r]; [intros [= <-]; reflexivity |].
    cbn [length] in Hlen.
    cbn [is_js_string forallb] in Hjs. apply andb_true_iff in Hjs as [Hc Hjs].
    cbn [Encode].
    destruct (is_unescaped c) eqn:Hu.
    + destruct (Encode r) as [e' |] eqn:E; [| discriminate].
      intros [= <-]. cbn [forallb]. unfold is_encoded_unit at 1.
      rewrite Hu. cbn [orb andb]. apply (IH r); [lia | exact Hjs | exact E].
    + destruct (is_trailing_surrogate c) eqn:Ht; [discriminate |].
      destruct (is_leading_surrogate c) eqn:Hl.
      * destruct r as [| d r']; [discriminate |].
        destruct (is_trailing_surrogate d) eqn:Hd; [| discriminate].
        destruct (Encode r') as [e' |] eqn:E; [| discriminate].
        intros [= <-]. cbn [length] in Hlen.
        cbn [forallb] in Hjs. apply andb_true_iff in Hjs as [_ Hjs].
        rewrite forallb_app. rewrite (IH r' e'); [| lia | exact Hjs | exact E].
        rewrite Hesc; [reflexivity |].
        apply utf8_encode_octets. apply (UTF16_pair c d Hl Hd).
      * destruct (Encode r) as [e' |] eqn:E; [| discriminate].
        intros [= <-].
        rewrite forallb_app. rewrite (IH r e'); [| lia | exact Hjs | exact E].
        rewrite Hesc; [reflexivity |].
        apply utf8_encode_octets. apply (UTF16_single c Hc Hl Ht).
Qed.

Lemma extractSVGContent_cases dataURI :
  startsWith svg_prefix dataURI = true ->
  extractSVGContent dataURI =
  if includes base64_marker dataURI then
    match atob (string_of_arg (index1 (split comma dataURI))) with
    | Normal text => Normal (Some text)
    | Throw _ => Normal None
    end
  else
    match past_first_comma dataURI with
    | None => Normal None
    | Some encodedData =>
        if test_percent_escape encodedData then
          match decodeURIComponent encodedData with
          | Normal text => Normal (Some text)
          | Throw _ => Normal None
          end
        else Normal (Some encodedData)
    end.
Proof.
  intros Hsvg. unfold extractSVGContent. rewrite Hsvg. cbn [negb].
  destruct (includes base64_marker dataURI).
  - destruct (atob _); reflexivity.
  - destruct (past_first_comma dataURI) as [data |] eqn:Hp.
    + rewrite (split_header _ _ Hp).
      pose proof (split_not_nil comma data) as Hnil.
      destruct (split comma data) as [| p ps] eqn:Hs; [congruence |].
      cbn [length Nat.ltb Nat.leb slice1 tl].
      rewrite <- Hs, join_split.
      destruct (test_percent_escape data); [| reflexivity].
      destruct (decodeURIComponent data); reflexivity.
    + rewrite (split_no_comma _ Hp). reflexivity.
Qed.

Lemma extractSVGContent_not_svg dataURI :
  startsWith svg_prefix dataURI = false -> extractSVGContent dataURI = Normal None.
Proof. intros H. unfold extractSVGContent. rewrite H. reflexivity. Qed.

(** X1.  Whenever [extractSVGContent] gives a text, it is the text that
    the decoder of the service gives for the same data URI. *)
Theorem extractSVGContent_agrees_with_decoder dataURI text :
  extractSVGContent dataURI = Normal (Some text) ->
  decodeDataURI dataURI = Normal text.
Proof.
  destruct (startsWith svg_prefix dataURI) eqn:Hsvg.
  2:{ rewrite (extractSVGContent_not_svg _ Hsvg). discriminate. }
  rewrite (extractSVGContent_cases _ Hsvg).
  destruct (includes base64_marker dataURI) eqn:Hm.
  - unfold decodeDataURI. rewrite Hm.
    destruct (atob _) as [t |]; [| discriminate]. intros [= <-]. reflexivity.
  - rewrite (decodeDataURI_plain _ Hm). unfold decode_plain.
    destruct (past_first_comma dataURI) as [data |]; [| discriminate].
    destruct (test_percent_escape data).
    + destruct (decodeURIComponent data) as [t |]; [| discriminate].
      intros [= <-]. reflexivity.
    + intros [= <-]. reflexivity.
Qed.

Lemma extractSVGContent_agrees_with_decoder_witness :
  extractSVGContent (lit "data:image/svg+xml,%3Csvg%2F%3E") =
    Normal (Some (lit "<svg/>")) /\
  decodeDataURI (lit "data:image/svg+xml,%3Csvg%2F%3E") = Normal (lit "<svg/>").
Proof.
  split; [reflexivity |].
  apply (extractSVGContent_agrees_with_decoder
           (lit "data:image/svg+xml,%3Csvg%2F%3E") (lit "<svg/>")).
  reflexivity.
Defined.

(** X2.  [extractSVGContent] never throws, and gives null exactly in four
    cases: the string does not start with [data:image/svg+xml]; it is
    base64-flagged and [atob] rejects the payload; it has no comma; its
    payload holds a [%XX] escape and cannot be percent-decoded. *)
Theorem extractSVGContent_null dataURI :
  (exists result, extractSVGContent dataURI = Normal result) /\
  (extractSVGContent dataURI = Normal None <->
   startsWith svg_prefix dataURI = false \/
   (includes base64_marker dataURI = true /\
    exists e, atob (string_of_arg (index1 (split comma dataURI))) = Throw e) \/
   (includes base64_marker dataURI = false /\
    past_first_comma dataURI = None) \/
   (includes base64_marker dataURI = false /\
    exists data e,
      past_first_comma dataURI = Some data /\
      test_percent_escape data = true /\
      decodeURIComponent data = Throw e)).
Proof.
  destruct (startsWith svg_prefix dataURI) eqn:Hsvg.
  2:{ rewrite (extractSVGContent_not_svg _ Hsvg).
      split; [eauto | split; auto]. }
  rewrite (extractSVGContent_cases _ Hsvg).
  destruct (includes base64_marker dataURI) eqn:Hm.
  - destruct (atob _) as [t | e] eqn:Ha.
    + split; [eauto |]. split; [discriminate |].
      intros [H | [[_ [e H]] | [[H _] | [H _]]]]; discriminate.
    + split; [eauto |]. split; [| reflexivity]. eauto.
  - destruct (past_first_comma dataURI) as [data |] eqn:Hp.
    + destruct (test_percent_escape data) eqn:Ht.
      * destruct (decodeURIComponent data) as [t | e] eqn:Hd.
        -- split; [eauto |]. split; [discriminate |].
           intros [H | [[H _] | [[_ H] | [_ (d & e & H1 & _ & H3)]]]];
             try discriminate.
           injection H1 as <-. rewrite Hd in H3. discriminate.
        -- split; [eauto |]. split; [| reflexivity]. intros _.
           right. right. right. split; [reflexivity |].
           exists data, e. auto.
      * split; [eauto |]. split; [discriminate |].
        intros [H | [[H _] | [[_ H] | [_ (d & e & H1 & H2 & _)]]]];
          try discriminate.
        injection H1 as <-. rewrite Ht in H2. discriminate.
    + split; [eauto |]. split; [| reflexivity]. auto.
Qed.

Lemma startsWith_header pre m x y :
  past_first_comma pre = None ->
  startsWith pre (m ++ comma :: x) = true ->
  startsWith pre (m ++ comma :: y) = true.
Proof.
  revert m. induction pre as [| c pre IH]; intros m Hpre; [reflexivity |].
  cbn [past_first_comma] in Hpre.
  destruct (Z.eqb_spec c comma) as [| Hne]; [discriminate |].
  destruct m as [| d m]; cbn [app startsWith].
  - destruct (Z.eqb_spec c comma); [contradiction | discriminate].
  - intros H. apply andb_true_iff in H as [-> H]. cbn [andb].
    apply IH; assumption.
Qed.

(** X3.  For an SVG data URI without the base64 marker whose payload holds
    no [%XX] escape and no unpaired surrogate, the ensure-encoded transform
    followed by [extractSVGContent] gives back the payload. *)
Theorem ensureEncoded_then_extract dataURI svg :
  startsWith svg_prefix dataURI = true ->
  past_first_comma dataURI = Some svg ->
  includes base64_marker dataURI = false ->
  test_percent_escape svg = false ->
  is_js_string svg = true ->
  isWellFormed svg = true ->
  (encoded <- ensureEncodedDataURI dataURI ;; extractSVGContent encoded) =
  Normal (Some svg).
Proof.
  intros Hsvg Hp Hm Ht Hjs Hwf.
  destruct (before_past_first_comma _ _ Hp) as [Heq Hb].
  destruct (Encode_well_formed _ svg (le_n _) Hjs Hwf)
    as (e & He & Hd & Hnc & Hid).
  rewrite ensureEncodedDataURI_cases, Hm, Hp, Ht.
  unfold encodeURIComponent. rewrite He. cbn [bind].
  set (header := before_first_comma dataURI) in *.
  assert (startsWith svg_prefix (header ++ comma :: e) = true) as Hsvg'.
  { apply (startsWith_header svg_prefix header svg e); [reflexivity |].
    rewrite <- Heq. exact Hsvg. }
  assert (includes base64_marker (header ++ comma :: e) = false) as Hm'.
  { destruct (includes base64_marker (header ++ comma :: e)) eqn:E;
      [| reflexivity].
    rewrite Heq in Hm.
    rewrite (base64_marker_in_header header e svg Hb Hnc E) in Hm.
    discriminate. }
  rewrite (extractSVGContent_cases _ Hsvg'), Hm'.
  rewrite (past_first_comma_app _ _ Hb).
  destruct (test_percent_escape e) eqn:Hte.
  - unfold decodeURIComponent. rewrite Hd. reflexivity.
  - rewrite (Hid eq_refl). reflexivity.
Qed.

Lemma ensureEncoded_then_extract_witness :
  startsWith svg_prefix svg_uri = true /\
  past_first_comma svg_uri = Some svg_text /\
  (encoded <- ensureEncodedDataURI svg_uri ;; extractSVGContent encoded) =
  Normal (Some svg_text).
Proof.
  split; [reflexivity |]. split; [reflexivity |].
  apply (ensureEncoded_then_extract svg_uri svg_text); reflexivity.
Defined.

(** X4.  On JavaScript strings the ensure-encoded transform is idempotent:
    applied to its own result it returns that result. *)
Theorem ensureEncodedDataURI_idempotent dataURI encoded :
  is_js_string dataURI = true ->
  ensureEncodedDataURI dataURI = Normal encoded ->
  ensureEncodedDataURI encoded = Normal encoded.
Proof.
  intros Hjs. rewrite (ensureEncodedDataURI_cases dataURI).
  destruct (includes base64_marker dataURI) eqn:Hm.
  { intros [= <-]. rewrite ensureEncodedDataURI_cases, Hm. reflexivity. }
  destruct (past_first_comma dataURI) as [svg |] eqn:Hp.
  2:{ intros [= <-]. rewrite ensureEncodedDataURI_cases, Hm, Hp. reflexivity. }
  destruct (test_percent_escape svg) eqn:Ht.
  { intros [= <-]. rewrite ensureEncodedDataURI_cases, Hm, Hp, Ht. reflexivity. }
  destruct (before_past_first_comma _ _ Hp) as [Heq Hb].
  set (header := before_first_comma dataURI) in *.
  unfold encodeURIComponent.
  destruct (Encode svg) as [e |] eqn:He; [| discriminate].
  cbn [bind]. intros [= <-].
  assert (is_js_string svg = true) as Hjs'.
  { rewrite Heq, is_js_string_app in Hjs.
    apply andb_true_iff in Hjs as [_ Hjs]. cbn [is_js_string forallb] in Hjs.
    apply andb_true_iff in Hjs as [_ Hjs]. exact Hjs. }
  pose proof (Encode_normal_well_formed _ svg e (le_n _) He) as Hwf.
  destruct (Encode_well_formed _ svg (le_n _) Hjs' Hwf)
    as (e' & He' & _ & Hnc & Hid).
  rewrite He in He'. injection He' as <-.
  assert (includes base64_marker (header ++ comma :: e) = false) as Hm'.
  { destruct (includes base64_marker (header ++ comma :: e)) eqn:E;
      [| reflexivity].
    rewrite Heq in Hm.
    rewrite (base64_marker_in_header header e svg Hb Hnc E) in Hm.
    discriminate. }
  rewrite ensureEncodedDataURI_cases, Hm', (past_first_comma_app _ _ Hb).
  destruct (test_percent_escape e) eqn:Hte; [reflexivity |].
  pose proof (Hid eq_refl) as ->.
  unfold encodeURIComponent. rewrite He. cbn [bind].
  assert (before_first_comma (header ++ comma :: svg) = header) as ->
    by (rewrite <- Heq; reflexivity).
  reflexivity.
Qed.

Lemma ensureEncodedDataURI_idempotent_witness :
  is_js_string (lit "data:image/svg+xml,<svg a='b'/>") = true /\
  ensureEncodedDataURI (lit "data:image/svg+xml,<svg a='b'/>") =
    Normal (lit "data:image/svg+xml,%3Csvg%20a%3D'b'%2F%3E") /\
  ensureEncodedDataURI (lit "data:image/svg+xml,%3Csvg%20a%3D'b'%2F%3E") =
    Normal (lit "data:image/svg+xml,%3Csvg%20a%3D'b'%2F%3E").
Proof.
  split; [reflexivity |]. split; [reflexivity |].
  apply (ensureEncodedDataURI_idempotent
           (lit "data:image/svg+xml,<svg a='b'/>")
           (lit "data:image/svg+xml,%3Csvg%20a%3D'b'%2F%3E")); reflexivity.
Defined.

Lemma Encode_throws_URIError p e : Encode p = Throw e -> e = URIError.
Proof.
  assert (forall n p, (length p <= n)%nat -> Encode p = Throw e -> e = URIError)
    as H.
  { induction n as [| n IH]; intros q Hlen.
    - destruct q; [discriminate | cbn in Hlen; lia].
    - destruct q as [| c r]; [discriminate |].
      cbn [length] in Hlen. cbn [Encode].
      destruct (is_unescaped c).
      + destruct (Encode r) as [e' | e'] eqn:E; [discriminate |].
        intros [= <-]. apply (IH r); [lia | exact E].
      + destruct (is_trailing_surrogate c); [intros [= <-]; reflexivity |].
        destruct (is_leading_surrogate c).
        * destruct r as [| d r']; [intros [= <-]; reflexivity |].
          destruct (is_trailing_surrogate d); [| intros [= <-]; reflexivity].
          destruct (Encode r') as [e' | e'] eqn:E; [discriminate |].
          intros [= <-]. cbn [length] in Hlen. apply (IH r'); [lia | exact E].
        * destruct (Encode r) as [e' | e'] eqn:E; [discriminate |].
          intros [= <-]. apply (IH r); [lia | exact E]. }
  apply (H (length p)). lia.
Qed.

Lemma is_js_string_payload dataURI data :
  is_js_string dataURI = true ->
  past_first_comma dataURI = Some data ->
  is_js_string data = true.
Proof.
  intros Hjs Hp. destruct (before_past_first_comma _ _ Hp) as [Heq _].
  rewrite Heq, is_js_string_app in Hjs.
  apply andb_true_iff in Hjs as [_ Hjs]. cbn [is_js_string forallb] in Hjs.
  apply andb_true_iff in Hjs as [_ Hjs]. exact Hjs.
Qed.

(** X5.  When the transform encodes (no base64 marker, a payload without a
    [%XX] escape), it keeps the header and the payload it puts out holds
    only unescaped code units and percent signs: no double quote, angle
    bracket, space, ampersand or comma. *)
Theorem ensureEncodedDataURI_payload dataURI svg encoded :
  is_js_string dataURI = true ->
  includes base64_marker dataURI = false ->
  past_first_comma dataURI = Some svg ->
  test_percent_escape svg = false ->
  ensureEncodedDataURI dataURI = Normal encoded ->
  exists payload,
    encoded = before_first_comma dataURI ++ comma :: payload /\
    past_first_comma encoded = Some payload /\
    forallb is_encoded_unit payload = true /\
    (forall c, In c (lit "<>& ,;") \/ c = 34 -> ~ In c payload).
Proof.
  intros Hjs Hm Hp Ht. rewrite ensureEncodedDataURI_cases, Hm, Hp, Ht.
  unfold encodeURIComponent.
  destruct (Encode svg) as [e |] eqn:He; [| discriminate].
  cbn [bind]. intros [= <-].
  destruct (before_past_first_comma _ _ Hp) as [_ Hb].
  pose proof (Encode_units _ svg e (le_n _)
                (is_js_string_payload _ _ Hjs Hp) He) as Hunits.
  exists e. split; [reflexivity |]. split; [| split].
  - apply past_first_comma_app. exact Hb.
  - exact Hunits.
  - intros c Hc Hin.
    apply (proj1 (forallb_forall _ _) Hunits) in Hin.
    destruct Hc as [Hc | ->]; [| discriminate Hin].
    cbn in Hc. repeat destruct Hc as [<- | Hc]; try discriminate Hin.
    exact Hc.
Qed.

Lemma ensureEncodedDataURI_payload_witness :
  is_js_string (lit "data:image/svg+xml,<svg a='b'/>") = true /\
  exists payload,
    lit "data:image/svg+xml,%3Csvg%20a%3D'b'%2F%3E" =
      before_first_comma (lit "data:image/svg+xml,<svg a='b'/>")
        ++ comma :: payload /\
    past_first_comma (lit "data:image/svg+xml,%3Csvg%20a%3D'b'%2F%3E") =
      Some payload /\
    forallb is_encoded_unit payload = true /\
    (forall c, In c (lit "<>& ,;") \/ c = 34 -> ~ In c payload).
Proof.
  split; [reflexivity |].
  apply (ensureEncodedDataURI_payload
           (lit "data:image/svg+xml,<svg a='b'/>") (lit "<svg a='b'/>")
           (lit "data:image/svg+xml,%3Csvg%20a%3D'b'%2F%3E")); reflexivity.
Defined.

(** X6.  On JavaScript strings the transform throws in one case only: the
    string has no base64 marker and its payload holds no [%XX] escape but
    an unpaired surrogate; the error is then a URIError. *)
Theorem ensureEncodedDataURI_throws dataURI :
  is_js_string dataURI = true ->
  ((exists e, ensureEncodedDataURI dataURI = Throw e) <->
   includes base64_marker dataURI = false /\
   exists svg,
     past_first_comma dataURI = Some svg /\
     test_percent_escape svg = false /\
     isWellFormed svg = false) /\
  (forall e, ensureEncodedDataURI dataURI = Throw e -> e = URIError).
Proof.
  intros Hjs. rewrite ensureEncodedDataURI_cases.
  destruct (includes base64_marker dataURI) eqn:Hm.
  { split; [split |]; [intros [e H]; discriminate H | intros [H _]; discriminate H
                      | intros e H; discriminate H]. }
  destruct (past_first_comma dataURI) as [svg |] eqn:Hp.
  2:{ split; [split |];
        [intros [e H]; discriminate H
        | intros [_ (s & H & _)]; discriminate H
        | intros e H; discriminate H]. }
  destruct (test_percent_escape svg) eqn:Ht.
  { split; [split |];
      [intros [e H]; discriminate H
      | intros [_ (s & [= <-] & H & _)]; rewrite Ht in H; discriminate H
      | intros e H; discriminate H]. }
  pose proof (is_js_string_payload _ _ Hjs Hp) as Hjs'.
  unfold encodeURIComponent.
  destruct (Encode svg) as [enc | err] eqn:He; cbn [bind].
  - pose proof (Encode_normal_well_formed _ svg enc (le_n _) He) as Hwf.
    split; [split |];
      [intros [e H]; discriminate H
      | intros [_ (s & [= <-] & _ & H)]; rewrite Hwf in H; discriminate H
      | intros e H; discriminate H].
  - split; [split |].
    + intros _. split; [reflexivity |]. exists svg.
      split; [reflexivity |]. split; [exact Ht |].
      destruct (isWellFormed svg) eqn:Hwf; [| reflexivity].
      destruct (Encode_well_formed _ svg (le_n _) Hjs' Hwf) as (e' & He' & _).
      rewrite He in He'. discriminate He'.
    + intros _. exists err. reflexivity.
    + intros e [= <-]. apply (Encode_throws_URIError svg). exact He.
Qed.

Lemma ensureEncodedDataURI_throws_witness :
  is_js_string (lit "data:image/svg+xml," ++ [60; 55357; 62]) = true /\
  ensureEncodedDataURI (lit "data:image/svg+xml," ++ [60; 55357; 62]) =
    Throw URIError /\
  isWellFormed [60; 55357; 62] = false.
Proof.
  split; [reflexivity |]. split; [| reflexivity].
  destruct (ensureEncodedDataURI_throws
              (lit "data:image/svg+xml," ++ [60; 55357; 62]) eq_refl)
    as [[_ Hthrow] Herr].
  destruct Hthrow as [e He].
  { split; [reflexivity |]. exists [60; 55357; 62].
    split; [reflexivity |]. split; reflexivity. }
  rewrite He. f_equal. apply Herr. exact He.
Defined.

(** ** Number and getContractInfo *)

Lemma Number_of_bigint_exact n :
  Z.abs n < 2 ^ 53 -> Number_of_bigint n = n.
Proof.
  intros H. unfold Number_of_bigint.
  destruct (Z.leb_spec (Z.log2 (Z.abs n) + 1) 53) as [_ | Hbits]; [reflexivity |].
  exfalso.
  assert (0 < Z.abs n) as Hpos.
  { destruct (Z.eq_dec (Z.abs n) 0) as [E | E]; [| lia].
    rewrite E in Hbits. cbn in Hbits. lia. }
  pose proof (Z.log2_spec _ Hpos) as [Hlo _].
  assert (2 ^ 53 <= 2 ^ Z.log2 (Z.abs n)) by (apply Z.pow_le_mono_r; lia).
  lia.
Qed.

Lemma Number_of_bigint_rounds n :
  0 <= n -> 2 ^ 53 <= n ->
  2 ^ 53 <= Number_of_bigint n /\
  Z.abs (Number_of_bigint n - n) * 2 ^ 53 <= n.
Proof.
  intros Hn Hbig. unfold Number_of_bigint.
  rewrite (Z.abs_eq n) by exact Hn.
  assert (0 < n) as Hpos by lia.
  pose proof (Z.log2_spec _ Hpos) as [Hlo Hhi].
  assert (53 <= Z.log2 n).
  { destruct (Z.le_gt_cases 53 (Z.log2 n)) as [| Hlt]; [assumption |].
    assert (2 ^ (Z.log2 n + 1) <= 2 ^ 53) by (apply Z.pow_le_mono_r; lia).
    lia. }
  destruct (Z.leb_spec (Z.log2 n + 1) 53) as [| _]; [lia |].
  set (k := Z.log2 n + 1 - 53).
  assert (1 <= k) as Hk by (unfold k; lia).
  assert (0 < 2 ^ k) as Hpk by (apply Z.pow_pos_nonneg; lia).
  assert (2 ^ k = 2 * 2 ^ (k - 1)) as Hhalf.
  { replace k with (Z.succ (k - 1)) at 1 by lia. apply Z.pow_succ_r. lia. }
  assert (0 < 2 ^ (k - 1)) as Hph by (apply Z.pow_pos_nonneg; lia).
  assert (2 ^ Z.log2 n = 2 ^ 52 * 2 ^ k) as Hsplit.
  { rewrite <- Z.pow_add_r by lia. f_equal. unfold k. lia. }
  pose proof (Z.div_mod n (2 ^ k) ltac:(lia)) as Hdm.
  pose proof (Z.mod_pos_bound n (2 ^ k) Hpk) as Hr.
  assert (2 ^ 52 <= n / 2 ^ k) as Hq.
  { apply Z.div_le_lower_bound; [exact Hpk |]. rewrite Z.mul_comm. lia. }
  rewrite Z.sgn_pos by exact Hpos.
  generalize dependent (n / 2 ^ k). generalize dependent (n mod 2 ^ k).
  intros r Hr q Hdm Hq.
  change (2 ^ 53) with (2 * 2 ^ 52) in *.
  change (2 ^ 52) with 4503599627370496 in *.
  destruct ((2 ^ (k - 1) <? r) || ((r =? 2 ^ (k - 1)) && Z.odd q)) eqn:Hup.
  - assert (2 ^ (k - 1) <= r) as Hge.
    { apply orb_true_iff in Hup as [Hup | Hup].
      - apply Z.ltb_lt in Hup. lia.
      - apply andb_true_iff in Hup as [Hup _]. apply Z.eqb_eq in Hup. lia. }
    split; nia.
  - apply orb_false_iff in Hup as [Hup _]. apply Z.ltb_ge in Hup.
    split; nia.
Qed.

(** X7.  Rounding the supply never changes the scan range:
    [Math.min(Number(totalSupply), 30)] is [min(totalSupply, 30)] for every
    non-negative supply; and the [totalSupply] that [getContractInfo]
    reports is exact below 2^53 and within a relative error of 2^-53
    above. *)
Theorem Number_of_supply supply :
  0 <= supply ->
  Z.min (Number_of_bigint supply) maxNFTs = Z.min supply maxNFTs /\
  (supply < 2 ^ 53 -> Number_of_bigint supply = supply) /\
  Z.abs (Number_of_bigint supply - supply) * 2 ^ 53 <= supply.
Proof.
  intros Hs. unfold maxNFTs.
  destruct (Z.lt_ge_cases supply (2 ^ 53)) as [Hlt | Hge].
  - rewrite Number_of_bigint_exact by (rewrite Z.abs_eq; lia).
    split; [reflexivity |]. split; [reflexivity |].
    rewrite Z.sub_diag. cbn. exact Hs.
  - destruct (Number_of_bigint_rounds supply Hs Hge) as [Hbig Herr].
    change (2 ^ 53) with 9007199254740992 in *.
    split; [lia |]. split; [lia | exact Herr].
Qed.

Lemma Number_of_supply_witness :
  0 <= 2 ^ 53 + 3 /\
  Number_of_bigint (2 ^ 53 + 3) = 2 ^ 53 + 4 /\
  Z.min (Number_of_bigint (2 ^ 53 + 3)) maxNFTs = Z.min (2 ^ 53 + 3) maxNFTs.
Proof.
  split; [discriminate |]. split; [reflexivity |].
  apply (Number_of_supply (2 ^ 53 + 3)). discriminate.
Defined.

(** X8.  [getContractInfo] is all or nothing: it returns the three values
    when all three reads succeed, and otherwise throws the error of one of
    the reads that failed. *)
Theorem getContractInfo_all_or_nothing reads :
  match Info.getContractInfo reads with
  | Normal info =>
      exists supply,
        Info.name_read reads = Normal (Info.name info) /\
        Info.symbol_read reads = Normal (Info.symbol info) /\
        Info.totalSupply_read reads = Normal supply /\
        Info.totalSupply info = Number_of_bigint supply
  | Throw e =>
      Info.name_read reads = Throw e \/
      Info.symbol_read reads = Throw e \/
      Info.totalSupply_read reads = Throw e
  end.
Proof.
  unfold Info.getContractInfo.
  destruct (Info.name_read reads) as [n | e1],
           (Info.symbol_read reads) as [s | e2],
           (Info.totalSupply_read reads) as [t | e3];
    cbn [Info.Promise_all3 bind try_catch Info.name Info.symbol Info.totalSupply];
    eauto.
  - destruct (Info.settles_before reads 1%nat 2%nat); auto.
  - destruct (Info.settles_before reads 0%nat 2%nat); auto.
  - destruct (Info.settles_before reads 0%nat 1%nat); auto.
  - destruct (Info.settles_before reads 0%nat 1%nat && Info.settles_before reads 0%nat 2%nat);
      [auto |].
    destruct (Info.settles_before reads 1%nat 2%nat); auto.
Qed.

(** ** More on the single-token fetcher *)

(** What a successful attempt has read. *)
Lemma fetchNFTData_some ch addr j call record :
  fst (fetchNFTData ch addr j call) = Normal (Some record) ->
  exists uri text,
    tokenURI ch (BNumber j) call = Normal uri /\
    ownerOf ch (BNumber j) call = Normal (owner record) /\
    decodeDataURI uri = Normal text /\
    JSON_parse text = Normal (metadata record) /\
    tokenId record = toString j /\
    contractAddress record = addr /\
    metadata record <> JNull /\
    image_absent_or_string (metadata record).
Proof.
  unfold fetchNFTData, read_token. cbn [fst].
  destruct (tokenURI ch (BNumber j) call) as [uri | e1],
           (ownerOf ch (BNumber j) call) as [own | e2];
    cbn [Promise_all2 bind try_catch]; try discriminate.
  destruct (decodeDataURI uri) as [text | e] eqn:Hd; cbn [bind try_catch];
    [| discriminate].
  destruct (JSON_parse text) as [md | e] eqn:Hp; cbn [bind try_catch];
    [| discriminate].
  destruct (get_image md) as [img | e] eqn:Himg; cbn [bind try_catch];
    [| discriminate].
  destruct (substring_opt img) as [u | e] eqn:Hsub; cbn [bind try_catch];
    [| discriminate].
  intros [= <-]. cbn [owner metadata tokenId contractAddress].
  exists uri, text.
  split; [reflexivity |]. split; [reflexivity |]. split; [exact Hd |].
  split; [exact Hp |]. split; [reflexivity |]. split; [reflexivity |]. split.
  - intros ->. discriminate Himg.
  - unfold image_absent_or_string. rewrite Himg.
    destruct img as [[| b | n | s | items | members] |]; cbn in Hsub;
      try discriminate; eauto.
Qed.

Lemma retry_attempts_some ch addr j maxRetries attempts record :
  fst (retry_attempts ch addr j maxRetries attempts) = Normal (Some record) ->
  exists k,
    In k attempts /\ fst (fetchNFTData ch addr j k) = Normal (Some record).
Proof.
  induction attempts as [| k later IH]; cbn [retry_attempts]; [discriminate |].
  destruct (fetchNFTData ch addr j k) as [outcome log] eqn:E.
  destruct outcome as [[nft |] | e]; cbn [bind].
  - intros [= <-]. exists k. rewrite E. split; [left |]; reflexivity.
  - destruct (retry_attempts ch addr j maxRetries later) as [final log'].
    intros H. destruct (IH H) as (k' & Hin & Hk'). exists k'.
    split; [right |]; assumption.
  - destruct (retry_attempts ch addr j maxRetries later) as [final log'].
    intros H. destruct (IH H) as (k' & Hin & Hk'). exists k'.
    split; [right |]; assumption.
Qed.

Lemma retry_attempts_success ch addr j maxRetries failed k later record :
  (forall i, In i failed -> fst (fetchNFTData ch addr j i) = Normal None) ->
  (forall i, In i failed -> i < maxRetries) ->
  fst (fetchNFTData ch addr j k) = Normal (Some record) ->
  retry_attempts ch addr j maxRetries (failed ++ k :: later) =
  (Normal (Some record),
   exhausted_log j maxRetries failed ++
     [CallTokenURI (BNumber j) k; CallOwnerOf (BNumber j) k]).
Proof.
  intros Hfail Hlt Hk.
  induction failed as [| i failed IH]; cbn [app retry_attempts].
  - pose proof (fetchNFTData_log ch addr j k) as Hlog.
    destruct (fetchNFTData ch addr j k) as [outcome log].
    cbn [fst snd] in Hk, Hlog. subst outcome log. reflexivity.
  - pose proof (Hfail i (or_introl eq_refl)) as Hi.
    pose proof (fetchNFTData_log ch addr j i) as Hlog.
    destruct (fetchNFTData ch addr j i) as [outcome log].
    cbn [fst snd] in Hi, Hlog. subst outcome log. cbn [bind].
    rewrite IH.
    + unfold exhausted_log. cbn [flat_map]. rewrite <- !app_assoc. reflexivity.
    + intros i' Hin. apply Hfail. right. exact Hin.
    + intros i' Hin. apply Hlt. right. exact Hin.
Qed.

(** X9.  When the attempts before attempt k fail and attempt k, within the
    budget, succeeds, the retrying fetcher returns the record of attempt k;
    before it, it has waited 1000 ms, 2000 ms, ..., (k - 1) * 1000 ms, one
    wait after each failed attempt, and it makes no attempt after k. *)
Theorem fetchNFTDataWithRetry_succeeds_at ch addr j maxRetries k record :
  1 <= k <= maxRetries ->
  (forall i, 1 <= i < k -> fst (fetchNFTData ch addr j i) = Normal None) ->
  fst (fetchNFTData ch addr j k) = Normal (Some record) ->
  let run := fetchNFTDataWithRetry ch addr j maxRetries in
  fst run = Normal (Some record) /\
  snd run =
    exhausted_log j maxRetries (map Z.of_nat (seq 1 (Z.to_nat (k - 1)))) ++
    [CallTokenURI (BNumber j) k; CallOwnerOf (BNumber j) k] /\
  sleeps (snd run) =
    map (fun i => 1000 * Z.of_nat i) (seq 1 (Z.to_nat (k - 1))).
Proof.
  intros Hk Hfail Hok run. subst run. unfold fetchNFTDataWithRetry.
  rewrite <- (for_range_app 1 k (maxRetries + 1)) by lia.
  rewrite (for_range_cons k) by lia.
  assert (for_range 1 k 1 = map Z.of_nat (seq 1 (Z.to_nat (k - 1)))) as Hrange.
  { rewrite for_range_seq, <- seq_shift, map_map.
    apply map_ext. intros i. lia. }
  rewrite retry_attempts_success with (record := record).
  - cbn [fst snd]. rewrite Hrange. split; [reflexivity |].
    split; [reflexivity |].
    unfold sleeps. rewrite flat_map_app. fold (sleeps (exhausted_log j maxRetries
      (map Z.of_nat (seq 1 (Z.to_nat (k - 1)))))).
    rewrite sleeps_exhausted_log. cbn [flat_map app]. rewrite app_nil_r.
    rewrite forallb_filter_id, map_map; [reflexivity |].
    apply forallb_forall. intros x Hx. rewrite <- Hrange in Hx.
    apply for_range_bounds in Hx. apply Z.ltb_lt. lia.
  - intros i Hi. apply Hfail. apply for_range_bounds in Hi. lia.
  - intros i Hi. apply for_range_bounds in Hi. lia.
  - exact Hok.
Qed.

Lemma fetchNFTDataWithRetry_succeeds_at_witness :
  (forall i, 1 <= i < 3 ->
             fst (fetchNFTData flaky_chain sample_address 1 i) = Normal None) /\
  sleeps (snd (fetchNFTDataWithRetry flaky_chain sample_address 1 3)) =
  [1000; 2000] /\
  exists record,
    fst (fetchNFTDataWithRetry flaky_chain sample_address 1 3) =
    Normal (Some record).
Proof.
  assert (forall i, 1 <= i < 3 ->
                    fst (fetchNFTData flaky_chain sample_address 1 i) =
                    Normal None) as Hfail.
  { intros i Hi. unfold fetchNFTData, read_token. cbn [fst flaky_chain tokenURI].
    replace (i <? 3) with true by (symmetry; apply Z.ltb_lt; lia).
    reflexivity. }
  split; [exact Hfail |].
  destruct (fetchNFTData flaky_chain sample_address 1 3) as [[[record |] |] log]
    eqn:E; try (vm_compute in E; discriminate E).
  destruct (fetchNFTDataWithRetry_succeeds_at flaky_chain sample_address 1 3 3
              record ltac:(lia) Hfail ltac:(rewrite E; reflexivity))
    as (Hres & _ & Hsleeps).
  split; [exact Hsleeps | exists record; exact Hres].
Defined.

(** X10.  The two paths differ on metadata that is JSON [null] or whose
    [image] is a number, a boolean, an array or an object: the batch path's
    attempt fails on it, the single lookup returns a record with it. *)
Theorem null_metadata_paths_differ ch addr j call uri own text md :
  tokenURI ch (BNumber j) call = Normal uri ->
  ownerOf ch (BNumber j) call = Normal own ->
  tokenURI ch (BString (toString j)) 1 = Normal uri ->
  ownerOf ch (BString (toString j)) 1 = Normal own ->
  decodeDataURI uri = Normal text ->
  JSON_parse text = Normal md ->
  ~ (md <> JNull /\ image_absent_or_string md) ->
  fst (fetchNFTData ch addr j call) = Normal None /\
  fst (getNFTById ch addr (toString j)) =
  Normal {| tokenId := toString j; contractAddress := addr;
            owner := own; metadata := md |}.
Proof.
  intros Hu Ho Hu' Ho' Hd Hp Hbad. split.
  - pose proof (fetchNFTData_some ch addr j call) as Hsome.
    destruct (fetchNFTData_never_throws ch addr j call) as [[record |] Hr];
      [| exact Hr].
    exfalso. destruct (Hsome _ Hr)
      as (uri' & text' & Hu2 & _ & Hd2 & Hp2 & _ & _ & Hnn & Himg).
    rewrite Hu in Hu2. injection Hu2 as <-.
    rewrite Hd in Hd2. injection Hd2 as <-.
    rewrite Hp in Hp2. injection Hp2 as Hmd.
    apply Hbad. rewrite Hmd. split; assumption.
  - rewrite (getNFTById_success ch addr (toString j) uri own text md
               Hu' Ho' Hd Hp).
    reflexivity.
Qed.

Lemma null_metadata_paths_differ_witness :
  JSON_parse (lit "null") = Normal JNull /\
  fst (fetchNFTData null_chain sample_address 0 1) = Normal None /\
  fst (getNFTById null_chain sample_address (toString 0)) =
  Normal {| tokenId := toString 0; contractAddress := sample_address;
            owner := lit "0x90DF88f5c189cb3561E8da30182804Bc36F24361";
            metadata := JNull |}.
Proof.
  split; [reflexivity |].
  apply (null_metadata_paths_differ null_chain sample_address 0 1
           (lit "data:application/json,null")
           (lit "0x90DF88f5c189cb3561E8da30182804Bc36F24361")
           (lit "null") JNull); try reflexivity.
  intros [H _]. apply H. reflexivity.
Defined.

(** ** More on the collection fetcher *)

Lemma fetched_attempt ch addr j record :
  In record (fetched ch addr j) ->
  exists k,
    1 <= k <= 3 /\ fst (fetchNFTData ch addr j k) = Normal (Some record).
Proof.
  unfold fetched, fetchNFTDataWithRetry. intros Hin.
  destruct (fst (retry_attempts ch addr j 3 (for_range 1 (3 + 1) 1)))
    as [[nft |] | e] eqn:E; cbn [settled_value] in Hin;
    try contradiction.
  destruct Hin as [<- | []].
  destruct (retry_attempts_some _ _ _ _ _ _ E) as (k & Hk & Hok).
  exists k. split; [| exact Hok]. apply for_range_bounds in Hk. lia.
Qed.

Lemma records_origin ch addr onProgress supply records record :
  totalSupply ch = Normal supply ->
  fst (getNFTsFromContract ch addr onProgress) = Normal records ->
  In record records ->
  exists j k,
    0 <= j < Z.min supply 30 /\ 1 <= k <= 3 /\
    fst (fetchNFTData ch addr j k) = Normal (Some record).
Proof.
  intros Hs Hr Hin.
  destruct (getNFTsFromContract_scan ch addr onProgress supply Hs) as (Hr' & _).
  rewrite Hr in Hr'. injection Hr' as ->. change maxNFTs with 30 in Hin.
  apply in_flat_map in Hin as (j & Hj & Hin).
  apply for_range_bounds in Hj.
  destruct (fetched_attempt _ _ _ _ Hin) as (k & Hk & Hok).
  exists j, k. auto.
Qed.

(** X11.  Every record that the collection fetcher returns was read from
    the chain: it belongs to a scanned index j and one of the three
    attempts k, carries the decimal string of j, the address that was
    passed and the owner that [ownerOf] returned at that attempt, and its
    metadata is the parsed, decoded value of what [tokenURI] returned at
    that attempt. *)
Theorem getNFTsFromContract_records_read ch addr onProgress supply records record :
  totalSupply ch = Normal supply ->
  fst (getNFTsFromContract ch addr onProgress) = Normal records ->
  In record records ->
  exists j k uri text,
    0 <= j < Z.min supply 30 /\ 1 <= k <= 3 /\
    tokenId record = toString j /\
    contractAddress record = addr /\
    tokenURI ch (BNumber j) k = Normal uri /\
    ownerOf ch (BNumber j) k = Normal (owner record) /\
    decodeDataURI uri = Normal text /\
    JSON_parse text = Normal (metadata record).
Proof.
  intros Hs Hr Hin.
  destruct (records_origin _ _ _ _ _ _ Hs Hr Hin) as (j & k & Hj & Hk & Hok).
  destruct (fetchNFTData_some _ _ _ _ _ Hok)
    as (uri & text & Hu & Ho & Hd & Hp & Hid & Haddr & _).
  exists j, k, uri, text. repeat (split; [assumption |]). assumption.
Qed.

Lemma getNFTsFromContract_records_read_witness :
  totalSupply flaky_chain = Normal 3 /\
  exists records,
    fst (getNFTsFromContract flaky_chain sample_address true) = Normal records /\
    forall record, In record records ->
      exists j k uri text,
        0 <= j < Z.min 3 30 /\ 1 <= k <= 3 /\
        tokenId record = toString j /\
        contractAddress record = sample_address /\
        tokenURI flaky_chain (BNumber j) k = Normal uri /\
        ownerOf flaky_chain (BNumber j) k = Normal (owner record) /\
        decodeDataURI uri = Normal text /\
        JSON_parse text = Normal (metadata record).
Proof.
  split; [reflexivity |].
  destruct (fst (getNFTsFromContract flaky_chain sample_address true))
    as [records | e] eqn:E; [| vm_compute in E; discriminate E].
  exists records. split; [reflexivity |]. intros record Hin.
  apply (getNFTsFromContract_records_read flaky_chain sample_address true 3
           records record eq_refl E Hin).
Defined.

(** X12.  In every record that the collection fetcher returns, the
    metadata is not [null] and its [image] is absent, null or a string:
    metadata with an [image] of another type makes the attempt fail. *)
Theorem getNFTsFromContract_image_shape ch addr onProgress supply records record :
  totalSupply ch = Normal supply ->
  fst (getNFTsFromContract ch addr onProgress) = Normal records ->
  In record records ->
  metadata record <> JNull /\ image_absent_or_string (metadata record).
Proof.
  intros Hs Hr Hin.
  destruct (records_origin _ _ _ _ _ _ Hs Hr Hin) as (j & k & _ & _ & Hok).
  destruct (fetchNFTData_some _ _ _ _ _ Hok)
    as (uri & text & _ & _ & _ & _ & _ & _ & Hnn & Himg).
  split; assumption.
Qed.

Lemma getNFTsFromContract_image_shape_witness :
  totalSupply (sample_chain 7) = Normal 7 /\
  Forall (fun record =>
            metadata record <> JNull /\
            image_absent_or_string (metadata record))
    (sample_records 7).
Proof.
  split; [reflexivity |].
  apply Forall_forall. intros record Hin.
  apply (getNFTsFromContract_image_shape (sample_chain 7) sample_address true 7
           (sample_records 7) record); [reflexivity | | exact Hin].
  vm_compute. reflexivity.
Defined.

Lemma progress_calls_app a b :
  progress_calls (a ++ b) = progress_calls a ++ progress_calls b.
Proof. apply flat_map_app. Qed.

Lemma progress_calls_Fetch js : progress_calls (map Fetch js) = [].
Proof.
  unfold progress_calls.
  induction js as [| j js IH]; cbn [map flat_map app]; [| rewrite IH];
    reflexivity.
Qed.

Lemma progress_calls_batch totalTokens lo hi :
  0 <= lo <= hi ->
  progress_calls (batch_progress true totalTokens lo (Z.to_nat (hi - lo))) =
  map (fun k => (k, totalTokens)) (for_range (lo + 1) (hi + 1) 1).
Proof.
  intros H. unfold batch_progress, progress_calls.
  rewrite for_range_seq, <- (seq_shift _ 0), !map_map.
  replace (Z.to_nat (hi + 1 - (lo + 1))) with (Z.to_nat (hi - lo)) by lia.
  induction (seq 0 (Z.to_nat (hi - lo))) as [| k ks IH]; [reflexivity |].
  cbn [map flat_map app]. rewrite IH. f_equal. f_equal. lia.
Qed.

Lemma fold_run_batch_progress ch addr totalTokens :
  forall n lo st,
    (Z.to_nat (totalTokens - lo) <= n)%nat ->
    0 <= lo ->
    processedCount st = lo ->
    progress_calls
      (trace (fold_left (run_batch ch addr true totalTokens)
                (for_range lo totalTokens batchSize) st)) =
    progress_calls (trace st) ++
      map (fun k => (k, totalTokens)) (for_range (lo + 1) (totalTokens + 1) 1).
Proof.
  unfold batchSize.
  induction n as [| n IH]; intros lo st Hn Hlo Hpc.
  - rewrite (for_range_empty lo totalTokens 5),
      (for_range_empty (lo + 1) (totalTokens + 1) 1) by lia.
    cbn. rewrite app_nil_r. reflexivity.
  - destruct (Z.le_gt_cases totalTokens lo) as [Hle | Hgt].
    + rewrite (for_range_empty lo totalTokens 5),
        (for_range_empty (lo + 1) (totalTokens + 1) 1) by lia.
      cbn. rewrite app_nil_r. reflexivity.
    + rewrite (for_range_cons lo totalTokens 5) by lia. cbn [fold_left].
      destruct (run_batch_spec ch addr true totalTokens st lo) as (_ & Hc & Ht).
      set (hi := Z.min (lo + 5) totalTokens).
      assert (length (batch_indices totalTokens lo) = Z.to_nat (hi - lo)) as Hlen
        by (unfold batch_indices, batchSize; apply for_range_length).
      rewrite Hlen, Hpc in Hc, Ht.
      destruct (Z.le_gt_cases (lo + 5) totalTokens) as [Hfull | Hlast].
      * rewrite (IH (lo + 5)); [| lia | lia | rewrite Hc; unfold hi; lia].
        rewrite Ht, !progress_calls_app, progress_calls_Fetch.
        cbn [app]. rewrite progress_calls_batch by (unfold hi; lia).
        rewrite <- app_assoc, <- map_app. do 2 f_equal.
        unfold hi. rewrite Z.min_l by lia.
        apply for_range_app. lia.
      * rewrite (for_range_empty (lo + 5) totalTokens 5) by lia.
        cbn [fold_left].
        rewrite Ht, !progress_calls_app, progress_calls_Fetch.
        cbn [app]. rewrite progress_calls_batch by (unfold hi; lia).
        unfold hi. rewrite Z.min_r by lia. reflexivity.
Qed.

(** X13.  With a progress callback, the collection fetcher calls it once
    per scanned token, with (1, t), (2, t), ..., (t, t) for
    t = min(totalSupply, 30): the count grows by one at each call and the
    last call reports t of t. *)
Theorem getNFTsFromContract_progress ch addr supply :
  totalSupply ch = Normal supply ->
  progress_calls (snd (getNFTsFromContract ch addr true)) =
  map (fun k => (Z.of_nat k, Z.min supply 30))
    (seq 1 (Z.to_nat (Z.min supply 30))).
Proof.
  intros Hs. unfold getNFTsFromContract. rewrite Hs. change maxNFTs with 30.
  destruct (Z.eqb_spec (Z.min supply 30) 0) as [H0 | H0].
  - rewrite H0. reflexivity.
  - cbn [snd].
    rewrite (fold_run_batch_progress ch addr (Z.min supply 30)
               (Z.to_nat (Z.min supply 30)) 0) by (cbn; lia).
    cbn [trace progress_calls flat_map app].
    rewrite for_range_seq, <- (seq_shift _ 0), !map_map.
    replace (Z.to_nat (Z.min supply 30 + 1 - (0 + 1)))
      with (Z.to_nat (Z.min supply 30)) by lia.
    apply map_ext. intros k. f_equal. lia.
Qed.

Lemma getNFTsFromContract_progress_witness :
  totalSupply (sample_chain 45) = Normal 45 /\
  progress_calls (snd (getNFTsFromContract (sample_chain 45) sample_address true)) =
  map (fun k => (Z.of_nat k, 30)) (seq 1 30).
Proof.
  split; [reflexivity |].
  apply (getNFTsFromContract_progress (sample_chain 45) sample_address 45).
  reflexivity.
Defined.

Lemma records_ids_NoDup ch addr onProgress supply records :
  totalSupply ch = Normal supply ->
  fst (getNFTsFromContract ch addr onProgress) = Normal records ->
  NoDup (map tokenId records).
Proof.
  intros Hs Hr.
  destruct (getNFTsFromContract_scan ch addr onProgress supply Hs) as (Hr' & _).
  rewrite Hr in Hr'. injection Hr' as ->.
  destruct (flat_map_fetched_ids ch addr (for_range 0 (Z.min supply maxNFTs) 1)
              (for_range_sorted _ _)) as (js & -> & Hsorted & Hincl).
  apply NoDup_map_toString.
  - apply Forall_forall. intros x Hx. apply Hincl, for_range_bounds in Hx. lia.
  - apply StronglySorted_lt_NoDup. exact Hsorted.
Qed.

(** X14.  The cards of the grid have distinct keys: for the records of one
    collection fetch, the strings [`${contractAddress}-${tokenId}`] are
    pairwise different. *)
Theorem card_keys_distinct ch addr onProgress supply records :
  totalSupply ch = Normal supply ->
  fst (getNFTsFromContract ch addr onProgress) = Normal records ->
  NoDup (map card_key records).
Proof.
  intros Hs Hr.
  pose proof (records_ids_NoDup _ _ _ _ _ Hs Hr) as Hnd.
  assert (forall record, In record records -> contractAddress record = addr)
    as Haddr.
  { intros record Hin.
    destruct (records_origin _ _ _ _ _ _ Hs Hr Hin) as (j & k & _ & _ & Hok).
    destruct (fetchNFTData_some _ _ _ _ _ Hok)
      as (uri & text & _ & _ & _ & _ & _ & Ha & _).
    exact Ha. }
  clear Hs Hr. induction records as [| r rs IH]; [constructor |].
  cbn [map] in *. inversion Hnd as [| ? ? Hnin Hnd']; subst.
  constructor.
  - intros Hin. apply Hnin. apply in_map_iff in Hin as (r' & Hkey & Hin').
    apply in_map_iff. exists r'. split; [| exact Hin'].
    unfold card_key in Hkey.
    rewrite (Haddr r (or_introl eq_refl)), (Haddr r' (or_intror Hin')) in Hkey.
    apply app_inv_head in Hkey. apply app_inv_head in Hkey. exact Hkey.
  - apply IH; [exact Hnd' |]. intros record Hin. apply Haddr. right. exact Hin.
Qed.

Lemma card_keys_distinct_witness :
  totalSupply (sample_chain 7) = Normal 7 /\
  NoDup (map card_key (sample_records 7)).
Proof.
  split; [reflexivity |].
  apply (card_keys_distinct (sample_chain 7) sample_address true 7
           (sample_records 7)); [reflexivity | vm_compute; reflexivity].
Defined.

(** ** The filters of the grid *)

Lemma eqb_eq s t : JSString.eqb s t = true <-> s = t.
Proof.
  revert t. induction s as [| c s IH]; intros [| d t]; cbn [JSString.eqb];
    try (split; [discriminate | intros H; discriminate H]);
    [split; reflexivity |].
  rewrite andb_true_iff, Z.eqb_eq, IH.
  split; [intros [-> ->]; reflexivity | intros [= -> ->]; auto].
Qed.

Lemma eqb_refl s : JSString.eqb s s = true.
Proof. apply eqb_eq. reflexivity. Qed.

Lemma eqb_neq s t : JSString.eqb s t = false <-> s <> t.
Proof.
  destruct (JSString.eqb s t) eqn:E.
  - apply eqb_eq in E. split; [discriminate | congruence].
  - split; [| reflexivity]. intros _ H. apply eqb_eq in H. congruence.
Qed.

Import NFTGridFilters.

Section FilterFacts.

Context {number : Type} (number_eqb : number -> number -> bool).
Hypothesis number_eqb_eq : forall n m, number_eqb n m = true <-> n = m.


Lemma sameValueZero_eq (a b : @AttributeValue number) :
  sameValueZero number_eqb a b = true <-> a = b.
Proof.
  destruct a as [s | n], b as [t | m]; cbn [sameValueZero];
    try (split; [discriminate | intros H; discriminate H]).
  - rewrite eqb_eq. split; [intros -> | intros [= ->]]; reflexivity.
  - rewrite number_eqb_eq. split; [intros -> | intros [= ->]]; reflexivity.
Qed.

Lemma sameValueZero_refl (a : @AttributeValue number) : sameValueZero number_eqb a a = true.
Proof. apply sameValueZero_eq. reflexivity. Qed.

Lemma sameValueZero_sym (a b : @AttributeValue number) :
  sameValueZero number_eqb a b = sameValueZero number_eqb b a.
Proof.
  destruct (sameValueZero number_eqb a b) eqn:E1,
           (sameValueZero number_eqb b a) eqn:E2; try reflexivity.
  - apply sameValueZero_eq in E1. subst.
    rewrite sameValueZero_refl in E2. discriminate.
  - apply sameValueZero_eq in E2. subst.
    rewrite sameValueZero_refl in E1. discriminate.
Qed.

Lemma set_has_In (s : JSSet) (v : @AttributeValue number) : set_has number_eqb s v = true <-> In v s.
Proof.
  unfold set_has. rewrite existsb_exists. split.
  - intros (x & Hx & E). apply sameValueZero_eq in E. subst. exact Hx.
  - intros H. exists v. split; [exact H | apply sameValueZero_refl].
Qed.

Lemma set_has_app (s : JSSet) (v w : @AttributeValue number) :
  set_has number_eqb (s ++ [v]) w = set_has number_eqb s w || sameValueZero number_eqb w v.
Proof. unfold set_has. rewrite existsb_app. cbn. rewrite orb_false_r. reflexivity. Qed.

Lemma set_has_delete (s : JSSet) (v w : @AttributeValue number) :
  set_has number_eqb (set_delete number_eqb s v) w =
  set_has number_eqb s w && negb (sameValueZero number_eqb w v).
Proof.
  unfold set_has, set_delete. induction s as [| x s IH]; [reflexivity |].
  cbn [filter existsb].
  destruct (sameValueZero number_eqb v x) eqn:Evx; cbn [negb existsb].
  - apply sameValueZero_eq in Evx. subst x. rewrite IH.
    destruct (sameValueZero number_eqb w v); cbn; [| reflexivity].
    rewrite andb_false_r. reflexivity.
  - rewrite IH.
    destruct (sameValueZero number_eqb w x) eqn:Ewx; cbn [orb andb];
      [| reflexivity].
    apply sameValueZero_eq in Ewx. subst x.
    rewrite sameValueZero_sym, Evx. reflexivity.
Qed.

Lemma set_delete_nil (s : JSSet) (v w : @AttributeValue number) :
  set_delete number_eqb s v = [] -> set_has number_eqb s w = true -> w = v.
Proof.
  intros Hnil Hw.
  pose proof (set_has_delete s v w) as H. rewrite Hnil, Hw in H.
  cbn in H. destruct (sameValueZero number_eqb w v) eqn:E; [| discriminate].
  apply sameValueZero_eq. exact E.
Qed.

Lemma entry_get_set (m : @entries number) k k' s :
  entry_get (entry_set m k s) k' =
  if JSString.eqb k' k then Some s else entry_get m k'.
Proof.
  induction m as [| [k0 s0] m IH]; cbn [entry_set entry_get].
  - destruct (JSString.eqb k' k); reflexivity.
  - destruct (JSString.eqb k k0) eqn:E; cbn [entry_get].
    + apply eqb_eq in E. subst k0. destruct (JSString.eqb k' k); reflexivity.
    + destruct (JSString.eqb k' k0) eqn:E'.
      * apply eqb_eq in E'. subst k0.
        destruct (JSString.eqb k' k) eqn:E''; [| reflexivity].
        apply eqb_eq in E''. subst k'. rewrite eqb_refl in E. discriminate.
      * exact IH.
Qed.

Lemma entry_get_delete (m : @entries number) k k' :
  entry_get (entry_delete m k) k' =
  if JSString.eqb k' k then None else entry_get m k'.
Proof.
  unfold entry_delete.
  induction m as [| [k0 s0] m IH]; cbn [filter entry_get fst].
  - destruct (JSString.eqb k' k); reflexivity.
  - destruct (JSString.eqb k k0) eqn:E; cbn [negb entry_get].
    + apply eqb_eq in E. subst k0. rewrite IH.
      destruct (JSString.eqb k' k); reflexivity.
    + rewrite IH. destruct (JSString.eqb k' k0) eqn:E'; [| reflexivity].
      apply eqb_eq in E'. subst k0.
      destruct (JSString.eqb k' k) eqn:E''; [| reflexivity].
      apply eqb_eq in E''. subst k'. rewrite eqb_refl in E. discriminate.
Qed.

Lemma entry_set_set (m : @entries number) k s s' :
  entry_set (entry_set m k s) k s' = entry_set m k s'.
Proof.
  induction m as [| [k0 s0] m IH]; cbn [entry_set].
  - rewrite eqb_refl. reflexivity.
  - destruct (JSString.eqb k k0) eqn:E; cbn [entry_set]; rewrite E;
      [reflexivity | rewrite IH; reflexivity].
Qed.

(** What the updater returns, by cases on the previous state. *)
Lemma toggleFilter_cases t (v : @AttributeValue number) (prev : entries) :
  toggleFilter number_eqb t v prev =
  match entry_get prev t with
  | Some values =>
      if set_has number_eqb values v then
        if Nat.eqb (length (set_delete number_eqb values v)) 0 then
          Normal (entry_delete prev t)
        else Normal (entry_set prev t (set_delete number_eqb values v))
      else Normal (entry_set prev t (values ++ [v]))
  | None =>
      if is_object_prototype_key t then Throw TypeError
      else Normal (entry_set prev t [v])
  end.
Proof.
  unfold toggleFilter, get_property.
  destruct (entry_get prev t) as [values |] eqn:Hget.
  - rewrite Hget. destruct (set_has number_eqb values v) eqn:Hhas.
    + destruct (Nat.eqb (length (set_delete number_eqb values v)) 0) eqn:Hlen;
        [| reflexivity].
      f_equal. unfold entry_delete. clear.
      induction prev as [| [k0 s0] m IH]; cbn [entry_set filter fst].
      * rewrite eqb_refl. reflexivity.
      * destruct (JSString.eqb t k0) eqn:E; cbn [filter fst]; rewrite E;
          cbn [negb]; [reflexivity | rewrite IH; reflexivity].
    + unfold set_add. rewrite Hhas. reflexivity.
  - destruct (is_object_prototype_key t) eqn:Hproto.
    + rewrite ?Hget, ?Hproto. reflexivity.
    + rewrite entry_get_set, eqb_refl. cbn [set_has existsb].
      unfold set_add. cbn [set_has existsb app].
      rewrite entry_set_set. reflexivity.
Qed.

(** X15.  A trait whose name is a property name of [Object.prototype]
    (such as [constructor] or [toString]) cannot be filtered on: as long as
    it is not an own key of the state, [toggleFilter] throws a TypeError
    exactly for such names, and so does the test behind its checkbox. *)
Theorem toggleFilter_prototype_key t (v : @AttributeValue number) (prev : entries) :
  entry_get prev t = None ->
  ((exists e, toggleFilter number_eqb t v prev = Throw e) <->
   is_object_prototype_key t = true) /\
  (is_object_prototype_key t = true ->
   toggleFilter number_eqb t v prev = Throw TypeError /\
   isChecked number_eqb prev t v = Throw TypeError) /\
  (is_object_prototype_key t = false ->
   toggleFilter number_eqb t v prev = Normal (prev ++ [(t, [v])]) /\
   isChecked number_eqb prev t v = Normal false).
Proof.
  intros Hget. rewrite toggleFilter_cases, Hget.
  unfold isChecked, get_property. rewrite Hget.
  assert (entry_set prev t [v] = prev ++ [(t, [v])]) as Hset.
  { clear - Hget. induction prev as [| [k0 s0] m IH]; [reflexivity |].
    cbn [entry_get] in Hget. cbn [entry_set app].
    destruct (JSString.eqb t k0); [discriminate |].
    rewrite (IH Hget). reflexivity. }
  destruct (is_object_prototype_key t).
  - split; [split; eauto |]. split; [auto | discriminate].
  - split; [split; [intros [e H]; discriminate H | discriminate] |].
    split; [discriminate |]. intros _. rewrite Hset. auto.
Qed.

(** X16.  A successful toggle flips the selection of its own value and of
    nothing else: the checkbox of (t, v) changes state and every other
    checkbox keeps its state. *)
Theorem toggleFilter_flips t (v : @AttributeValue number) (prev next : entries) :
  is_object_prototype_key t = false ->
  toggleFilter number_eqb t v prev = Normal next ->
  forall t' v',
    isChecked number_eqb next t' v' =
    if JSString.eqb t' t && sameValueZero number_eqb v' v then
      checked <- isChecked number_eqb prev t v ;; Normal (negb checked)
    else isChecked number_eqb prev t' v'.
Proof.
  intros Hproto Htoggle t' v'. rewrite toggleFilter_cases in Htoggle.
  unfold isChecked, get_property.
  destruct (JSString.eqb t' t) eqn:Et; cbn [andb].
  2:{ assert (entry_get next t' = entry_get prev t') as ->; [| reflexivity].
      destruct (entry_get prev t) as [values |].
      - destruct (set_has number_eqb values v).
        + destruct (Nat.eqb (length (set_delete number_eqb values v)) 0);
            injection Htoggle as <-;
            [rewrite entry_get_delete | rewrite entry_get_set];
            rewrite Et; reflexivity.
        + injection Htoggle as <-. rewrite entry_get_set, Et. reflexivity.
      - rewrite Hproto in Htoggle. injection Htoggle as <-.
        rewrite entry_get_set, Et. reflexivity. }
  apply eqb_eq in Et. subst t'. rewrite Hproto.
  destruct (entry_get prev t) as [values |] eqn:Hget.
  - destruct (set_has number_eqb values v) eqn:Hhas.
    + destruct (Nat.eqb (length (set_delete number_eqb values v)) 0) eqn:Hlen;
        injection Htoggle as <-.
      * rewrite entry_get_delete, eqb_refl. cbn [bind negb].
        destruct (sameValueZero number_eqb v' v) eqn:Ev; [reflexivity |].
        destruct (set_has number_eqb values v') eqn:Hv'; [| reflexivity].
        exfalso. apply Nat.eqb_eq, length_zero_iff_nil in Hlen.
        pose proof (set_delete_nil values v v' Hlen Hv') as ->.
        rewrite sameValueZero_refl in Ev. discriminate.
      * rewrite entry_get_set, eqb_refl, set_has_delete. cbn [bind].
        destruct (sameValueZero number_eqb v' v) eqn:Ev; cbn [negb].
        -- rewrite andb_false_r. reflexivity.
        -- rewrite andb_true_r. reflexivity.
    + injection Htoggle as <-.
      rewrite entry_get_set, eqb_refl, set_has_app. cbn [bind negb].
      destruct (sameValueZero number_eqb v' v) eqn:Ev.
      * rewrite orb_true_r. reflexivity.
      * rewrite orb_false_r. reflexivity.
  - rewrite Hproto in Htoggle. injection Htoggle as <-.
    rewrite entry_get_set, eqb_refl. cbn [bind negb set_has existsb].
    rewrite orb_false_r.
    destruct (sameValueZero number_eqb v' v); reflexivity.
Qed.

Lemma activeFilterCount_sum (m : @entries number) :
  activeFilterCount m = list_sum (map (fun e => length (snd e)) m).
Proof.
  unfold activeFilterCount.
  assert (forall n, fold_left (fun count entry => (count + length (snd entry))%nat) m n
                    = (n + list_sum (map (fun e => length (snd e)) m))%nat) as H.
  { assert (forall a l, list_sum (a :: l) = (a + list_sum l)%nat) as Hcons
      by reflexivity.
    induction m as [| e m IH]; intros n; cbn [fold_left map];
      [cbn; lia | rewrite IH, Hcons; lia]. }
  apply H.
Qed.

Lemma list_sum_cons a l : list_sum (a :: l) = (a + list_sum l)%nat.
Proof. reflexivity. Qed.

Lemma entry_get_In (m : @entries number) k s :
  NoDup (map fst m) -> (entry_get m k = Some s <-> In (k, s) m).
Proof.
  induction m as [| [k0 s0] m IH]; cbn [map fst entry_get In]; intros Hnd.
  - split; [discriminate | contradiction].
  - inversion Hnd as [| ? ? Hnin Hnd']; subst.
    destruct (JSString.eqb k k0) eqn:E.
    + apply eqb_eq in E. subst k0. split.
      * intros [= ->]. left. reflexivity.
      * intros [[= ->] | Hin]; [reflexivity |].
        exfalso. apply Hnin. apply in_map_iff. exists (k, s). auto.
    + rewrite (IH Hnd'). split; [auto |].
      intros [[= -> ->] | Hin]; [| exact Hin].
      rewrite eqb_refl in E. discriminate.
Qed.

Lemma entry_get_None (m : @entries number) k :
  entry_get m k = None <-> ~ In k (map fst m).
Proof.
  induction m as [| [k0 s0] m IH]; cbn [map fst entry_get In].
  - tauto.
  - destruct (JSString.eqb k k0) eqn:E.
    + apply eqb_eq in E. subst. split; [discriminate | tauto].
    + apply eqb_neq in E. rewrite IH. split; [intros H [H' | H']; auto | tauto].
Qed.

Lemma entry_set_present (m : @entries number) k s s' :
  entry_get m k = Some s ->
  map fst (entry_set m k s') = map fst m /\
  (list_sum (map (fun e => length (snd e)) (entry_set m k s')) + length s =
   list_sum (map (fun e => length (snd e)) m) + length s')%nat /\
  (forall P : jsstring * JSSet -> Prop,
      Forall P m -> P (k, s') -> Forall P (entry_set m k s')).
Proof.
  induction m as [| [k0 s0] m IH]; cbn [entry_get entry_set]; [discriminate |].
  destruct (JSString.eqb k k0) eqn:E.
  - intros [= ->]. apply eqb_eq in E. subst k0.
    cbn [map fst snd]; rewrite ?list_sum_cons. repeat split; [lia |].
    intros P HP Hk. inversion HP; subst. constructor; assumption.
  - intros H. destruct (IH H) as (Hk & Hsum & HP).
    cbn [map fst snd]; rewrite ?list_sum_cons. rewrite Hk. repeat split; [lia |].
    intros P HPm Hks. inversion HPm; subst. constructor; auto.
Qed.

Lemma entry_set_absent (m : @entries number) k s' :
  entry_get m k = None -> entry_set m k s' = m ++ [(k, s')].
Proof.
  induction m as [| [k0 s0] m IH]; cbn [entry_get entry_set app];
    [reflexivity |].
  destruct (JSString.eqb k k0); [discriminate |].
  intros H. rewrite (IH H). reflexivity.
Qed.

Lemma entry_delete_present (m : @entries number) k s :
  NoDup (map fst m) ->
  entry_get m k = Some s ->
  NoDup (map fst (entry_delete m k)) /\
  (list_sum (map (fun e => length (snd e)) (entry_delete m k)) + length s =
   list_sum (map (fun e => length (snd e)) m))%nat /\
  (forall P : jsstring * JSSet -> Prop,
      Forall P m -> Forall P (entry_delete m k)).
Proof.
  unfold entry_delete.
  induction m as [| [k0 s0] m IH]; cbn [entry_get map fst]; [discriminate |].
  intros Hnd. inversion Hnd as [| ? ? Hnin Hnd']; subst.
  cbn [filter fst]. destruct (JSString.eqb k k0) eqn:E; cbn [negb].
  - intros [= ->]. apply eqb_eq in E. subst k0.
    assert (filter (fun e : jsstring * JSSet => negb (JSString.eqb k (fst e))) m = m)
      as ->.
    { apply forallb_filter_id. apply forallb_forall. intros [k1 s1] Hin.
      cbn [fst]. apply negb_true_iff, eqb_neq. intros <-.
      apply Hnin. apply in_map_iff. exists (k, s1). auto. }
    cbn [map snd]; rewrite ?list_sum_cons. repeat split; [exact Hnd' | lia |].
    intros P HP. inversion HP; assumption.
  - intros H. destruct (IH Hnd' H) as (Hnd'' & Hsum & HP).
    cbn [map fst snd]; rewrite ?list_sum_cons. repeat split.
    + constructor; [| exact Hnd''].
      intros Hin. apply Hnin. apply in_map_iff in Hin as (e & He & Hin).
      apply filter_In in Hin as [Hin _]. apply in_map_iff. exists e. auto.
    + lia.
    + intros P HPm. inversion HPm; subst. constructor; auto.
Qed.

Lemma set_delete_length (s : JSSet) (v : @AttributeValue number) :
  NoDup s -> In v s ->
  NoDup (set_delete number_eqb s v) /\
  (length (set_delete number_eqb s v) + 1 = length s)%nat.
Proof.
  unfold set_delete. induction 1 as [| x s Hnin Hnd IH]; [contradiction |].
  intros Hin. cbn [filter].
  destruct (sameValueZero number_eqb v x) eqn:E; cbn [negb].
  - apply sameValueZero_eq in E. subst x.
    assert (filter (fun x => negb (sameValueZero number_eqb v x)) s = s) as ->.
    { apply forallb_filter_id. apply forallb_forall. intros y Hy.
      apply negb_true_iff.
      destruct (sameValueZero number_eqb v y) eqn:E'; [| reflexivity].
      apply sameValueZero_eq in E'. subst. contradiction. }
    split; [exact Hnd | cbn [length]; lia].
  - destruct Hin as [-> | Hin];
      [rewrite sameValueZero_refl in E; discriminate |].
    destruct (IH Hin) as [Hnd' Hlen]. split.
    + constructor; [| exact Hnd'].
      intros H. apply filter_In in H as [H _]. contradiction.
    + cbn [length]. lia.
Qed.

Lemma reachable_count (m : @entries number) :
  reachable_filters m -> (length m = 0%nat <-> activeFilterCount m = 0%nat).
Proof.
  intros [_ Hall]. rewrite activeFilterCount_sum.
  destruct m as [| [k s] m]; [split; reflexivity |].
  inversion Hall as [| ? ? (_ & Hne & _) _]; subst. cbn [snd] in Hne.
  cbn [length map snd]; rewrite ?list_sum_cons. destruct s; [congruence |].
  cbn [length]. split; intros H; lia.
Qed.

Lemma toggleFilter_keeps_reachable t (v : @AttributeValue number) (prev : entries) :
  reachable_filters prev ->
  is_object_prototype_key t = false ->
  exists next,
    toggleFilter number_eqb t v prev = Normal next /\
    reachable_filters next /\
    activeFilterCount next =
      (if selected number_eqb prev t v then activeFilterCount prev - 1
       else activeFilterCount prev + 1)%nat /\
    (length next = 0%nat <-> activeFilterCount next = 0%nat).
Proof.
  intros [Hkeys Hall] Hproto.
  assert (exists next,
             toggleFilter number_eqb t v prev = Normal next /\
             reachable_filters next /\
             activeFilterCount next =
               (if selected number_eqb prev t v then activeFilterCount prev - 1
                else activeFilterCount prev + 1)%nat) as (next & H1 & H2 & H3).
  2:{ exists next. split; [exact H1 |]. split; [exact H2 |].
      split; [exact H3 | apply reachable_count; exact H2]. }
  rewrite toggleFilter_cases. unfold selected.
  rewrite !activeFilterCount_sum.
  destruct (entry_get prev t) as [values |] eqn:Hget.
  - assert (In (t, values) prev) as Hin by (apply entry_get_In; assumption).
    pose proof (proj1 (Forall_forall _ _) Hall _ Hin) as (_ & Hne & Hnd).
    cbn [fst snd] in Hne, Hnd.
    destruct (set_has number_eqb values v) eqn:Hhas.
    + apply set_has_In in Hhas.
      destruct (set_delete_length values v Hnd Hhas) as [Hnd' Hlen].
      destruct (Nat.eqb (length (set_delete number_eqb values v)) 0) eqn:Hz.
      * apply Nat.eqb_eq in Hz.
        destruct (entry_delete_present prev t values Hkeys Hget)
          as (Hk & Hsum & HP).
        eexists. split; [reflexivity |]. split.
        -- split; [exact Hk | apply HP; exact Hall].
        -- rewrite activeFilterCount_sum. lia.
      * apply Nat.eqb_neq in Hz.
        destruct (entry_set_present prev t values
                    (set_delete number_eqb values v) Hget) as (Hk & Hsum & HP).
        eexists. split; [reflexivity |]. split.
        -- split; [rewrite Hk; exact Hkeys |].
           apply HP; [exact Hall |]. cbn [fst snd].
           repeat split; [exact Hproto | | exact Hnd'].
           intros E. rewrite E in Hz. apply Hz. reflexivity.
        -- rewrite activeFilterCount_sum. lia.
    + destruct (entry_set_present prev t values (values ++ [v]) Hget)
        as (Hk & Hsum & HP).
      eexists. split; [reflexivity |]. split.
      * split; [rewrite Hk; exact Hkeys |].
        apply HP; [exact Hall |]. cbn [fst snd].
        repeat split; [exact Hproto | destruct values; discriminate |].
        apply NoDup_app; [exact Hnd | repeat constructor; auto |].
        intros x Hx [<- | []].
        apply set_has_In in Hx. rewrite Hx in Hhas. discriminate.
      * rewrite activeFilterCount_sum. rewrite length_app in Hsum.
        cbn [length] in Hsum. lia.
  - rewrite Hproto, (entry_set_absent _ _ _ Hget).
    eexists. split; [reflexivity |]. split.
    + split.
      * rewrite map_app. cbn [map fst]. apply NoDup_app;
          [exact Hkeys | repeat constructor; auto |].
        intros x Hx [<- | []]. apply entry_get_None in Hget. contradiction.
      * apply Forall_app. split; [exact Hall |].
        repeat constructor; cbn [fst snd]; [exact Hproto | discriminate | auto].
    + rewrite activeFilterCount_sum, map_app, list_sum_app.
      cbn. reflexivity.
Qed.

(** X17.  Starting from the empty object, an ordinary toggle never fails
    and keeps the state well formed (no key twice, no empty set, no value
    twice); it changes the number of selected values by exactly one; and
    the state has no key exactly when that number is zero, so the two tests
    of the component for "no filter is active" agree. *)
Theorem toggleFilter_reachable t (v : @AttributeValue number) (prev : entries) :
  reachable_filters prev ->
  is_object_prototype_key t = false ->
  exists next,
    toggleFilter number_eqb t v prev = Normal next /\
    reachable_filters next /\
    activeFilterCount next =
      (if selected number_eqb prev t v then activeFilterCount prev - 1
       else activeFilterCount prev + 1)%nat /\
    (length next = 0%nat <-> activeFilterCount next = 0%nat).
Proof. apply toggleFilter_keeps_reachable. Qed.


















End FilterFacts.

Lemma sample_filters_reachable : reachable_filters sample_filters.
Proof.
  split.
  - repeat constructor; cbn; intuition discriminate.
  - repeat constructor; cbn; try discriminate; intuition discriminate.
Qed.

Lemma toggleFilter_prototype_key_witness :
  entry_get sample_filters (lit "constructor") = None /\
  toggleFilter Z.eqb (lit "constructor") (VString (lit "Object")) sample_filters
  = Throw TypeError.
Proof.
  split; [reflexivity |].
  exact (proj1 (proj1 (proj2 (toggleFilter_prototype_key Z.eqb
                  (lit "constructor") (VString (lit "Object")) sample_filters
                  eq_refl)) eq_refl)).
Defined.

Lemma toggleFilter_flips_witness :
  isChecked Z.eqb
    [(lit "Color", [VString (lit "Red"); VString (lit "Blue")]);
     (lit "Size", [VNumber 3; VNumber 5])]
    (lit "Size") (VNumber 5) = Normal true.
Proof.
  exact (toggleFilter_flips Z.eqb Z.eqb_eq (lit "Size") (VNumber 5)
           sample_filters _ eq_refl eq_refl (lit "Size") (VNumber 5)).
Defined.

Lemma toggleFilter_reachable_witness :
  exists next,
    toggleFilter Z.eqb (lit "Size") (VNumber 3) sample_filters = Normal next /\
    reachable_filters next /\
    activeFilterCount next = 2%nat /\
    (length next = 0%nat <-> activeFilterCount next = 0%nat).
Proof.
  exact (toggleFilter_reachable Z.eqb Z.eqb_eq (lit "Size") (VNumber 3)
           sample_filters sample_filters_reachable eq_refl).
Defined.






(** Without that condition an offered option can match nothing: [find]
    takes the first attribute of the trait, the options hold all of them. *)
Lemma offered_option_may_match_nothing :
  filterOptions Z.eqb [two_colour_nft]
  = Normal [(lit "Color", [VString (lit "Red"); VString (lit "Blue")])] /\
  toggleFilter Z.eqb (lit "Color") (VString (lit "Blue")) clearFilters
  = Normal [(lit "Color", [VString (lit "Blue")])] /\
  filteredNFTs Z.eqb [two_colour_nft] [(lit "Color", [VString (lit "Blue")])]
  = [].
Proof.
  split; [reflexivity |]. split; reflexivity.
Qed.

(** ** The filters over a store of sets *)

Section StoreFacts.

Context {number : Type} (number_eqb : number -> number -> bool).

Hypothesis number_eqb_eq : forall n m, number_eqb n m = true <-> n = m.

Import FilterStore.

Lemma deref_assign (h : @store number) r s :
  (r < length h)%nat -> deref (assign h r s) r = Some s.
Proof.
  unfold deref. revert r. induction h as [| x h IH]; intros [| r] Hlt;
    cbn in *; try lia; [reflexivity |]. apply IH. lia.
Qed.

Lemma deref_assign_other (h : @store number) r r' s :
  r <> r' -> deref (assign h r s) r' = deref h r'.
Proof.
  unfold deref. revert r r'.
  induction h as [| x h IH]; intros [| r] [| r'] Hne; cbn; try reflexivity;
    try congruence.
  apply IH. congruence.
Qed.

Lemma deref_Some (h : @store number) r s :
  deref h r = Some s -> (r < length h)%nat.
Proof.
  unfold deref. intros H. apply nth_error_Some. congruence.
Qed.

Lemma deref_alloc (h : @store number) r s :
  deref h r = Some s -> deref (h ++ [[]]) r = Some s.
Proof.
  intros H. unfold deref. rewrite nth_error_app1; [exact H |].
  apply (deref_Some _ _ _ H).
Qed.

Lemma deref_new (h : @store number) : deref (h ++ [[]]) (length h) = Some [].
Proof.
  unfold deref. rewrite nth_error_app2, Nat.sub_diag; [reflexivity | lia].
Qed.

Lemma view_refs (h : @store number) o e :
  view h o = Some e -> Forall (fun p => (snd p < length h)%nat) o.
Proof.
  revert e. induction o as [| [k r] o IH]; intros e H; [constructor |].
  cbn [view] in H. destruct (deref h r) as [s |] eqn:Hr; [| discriminate].
  destruct (view h o) as [e' |]; [| discriminate].
  constructor; [exact (deref_Some _ _ _ Hr) | eapply IH; reflexivity].
Qed.

Lemma view_get (h : @store number) o e k :
  view h o = Some e ->
  entry_get e k =
  match ref_get o k with Some r => deref h r | None => None end.
Proof.
  revert e. induction o as [| [k' r] o IH]; intros e H; cbn [view] in H.
  - injection H as <-. reflexivity.
  - destruct (deref h r) as [s |] eqn:Hr; [| discriminate].
    destruct (view h o) as [e' |]; [| discriminate].
    injection H as <-. cbn [entry_get ref_get].
    destruct (JSString.eqb k k'); [symmetry; exact Hr | apply IH; reflexivity].
Qed.

Lemma ref_get_In (o : object) k r : ref_get o k = Some r -> In r (map snd o).
Proof.
  induction o as [| [k' r'] o IH]; [discriminate |]. cbn [ref_get map snd].
  destruct (JSString.eqb k k'); [intros [= ->]; left; reflexivity |].
  intros H. right. apply IH. exact H.
Qed.

Lemma view_assign_other (h : @store number) o r s :
  ~ In r (map snd o) -> view (assign h r s) o = view h o.
Proof.
  induction o as [| [k r'] o IH]; intros Hnin; [reflexivity |].
  cbn [view]. cbn [map snd] in Hnin.
  rewrite deref_assign_other by (intros ->; apply Hnin; left; reflexivity).
  rewrite IH by (intros Hin; apply Hnin; right; exact Hin). reflexivity.
Qed.

Lemma view_assign (h : @store number) o e k r s :
  NoDup (map snd o) ->
  view h o = Some e ->
  ref_get o k = Some r ->
  view (assign h r s) o = Some (entry_set e k s).
Proof.
  revert e. induction o as [| [k' r'] o IH]; intros e Hnd Hview Hget;
    [discriminate |].
  cbn [view] in Hview. destruct (deref h r') as [s' |] eqn:Hr; [| discriminate].
  destruct (view h o) as [e' |] eqn:Hv; [| discriminate].
  injection Hview as <-. cbn [map snd] in Hnd.
  inversion Hnd as [| ? ? Hnin Hnd']; subst.
  cbn [ref_get] in Hget. cbn [view entry_set].
  destruct (JSString.eqb k k') eqn:E.
  - injection Hget as <-.
    rewrite deref_assign by (exact (deref_Some _ _ _ Hr)).
    rewrite view_assign_other by exact Hnin. rewrite Hv. reflexivity.
  - assert (r <> r') as Hne.
    { intros ->. apply Hnin. exact (ref_get_In _ _ _ Hget). }
    rewrite deref_assign_other by exact Hne. rewrite Hr.
    rewrite (IH e' Hnd' eq_refl Hget). reflexivity.
Qed.

Lemma view_alloc (h : @store number) o e :
  view h o = Some e -> view (h ++ [[]]) o = Some e.
Proof.
  revert e. induction o as [| [k r] o IH]; intros e H; [exact H |].
  cbn [view] in *. destruct (deref h r) as [s |] eqn:Hr; [| discriminate].
  destruct (view h o) as [e' |]; [| discriminate].
  rewrite (deref_alloc _ _ _ Hr), (IH e' eq_refl). exact H.
Qed.

Lemma view_set_new (h h' : @store number) o e k r s :
  view h' o = Some e ->
  deref h' r = Some s ->
  ref_get o k = None ->
  view h' (ref_set o k r) = Some (entry_set e k s).
Proof.
  revert e. induction o as [| [k' r'] o IH]; intros e Hview Hr Hget.
  - injection Hview as <-. cbn [ref_set view entry_set]. rewrite Hr.
    reflexivity.
  - cbn [view] in Hview.
    destruct (deref h' r') as [s' |] eqn:Hr'; [| discriminate].
    destruct (view h' o) as [e' |] eqn:Hv; [| discriminate].
    injection Hview as <-. cbn [ref_get] in Hget. cbn [ref_set entry_set].
    destruct (JSString.eqb k k'); [discriminate |].
    cbn [view]. rewrite Hr', (IH e' eq_refl Hr Hget). reflexivity.
Qed.

Lemma view_delete (h : @store number) o e k :
  view h o = Some e -> view h (ref_delete o k) = Some (entry_delete e k).
Proof.
  revert e. induction o as [| [k' r] o IH]; intros e H.
  - injection H as <-. reflexivity.
  - cbn [view] in H. destruct (deref h r) as [s |] eqn:Hr; [| discriminate].
    destruct (view h o) as [e' |] eqn:Hv; [| discriminate].
    injection H as <-. unfold ref_delete, entry_delete.
    cbn [filter fst]. destruct (JSString.eqb k k'); cbn [negb].
    + apply (IH e' eq_refl).
    + cbn [view]. rewrite Hr. fold (ref_delete o k).
      rewrite (IH e' eq_refl). reflexivity.
Qed.

Lemma ref_set_refs (o : object) k r :
  ref_get o k = None -> map snd (ref_set o k r) = map snd o ++ [r].
Proof.
  induction o as [| [k' r'] o IH]; [reflexivity |]. cbn [ref_get ref_set].
  destruct (JSString.eqb k k'); [discriminate |]. intros H.
  cbn [map snd app]. rewrite (IH H). reflexivity.
Qed.

Lemma ref_get_set (o : object) k r : ref_get (ref_set o k r) k = Some r.
Proof.
  induction o as [| [k' r'] o IH]; cbn [ref_set ref_get].
  - rewrite eqb_refl. reflexivity.
  - destruct (JSString.eqb k k') eqn:E; cbn [ref_get]; rewrite E;
      [reflexivity | exact IH].
Qed.

Lemma ref_delete_NoDup (o : object) k :
  NoDup (map snd o) -> NoDup (map snd (ref_delete o k)).
Proof.
  induction o as [| [k' r] o IH]; [intros; constructor |].
  cbn [map snd]. intros Hnd. inversion Hnd as [| ? ? Hnin Hnd']; subst.
  unfold ref_delete. cbn [filter fst].
  destruct (negb (JSString.eqb k k')); [| apply IH; exact Hnd'].
  cbn [map snd]. constructor; [| apply IH; exact Hnd'].
  intros Hin. apply Hnin. apply in_map_iff in Hin.
  destruct Hin as (p & Hp & Hin). apply filter_In in Hin.
  apply in_map_iff. exists p. split; [exact Hp | apply Hin].
Qed.

Lemma entry_delete_set (e : @entries number) k s :
  entry_delete (entry_set e k s) k = entry_delete e k.
Proof.
  unfold entry_delete.
  induction e as [| [k0 s0] m IH]; cbn [entry_set filter fst].
  - rewrite eqb_refl. reflexivity.
  - destruct (JSString.eqb k k0) eqn:E; cbn [filter fst]; rewrite E;
      cbn [negb]; [reflexivity | rewrite IH; reflexivity].
Qed.

(** The updater over the store, by cases on the previous state. *)
Lemma toggleFilter_store_cases t (v : @AttributeValue number) prev h e :
  view h prev = Some e ->
  toggleFilter number_eqb t v prev h =
  match ref_get prev t with
  | Some r =>
      match deref h r with
      | Some values =>
          if set_has number_eqb values v then
            if Nat.eqb (length (set_delete number_eqb values v)) 0 then
              Normal (ref_delete prev t,
                      assign h r (set_delete number_eqb values v))
            else Normal (prev, assign h r (set_delete number_eqb values v))
          else Normal (prev, assign h r (values ++ [v]))
      | None => Throw TypeError
      end
  | None =>
      if is_object_prototype_key t then Throw TypeError
      else Normal (ref_set prev t (length h), assign (h ++ [[]]) (length h) [v])
  end.
Proof.
  intros Hview. unfold toggleFilter, get_reference.
  destruct (ref_get prev t) as [r |] eqn:Hget.
  - rewrite Hget. destruct (deref h r) as [values |] eqn:Hr; [| reflexivity].
    destruct (set_has number_eqb values v) eqn:Hhas.
    + rewrite deref_assign by (exact (deref_Some _ _ _ Hr)). reflexivity.
    + unfold set_add. rewrite Hhas. reflexivity.
  - destruct (is_object_prototype_key t) eqn:Hproto.
    + rewrite ?Hget, ?Hproto. reflexivity.
    + unfold new_Set. rewrite ref_get_set, deref_new.
      cbn [set_has existsb]. unfold set_add. cbn [set_has existsb app].
      reflexivity.
Qed.

(** A call on a key that the previous state has: the store after it, the
    view of the result and the view of the previous state. *)
Lemma toggleFilter_store_present t (v : @AttributeValue number) prev h e r values :
  NoDup (map snd prev) ->
  view h prev = Some e ->
  ref_get prev t = Some r ->
  deref h r = Some values ->
  let values' :=
    if set_has number_eqb values v then set_delete number_eqb values v
    else values ++ [v] in
  exists next,
    toggleFilter number_eqb t v prev h = Normal (next, assign h r values') /\
    view (assign h r values') prev = Some (entry_set e t values') /\
    view (assign h r values') next =
    Some (if set_has number_eqb values v && Nat.eqb (length values') 0
          then entry_delete e t else entry_set e t values').
Proof.
  intros Hnd Hview Hget Hr values'.
  assert (view (assign h r values') prev = Some (entry_set e t values')) as Hv'
      by (apply view_assign; assumption).
  rewrite (toggleFilter_store_cases t v prev h e Hview), Hget, Hr.
  subst values'. destruct (set_has number_eqb values v); cbn [andb].
  - destruct (Nat.eqb (length (set_delete number_eqb values v)) 0).
    + eexists. split; [reflexivity |]. split; [exact Hv' |].
      rewrite <- (entry_delete_set e t (set_delete number_eqb values v)).
      apply view_delete. exact Hv'.
    + eexists. split; [reflexivity |]. split; exact Hv'.
  - eexists. split; [reflexivity |]. split; exact Hv'.
Qed.

(** X22.  The updater over the store of sets agrees with the updater on
    values: when no two keys of the previous state share a set, it throws
    when that one throws, and the object it returns shows, through the store
    after the call, the state that that one returns; again no two keys share
    a set. *)
Theorem toggleFilter_store_view t (v : @AttributeValue number) prev h e :
  NoDup (map snd prev) ->
  view h prev = Some e ->
  match toggleFilter number_eqb t v prev h with
  | Normal (next, h') =>
      NoDup (map snd next) /\
      exists e',
        view h' next = Some e' /\
        NFTGridFilters.toggleFilter number_eqb t v e = Normal e'
  | Throw err => NFTGridFilters.toggleFilter number_eqb t v e = Throw err
  end.
Proof.
  intros Hnd Hview.
  rewrite (toggleFilter_store_cases t v prev h e Hview), toggleFilter_cases.
  rewrite (view_get h prev e t Hview).
  destruct (ref_get prev t) as [r |] eqn:Hget.
  - destruct (deref h r) as [values |] eqn:Hr.
    2:{ exfalso. pose proof (view_refs _ _ _ Hview) as Hall.
        rewrite Forall_forall in Hall.
        apply ref_get_In in Hget. apply in_map_iff in Hget.
        destruct Hget as (p & <- & Hp). specialize (Hall _ Hp).
        apply nth_error_None in Hr. lia. }
    destruct (set_has number_eqb values v).
    + destruct (Nat.eqb (length (set_delete number_eqb values v)) 0).
      * split; [apply ref_delete_NoDup; exact Hnd |].
        eexists. split; [| reflexivity].
        rewrite <- (entry_delete_set e t (set_delete number_eqb values v)).
        apply view_delete. apply view_assign; assumption.
      * split; [exact Hnd |]. eexists. split; [| reflexivity].
        apply view_assign; assumption.
    + split; [exact Hnd |]. eexists. split; [| reflexivity].
      apply view_assign; assumption.
  - destruct (is_object_prototype_key t); [reflexivity |].
    split.
    + rewrite (ref_set_refs _ _ _ Hget). apply NoDup_app;
        [exact Hnd | repeat constructor; auto |].
      intros x Hx [<- | []]. pose proof (view_refs _ _ _ Hview) as Hall.
      rewrite Forall_forall in Hall. apply in_map_iff in Hx.
      destruct Hx as (p & Hp & Hin). specialize (Hall _ Hin). lia.
    + eexists. split; [| reflexivity].
      assert (entry_set e t [v] = entry_set (entry_set e t []) t [v]) as ->
        by (rewrite entry_set_set; reflexivity).
      apply view_assign.
      * rewrite (ref_set_refs _ _ _ Hget). apply NoDup_app;
          [exact Hnd | repeat constructor; auto |].
        intros x Hx [<- | []]. pose proof (view_refs _ _ _ Hview) as Hall.
        rewrite Forall_forall in Hall. apply in_map_iff in Hx.
        destruct Hx as (p & Hp & Hin). specialize (Hall _ Hin). lia.
      * apply (view_set_new h); [apply view_alloc; exact Hview | apply deref_new
                                 | exact Hget].
      * apply ref_get_set.
Qed.

(** X23.  The updater changes its argument.  When the trait is a key of the
    previous state, the call changes the set that the previous state holds:
    read after the call, the previous state shows the value toggled as
    well.  A second call on the same previous state then toggles it back:
    it returns the selection of before the first call. *)
Theorem toggleFilter_changes_previous_state
  t (v : @AttributeValue number) prev h e values next h1 :
  NoDup (map snd prev) ->
  view h prev = Some e ->
  entry_get e t = Some values ->
  toggleFilter number_eqb t v prev h = Normal (next, h1) ->
  (exists e1,
      view h1 prev = Some e1 /\
      selected number_eqb e1 t v = negb (selected number_eqb e t v)) /\
  (exists next2 h2 e2,
      toggleFilter number_eqb t v prev h1 = Normal (next2, h2) /\
      view h2 next2 = Some e2 /\
      forall t' v', selected number_eqb e2 t' v' = selected number_eqb e t' v').
Proof.
  intros Hnd Hview Hget Hcall.
  pose proof (view_get h prev e t Hview) as Hg. rewrite Hget in Hg.
  destruct (ref_get prev t) as [r |] eqn:Href; [| discriminate].
  symmetry in Hg.
  destruct (toggleFilter_store_present t v prev h e r values Hnd Hview Href Hg)
    as (next' & Hcall' & Hprev1 & _).
  rewrite Hcall in Hcall'. injection Hcall' as _ ->.
  set (values' := if set_has number_eqb values v
                  then set_delete number_eqb values v else values ++ [v]) in *.
  assert (set_has number_eqb values' v = negb (set_has number_eqb values v))
    as Hflip.
  { subst values'. destruct (set_has number_eqb values v) eqn:Hhas.
    - rewrite set_has_delete, sameValueZero_refl by assumption.
      rewrite andb_false_r. reflexivity.
    - rewrite set_has_app, sameValueZero_refl by assumption.
      rewrite orb_true_r. reflexivity. }
  split.
  - exists (entry_set e t values'). split; [exact Hprev1 |].
    unfold selected. rewrite entry_get_set, eqb_refl, Hget. exact Hflip.
  - assert (deref (assign h r values') r = Some values') as Hr1
        by (apply deref_assign; exact (deref_Some _ _ _ Hg)).
    destruct (toggleFilter_store_present t v prev _ _ r values' Hnd Hprev1
                Href Hr1) as (next2 & Hcall2 & _ & Hview2).
    cbv zeta in Hcall2, Hview2.
    set (values'' := if set_has number_eqb values' v
                     then set_delete number_eqb values' v
                     else values' ++ [v]) in *.
    assert (forall v', set_has number_eqb values'' v'
                       = set_has number_eqb values v') as Hsame.
    { intros v'. subst values'' values'.
      destruct (set_has number_eqb values v) eqn:Hhas; cbn [negb] in Hflip;
        rewrite Hflip.
      - rewrite set_has_app, set_has_delete by assumption.
        destruct (sameValueZero number_eqb v' v) eqn:Ev; cbn [negb].
        + apply sameValueZero_eq in Ev; [| assumption]. subst v'.
          rewrite Hhas. reflexivity.
        + rewrite andb_true_r, orb_false_r. reflexivity.
      - rewrite set_has_delete, set_has_app by assumption.
        destruct (sameValueZero number_eqb v' v) eqn:Ev; cbn [negb].
        + apply sameValueZero_eq in Ev; [| assumption]. subst v'.
          rewrite Hhas. reflexivity.
        + rewrite andb_true_r, orb_false_r. reflexivity. }
    eexists. eexists. eexists. split; [exact Hcall2 |].
    split; [exact Hview2 |].
    intros t' v'. unfold selected.
    destruct (set_has number_eqb values' v &&
              Nat.eqb (length values'') 0) eqn:Hempty.
    + apply andb_true_iff in Hempty. destruct Hempty as [_ Hlen].
      apply Nat.eqb_eq, length_zero_iff_nil in Hlen.
      rewrite entry_get_delete, entry_get_set.
      destruct (JSString.eqb t' t) eqn:Et; [| reflexivity].
      apply eqb_eq in Et. subst t'. rewrite Hget, <- Hsame, Hlen. reflexivity.
    + rewrite entry_set_set, entry_get_set.
      destruct (JSString.eqb t' t) eqn:Et; [| reflexivity].
      apply eqb_eq in Et. subst t'. rewrite Hget. apply Hsame.
Qed.

End StoreFacts.

Lemma sample_object_refs : NoDup (map snd sample_object).
Proof. repeat constructor; cbn; intuition discriminate. Qed.

Lemma toggleFilter_store_view_witness :
  NoDup (map snd sample_object) /\
  exists e',
    FilterStore.view
      [[VString (lit "Red"); VString (lit "Blue")]; [VNumber 3; VNumber 5]]
      sample_object = Some e' /\
    toggleFilter Z.eqb (lit "Size") (VNumber 5) sample_filters = Normal e'.
Proof.
  exact (toggleFilter_store_view Z.eqb (lit "Size") (VNumber 5) sample_object
           sample_store sample_filters sample_object_refs eq_refl).
Defined.

Lemma toggleFilter_changes_previous_state_witness :
  (exists e1,
      FilterStore.view
        [[VString (lit "Red"); VString (lit "Blue")]; [VNumber 3; VNumber 5]]
        sample_object = Some e1 /\
      selected Z.eqb e1 (lit "Size") (VNumber 5)
      = negb (selected Z.eqb sample_filters (lit "Size") (VNumber 5))) /\
  (exists next2 h2 e2,
      FilterStore.toggleFilter Z.eqb (lit "Size") (VNumber 5) sample_object
        [[VString (lit "Red"); VString (lit "Blue")]; [VNumber 3; VNumber 5]]
      = Normal (next2, h2) /\
      FilterStore.view h2 next2 = Some e2 /\
      forall t' v',
        selected Z.eqb e2 t' v' = selected Z.eqb sample_filters t' v').
Proof.
  exact (toggleFilter_changes_previous_state Z.eqb Z.eqb_eq (lit "Size")
           (VNumber 5) sample_object sample_store sample_filters [VNumber 3]
           sample_object _ sample_object_refs eq_refl eq_refl eq_refl).
Defined.

(** ** The main page *)

(** *** The chain id *)

Lemma split_without sep s : ~ In sep s -> split sep s = [s].
Proof.
  induction s as [| c s IH]; [reflexivity |]. intros Hnin. cbn [split].
  destruct (Z.eqb_spec c sep) as [-> | _]; [exfalso; apply Hnin; left; reflexivity |].
  rewrite IH by (intros H; apply Hnin; right; exact H). reflexivity.
Qed.

Lemma split_at_first sep p r :
  ~ In sep p -> split sep (p ++ sep :: r) = p :: split sep r.
Proof.
  induction p as [| c p IH]; intros Hnin; cbn [app split].
  - rewrite Z.eqb_refl. reflexivity.
  - destruct (Z.eqb_spec c sep) as [-> | _];
      [exfalso; apply Hnin; left; reflexivity |].
    rewrite IH by (intros H; apply Hnin; right; exact H). reflexivity.
Qed.

Lemma split_hd sep p r :
  ~ In sep p -> exists ps, split sep (p ++ sep :: r) = p :: ps.
Proof. intros H. rewrite (split_at_first sep p r H). eauto. Qed.

Lemma string_of_uint_decimal u :
  Forall is_decimal_digit (lit (NilEmpty.string_of_uint u)).
Proof.
  unfold is_decimal_digit.
  induction u; cbn; constructor; try lia; exact IHu.
Qed.

Lemma digits_decimal n : Forall is_decimal_digit (digits n) /\ digits n <> [].
Proof.
  unfold digits, NilZero.string_of_uint.
  destruct (N.to_uint (Z.to_N n)) eqn:E;
    try (split; [rewrite <- E at 1 | cbn; discriminate]).
  - split; [| discriminate]. cbn. constructor; [unfold is_decimal_digit; lia |].
    constructor.
  - rewrite E. apply (string_of_uint_decimal (Decimal.D0 u)).
  - rewrite E. apply (string_of_uint_decimal (Decimal.D1 u)).
  - rewrite E. apply (string_of_uint_decimal (Decimal.D2 u)).
  - rewrite E. apply (string_of_uint_decimal (Decimal.D3 u)).
  - rewrite E. apply (string_of_uint_decimal (Decimal.D4 u)).
  - rewrite E. apply (string_of_uint_decimal (Decimal.D5 u)).
  - rewrite E. apply (string_of_uint_decimal (Decimal.D6 u)).
  - rewrite E. apply (string_of_uint_decimal (Decimal.D7 u)).
  - rewrite E. apply (string_of_uint_decimal (Decimal.D8 u)).
  - rewrite E. apply (string_of_uint_decimal (Decimal.D9 u)).
Qed.

Lemma toString_no_colon n : ~ In MainPage.colon (toString n).
Proof.
  unfold toString, MainPage.colon.
  assert (forall m, ~ In 58 (digits m)) as Hd.
  { intros m Hin. destruct (digits_decimal m) as [Hall _].
    rewrite Forall_forall in Hall. specialize (Hall _ Hin).
    unfold is_decimal_digit in Hall. lia. }
  destruct (n <? 0); [| apply Hd].
  intros [H | H]; [discriminate | exact (Hd _ H)].
Qed.

Lemma leading_digits_decimal s rest :
  Forall is_decimal_digit s ->
  match rest with [] => True | c :: _ => MainPage.radix_digit 10 c = None end ->
  MainPage.leading_digits 10 (s ++ rest) = map (fun c => c - 48) s.
Proof.
  intros Hall Hrest. induction Hall as [| c s Hc Hall IH]; cbn [app map].
  - destruct rest as [| c r]; [reflexivity |]. cbn [MainPage.leading_digits].
    rewrite Hrest. reflexivity.
  - cbn [MainPage.leading_digits]. unfold is_decimal_digit in Hc.
    unfold MainPage.radix_digit, MainPage.digit_value.
    destruct (Z.leb_spec 48 c); [| lia]. destruct (Z.leb_spec c 57); [| lia].
    cbn [andb]. destruct (Z.ltb_spec (c - 48) 10); [| lia].
    rewrite IH. reflexivity.
Qed.

Lemma radix_value_acc u acc :
  fold_left (fun a d => a * 10 + d)
    (map (fun c => c - 48) (lit (NilEmpty.string_of_uint u))) (Z.pos acc)
  = Z.pos (Pos.of_uint_acc u acc).
Proof.
  revert acc. induction u; intros acc;
    [reflexivity | cbn [NilEmpty.string_of_uint Pos.of_uint_acc] ..];
    unfold lit in *; cbn [list_ascii_of_string map fold_left];
    rewrite <- IHu; f_equal;
    match goal with
    | |- context [Z.of_N (N_of_ascii ?a)] =>
        let v := eval vm_compute in (Z.of_N (N_of_ascii a)) in
        change (Z.of_N (N_of_ascii a)) with v
    end;
    lia.
Qed.

Lemma radix_value_uint u :
  MainPage.radix_value 10
    (map (fun c => c - 48) (lit (NilEmpty.string_of_uint u)))
  = Z.of_N (Pos.of_uint u).
Proof.
  unfold MainPage.radix_value.
  induction u; [reflexivity | cbn [NilEmpty.string_of_uint Pos.of_uint] ..];
    unfold lit in *; cbn [list_ascii_of_string map fold_left];
    [exact IHu | ..];
    match goal with
    | |- fold_left _ (map _ (map _ (list_ascii_of_string
                                      (NilEmpty.string_of_uint ?u))))
           ?a = Z.of_N (N.pos (Pos.of_uint_acc _ ?k)) =>
        change a with (Z.pos k);
        exact (radix_value_acc u k)
    end.
Qed.

Lemma radix_value_digits n :
  0 <= n ->
  MainPage.radix_value 10 (map (fun c => c - 48) (digits n)) = n.
Proof.
  intros Hn. unfold digits, NilZero.string_of_uint.
  pose proof (DecimalN.Unsigned.of_to (Z.to_N n)) as Hof.
  unfold N.of_uint in Hof.
  destruct (N.to_uint (Z.to_N n)) eqn:E;
    try (rewrite <- E at 1; rewrite E;
         rewrite radix_value_uint, Hof; lia).
  cbn in Hof. cbn. lia.
Qed.

Lemma decimal_digit_cases c :
  is_decimal_digit c ->
  MainPage.is_white_space c = false /\ (c =? 45) = false /\ (c =? 43) = false /\
  (c =? 120) = false /\ (c =? 88) = false.
Proof.
  unfold is_decimal_digit. intros H.
  assert (c = 48 \/ c = 49 \/ c = 50 \/ c = 51 \/ c = 52 \/ c = 53 \/ c = 54 \/
          c = 55 \/ c = 56 \/ c = 57) as Hc by lia.
  repeat (destruct Hc as [-> | Hc]; [repeat split; reflexivity |]).
  subst c. repeat split; reflexivity.
Qed.

(** [parseInt] of a string that starts with decimal digits, followed by
    nothing or by a code unit that is no decimal digit (and no [x] after a
    single 0): the number that the digits denote. *)
Lemma parseInt_decimal (s : jsstring) :
  Forall is_decimal_digit s -> s <> [] ->
  MainPage.parseInt (Some s) =
  let mathInt := MainPage.radix_value 10 (map (fun c => c - 48) s) in
  if mathInt =? 0 then MainPage.Finite 0 else MainPage.Number_of_integer mathInt.
Proof.
  intros Hall Hne. destruct s as [| c r]; [congruence |].
  pose proof (leading_digits_decimal (c :: r) [] Hall I) as Hlead.
  rewrite app_nil_r in Hlead.
  inversion Hall as [| ? ? Hc Hr]; subst.
  destruct (decimal_digit_cases c Hc) as (Hw & Hminus & Hplus & _).
  unfold MainPage.parseInt. cbn [MainPage.trim_start]. rewrite Hw, Hminus, Hplus.
  cbn [orb].
  assert (MainPage.leading_digits 10 (c :: r) <> []) as Hnn
      by (rewrite Hlead; discriminate).
  destruct r as [| d r'].
  - destruct (MainPage.leading_digits 10 [c]) as [| x xs] eqn:El;
      [congruence |].
    rewrite <- Hlead. cbv zeta. rewrite Z.mul_1_l.
    destruct (MainPage.radix_value 10 (x :: xs) =? 0); reflexivity.
  - inversion Hr as [| ? ? Hd _]; subst.
    destruct (decimal_digit_cases d Hd) as (_ & _ & _ & -> & ->).
    rewrite andb_false_r.
    destruct (MainPage.leading_digits 10 (c :: d :: r')) as [| x xs] eqn:El;
      [congruence |].
    rewrite <- Hlead. cbv zeta. rewrite Z.mul_1_l.
    destruct (MainPage.radix_value 10 (x :: xs) =? 0); reflexivity.
Qed.

Lemma Number_of_integer_exact n :
  Z.abs n < 2 ^ 53 -> MainPage.Number_of_integer n = MainPage.Finite n.
Proof.
  intros H. unfold MainPage.Number_of_integer.
  rewrite (Number_of_bigint_exact n H).
  destruct (Z.leb_spec (2 ^ 1024) (Z.abs n)); [| reflexivity].
  assert (2 ^ 53 < 2 ^ 1024) by (apply Z.pow_lt_mono_r; lia). lia.
Qed.

Lemma parseInt_toString n :
  0 <= n < 2 ^ 53 -> MainPage.parseInt (Some (toString n)) = MainPage.Finite n.
Proof.
  intros [Hn Hlt].
  assert (toString n = digits n) as ->
      by (unfold toString; destruct (Z.ltb_spec n 0); [lia | reflexivity]).
  destruct (digits_decimal n) as [Hall Hne].
  rewrite (parseInt_decimal _ Hall Hne). cbv zeta.
  rewrite (radix_value_digits n Hn).
  destruct (Z.eqb_spec n 0) as [-> | _]; [reflexivity |].
  apply Number_of_integer_exact. lia.
Qed.

(** X24.  An id without a colon gives the default chain, 84532, and the
    contracts of Base Sepolia: the code reads the text after the first
    colon, and there is none. *)
Theorem chainId_without_colon (id : MainPage.network_id) :
  ~ In MainPage.colon (MainPage.String_of id) ->
  MainPage.chainId (Some id) = MainPage.Finite 84532 /\
  MainPage.currentNetworkContracts (MainPage.chainId (Some id))
  = MainPage.base_sepolia_contracts.
Proof.
  intros Hnin.
  assert (MainPage.chainId (Some id) = MainPage.Finite 84532) as H.
  { unfold MainPage.chainId. destruct (MainPage.falsy id); [reflexivity |].
    rewrite (split_without _ _ Hnin). reflexivity. }
  rewrite H. split; reflexivity.
Qed.

(** X25.  For an id that is a number the chain id is 84532, and the
    contracts shown are those of Base Sepolia, whatever the number. *)
Theorem chainId_numeric_id (n : Z) :
  MainPage.chainId (Some (MainPage.IdNumber n)) = MainPage.Finite 84532 /\
  MainPage.currentNetworkContracts (MainPage.chainId (Some (MainPage.IdNumber n)))
  = MainPage.base_sepolia_contracts.
Proof.
  assert (MainPage.chainId (Some (MainPage.IdNumber n)) = MainPage.Finite 84532)
    as H.
  { unfold MainPage.chainId. destruct (MainPage.falsy (MainPage.IdNumber n));
      [reflexivity |].
    cbn [MainPage.String_of].
    rewrite (split_without _ _ (toString_no_colon n)). reflexivity. }
  rewrite H. split; reflexivity.
Qed.

(** X26.  An id of the form namespace, colon, decimal digits of [n], with
    nothing or a colon and more text after them, gives the chain id [n], for
    every [n] below 2^53. *)
Theorem chainId_caip (namespace rest : jsstring) (n : Z) :
  ~ In MainPage.colon namespace ->
  0 <= n < 2 ^ 53 ->
  rest = [] \/ (exists r, rest = MainPage.colon :: r) ->
  MainPage.chainId
    (Some (MainPage.IdString (namespace ++ MainPage.colon :: toString n ++ rest)))
  = MainPage.Finite n.
Proof.
  intros Hns Hn Hrest. unfold MainPage.chainId, MainPage.falsy, MainPage.String_of.
  assert (eqb (namespace ++ MainPage.colon :: toString n ++ rest) [] = false)
    as -> by (destruct namespace; reflexivity).
  rewrite (split_at_first _ _ _ Hns).
  assert (exists ps, split MainPage.colon (toString n ++ rest) = toString n :: ps)
    as (ps & ->).
  { destruct Hrest as [-> | (r & ->)].
    - rewrite app_nil_r, (split_without _ _ (toString_no_colon n)). eauto.
    - apply split_hd. apply toString_no_colon. }
  cbn [nth_error]. rewrite (parseInt_toString n Hn). reflexivity.
Qed.

Lemma chainId_without_colon_witness :
  MainPage.chainId (Some (MainPage.IdString (lit "eip155-8453")))
  = MainPage.Finite 84532 /\
  MainPage.currentNetworkContracts
    (MainPage.chainId (Some (MainPage.IdString (lit "eip155-8453"))))
  = MainPage.base_sepolia_contracts.
Proof.
  apply (chainId_without_colon (MainPage.IdString (lit "eip155-8453"))).
  cbn. intuition discriminate.
Defined.

Lemma chainId_caip_witness :
  MainPage.chainId (Some (MainPage.IdString (lit "eip155:31337")))
  = MainPage.Finite 31337.
Proof.
  apply (chainId_caip (lit "eip155") [] 31337).
  - cbn. intuition discriminate.
  - lia.
  - left. reflexivity.
Defined.

(** *** The contracts with what the chain says of them *)

Lemma contractWithImage_cases p contract :
  let a := MainPage.address contract in
  MainPage.contractWithImage p contract =
  match Info.getContractInfo (MainPage.info_reads p a),
        fst (getNFTById (MainPage.token_reads p a) a (lit "0")) with
  | Normal contractInfo, Normal token0 =>
      match get_image (metadata token0) with
      | Normal image =>
          {| MainPage.address := a;
             MainPage.name := Info.name contractInfo;
             MainPage.symbol := Info.symbol contractInfo;
             MainPage.description := MainPage.description contract;
             MainPage.image := image |}
      | Throw _ => contract
      end
  | _, _ => contract
  end.
Proof.
  cbv zeta. unfold MainPage.contractWithImage.
  destruct (Info.getContractInfo _) as [info | e1];
    destruct (fst (getNFTById _ _ _)) as [token0 | e2];
    cbn [Promise_all2 bind]; try reflexivity.
  destruct (get_image (metadata token0)); reflexivity.
Qed.

Lemma getNFTById_cases ch addr id :
  fst (getNFTById ch addr id) =
  (' (tokenURI, owner) <-
     Promise_all2 (ownerOf_rejects_first ch (BString id) 1)
       (tokenURI ch (BString id) 1) (ownerOf ch (BString id) 1) ;;
   metadata <- parsed_metadata tokenURI ;;
   Normal {| tokenId := id; contractAddress := addr; owner := owner;
             metadata := metadata |}).
Proof.
  unfold getNFTById, read_token, parsed_metadata. cbn [fst].
  destruct (Promise_all2 _ _ _) as [[uri own] | e]; cbn [bind try_catch];
    [| reflexivity].
  destruct (decodeDataURI uri) as [text | e]; cbn [bind try_catch];
    [| reflexivity].
  destruct (JSON_parse text); reflexivity.
Qed.

(** X27.  The list that [fetchContractImages] stores has one entry for
    every contract of the registry, in order, with the address and the
    description of the registry.  An entry is the registry's entry as it
    is, or it has the name and the symbol that [getContractInfo] returned
    and the image of the metadata of token 0, all three together. *)
Theorem updatedContracts_entries p contracts :
  Forall2
    (fun contract updated =>
       MainPage.address updated = MainPage.address contract /\
       MainPage.description updated = MainPage.description contract /\
       (updated = contract \/
        exists contractInfo token0,
          Info.getContractInfo
            (MainPage.info_reads p (MainPage.address contract))
          = Normal contractInfo /\
          fst (getNFTById (MainPage.token_reads p (MainPage.address contract))
                 (MainPage.address contract) (lit "0")) = Normal token0 /\
          MainPage.name updated = Info.name contractInfo /\
          MainPage.symbol updated = Info.symbol contractInfo /\
          get_image (metadata token0) = Normal (MainPage.image updated)))
    contracts (MainPage.updatedContracts p contracts).
Proof.
  unfold MainPage.updatedContracts.
  induction contracts as [| contract contracts IH]; [constructor |].
  cbn [map]. constructor; [| exact IH].
  pose proof (contractWithImage_cases p contract) as H. cbv zeta in H.
  rewrite H. clear H.
  destruct (Info.getContractInfo _) as [info | e1] eqn:Hinfo;
    [| split; [reflexivity | split; [reflexivity | left; reflexivity]]].
  destruct (fst (getNFTById _ _ _)) as [token0 | e2] eqn:Htoken;
    [| split; [reflexivity | split; [reflexivity | left; reflexivity]]].
  destruct (get_image (metadata token0)) as [image | e3] eqn:Himage;
    [| split; [reflexivity | split; [reflexivity | left; reflexivity]]].
  split; [reflexivity |]. split; [reflexivity |]. right.
  exists info, token0. cbn. auto.
Qed.

(** X28.  One failure is enough for the registry's entry to stay as it
    is: a read of the name, of the symbol or of the total supply (which the
    card does not show) that fails, a read of the URI or of the owner of
    token 0 that fails, or metadata of token 0 that cannot be decoded and
    parsed or is [null]. *)
Theorem contractWithImage_falls_back p contract :
  let a := MainPage.address contract in
  let reads := MainPage.info_reads p a in
  let ch := MainPage.token_reads p a in
  (exists e, Info.name_read reads = Throw e) \/
  (exists e, Info.symbol_read reads = Throw e) \/
  (exists e, Info.totalSupply_read reads = Throw e) \/
  (exists e, tokenURI ch (BString (lit "0")) 1 = Throw e) \/
  (exists e, ownerOf ch (BString (lit "0")) 1 = Throw e) \/
  (exists uri,
      tokenURI ch (BString (lit "0")) 1 = Normal uri /\
      (parsed_metadata uri = Normal JNull \/
       exists e, parsed_metadata uri = Throw e)) ->
  MainPage.contractWithImage p contract = contract.
Proof.
  cbv zeta. intros H.
  pose proof (contractWithImage_cases p contract) as Hc. cbv zeta in Hc.
  rewrite Hc. clear Hc.
  rewrite getNFTById_cases.
  set (reads := MainPage.info_reads p (MainPage.address contract)) in *.
  set (ch := MainPage.token_reads p (MainPage.address contract)) in *.
  destruct (Info.getContractInfo reads) as [info | e0] eqn:Hinfo;
    [| reflexivity].
  assert (exists n s t,
             Info.name_read reads = Normal n /\
             Info.symbol_read reads = Normal s /\
             Info.totalSupply_read reads = Normal t) as (n & s & t & Hn & Hs & Ht).
  { unfold Info.getContractInfo in Hinfo.
    destruct (Info.name_read reads), (Info.symbol_read reads),
      (Info.totalSupply_read reads);
      cbn [Info.Promise_all3 bind try_catch] in Hinfo; try discriminate.
    do 3 eexists. split; [reflexivity | split; reflexivity]. }
  destruct H as [[e He] | [[e He] | [[e He] | H]]]; try congruence.
  destruct H as [[e He] | [[e He] | (uri & Hu & Hp)]].
  - rewrite He. destruct (ownerOf ch (BString (lit "0")) 1);
      cbn [Promise_all2 bind]; [reflexivity |].
    destruct (ownerOf_rejects_first ch (BString (lit "0")) 1); reflexivity.
  - rewrite He. destruct (tokenURI ch (BString (lit "0")) 1);
      cbn [Promise_all2 bind]; [reflexivity |].
    destruct (ownerOf_rejects_first ch (BString (lit "0")) 1); reflexivity.
  - rewrite Hu. destruct (ownerOf ch (BString (lit "0")) 1);
      cbn [Promise_all2 bind]; [| reflexivity].
    destruct Hp as [-> | [e ->]]; reflexivity.
Qed.

Lemma contractWithImage_falls_back_witness :
  parsed_metadata (lit "data:application/json,null") = Normal JNull /\
  MainPage.contractWithImage null_provider sample_contract = sample_contract.
Proof.
  split; [reflexivity |].
  apply (contractWithImage_falls_back null_provider sample_contract).
  do 5 right. exists (lit "data:application/json,null").
  split; [reflexivity | left; reflexivity].
Defined.

(** *** The pictures of the cards *)

Lemma ensureEncodedDataURI_error dataURI e :
  ensureEncodedDataURI dataURI = Throw e -> e = URIError.
Proof.
  rewrite ensureEncodedDataURI_cases.
  destruct (includes base64_marker dataURI); [discriminate |].
  destruct (past_first_comma dataURI) as [svg |]; [| discriminate].
  destruct (test_percent_escape svg); [discriminate |].
  unfold encodeURIComponent.
  destruct (Encode svg) as [t | e'] eqn:E; cbn [bind]; [discriminate |].
  intros [= <-]. exact (Encode_throws_URIError _ _ E).
Qed.

Lemma card_picture_TypeError record :
  metadata record <> JNull ->
  image_absent_or_string (metadata record) ->
  Cards.card_picture record = Throw TypeError <->
  (get_image (metadata record) = Normal None \/
   get_image (metadata record) = Normal (Some JNull)).
Proof.
  intros Hnn Himg. unfold Cards.card_picture.
  destruct Himg as [H | [H | [s H]]]; rewrite H; cbn [bind].
  - split; [auto | reflexivity].
  - split; [auto | reflexivity].
  - split; [| intros [? | ?]; discriminate].
    destruct (startsWith svg_prefix s); [| discriminate].
    destruct (ensureEncodedDataURI s) as [d | e] eqn:E; cbn [bind];
      [discriminate |].
    apply ensureEncodedDataURI_error in E. subst e. discriminate.
Qed.

(** X29.  A card of the grid throws a TypeError on a record that the
    collection fetcher returned if and only if the image of the record is
    absent or [null].  On the other records the card shows the image
    itself, or for an SVG data URI what [ensureEncodedDataURI] makes of
    it. *)
Theorem grid_card_picture ch addr onProgress supply records record :
  totalSupply ch = Normal supply ->
  fst (getNFTsFromContract ch addr onProgress) = Normal records ->
  In record records ->
  (Cards.card_picture record = Throw TypeError <->
   (get_image (metadata record) = Normal None \/
    get_image (metadata record) = Normal (Some JNull))) /\
  (forall image,
      get_image (metadata record) = Normal (Some (JString image)) ->
      Cards.card_picture record =
      if startsWith svg_prefix image then
        data <- ensureEncodedDataURI image ;; Normal (Cards.ObjectData data)
      else Normal (Cards.ImgSrc image)).
Proof.
  intros Hs Hr Hin.
  destruct (records_origin _ _ _ _ _ _ Hs Hr Hin) as (j & k & _ & _ & Hok).
  destruct (fetchNFTData_some _ _ _ _ _ Hok)
    as (uri & text & _ & _ & _ & _ & _ & _ & Hnn & Himg).
  split; [apply card_picture_TypeError; assumption |].
  intros image H. unfold Cards.card_picture. rewrite H. reflexivity.
Qed.

Lemma grid_card_picture_witness :
  exists record,
    In record (sample_records 7) /\
    get_image (metadata record) = Normal None /\
    Cards.card_picture record = Throw TypeError.
Proof.
  exists {| tokenId := toString 3; contractAddress := sample_address;
            owner := lit "0x90DF88f5c189cb3561E8da30182804Bc36F24361";
            metadata := JObject [(lit "name", JString (lit "Test"))] |}.
  assert (In {| tokenId := toString 3; contractAddress := sample_address;
                owner := lit "0x90DF88f5c189cb3561E8da30182804Bc36F24361";
                metadata := JObject [(lit "name", JString (lit "Test"))] |}
            (sample_records 7)) as Hin.
  { vm_compute. do 2 right. left. reflexivity. }
  split; [exact Hin |]. split; [reflexivity |].
  apply (proj1 (grid_card_picture (sample_chain 7) sample_address true 7
                  (sample_records 7) _ eq_refl
                  ltac:(vm_compute; reflexivity) Hin)).
  left. reflexivity.
Defined.

(** X30.  When the metadata of token 0 has an image that is [true], an
    array or an object, the single lookup accepts it, the contract gets it
    as its image, and the card of the contract throws a TypeError. *)
Theorem contract_card_throws is_zero p contract contractInfo token0 v :
  Info.getContractInfo (MainPage.info_reads p (MainPage.address contract))
  = Normal contractInfo ->
  fst (getNFTById (MainPage.token_reads p (MainPage.address contract))
         (MainPage.address contract) (lit "0")) = Normal token0 ->
  get_image (metadata token0) = Normal (Some v) ->
  (v = JBool true \/ (exists items, v = JArray items) \/
   (exists members, v = JObject members)) ->
  MainPage.image (MainPage.contractWithImage p contract) = Some v /\
  Cards.contract_card_picture is_zero (MainPage.contractWithImage p contract)
  = Throw TypeError.
Proof.
  intros Hinfo Htoken Himage Hv.
  pose proof (contractWithImage_cases p contract) as H. cbv zeta in H.
  rewrite Hinfo, Htoken, Himage in H. rewrite H.
  unfold Cards.contract_card_picture. cbn [MainPage.image].
  split; [reflexivity |].
  destruct Hv as [-> | [[items ->] | [members ->]]]; reflexivity.
Qed.

Lemma contract_card_throws_witness :
  MainPage.image (MainPage.contractWithImage object_image_provider sample_contract)
  = Some (JObject [(lit "uri", JString (lit "ipfs://t"))]) /\
  Cards.contract_card_picture (fun _ => false)
    (MainPage.contractWithImage object_image_provider sample_contract)
  = Throw TypeError.
Proof.
  apply (contract_card_throws (fun _ => false) object_image_provider
           sample_contract
           {| Info.name := lit "On-chain name"; Info.symbol := lit "OCN";
              Info.totalSupply := 2 |}
           {| tokenId := lit "0"; contractAddress := sample_address;
              owner := lit "0x90DF88f5c189cb3561E8da30182804Bc36F24361";
              metadata :=
                JObject [(lit "name", JString (lit "T"));
                         (lit "image",
                          JObject [(lit "uri", JString (lit "ipfs://t"))])] |}).
  - reflexivity.
  - vm_compute. reflexivity.
  - reflexivity.
  - right. right. eexists. reflexivity.
Defined.
